(** * Pixel-Hydrogen storefront: chunk paginator and product image carousel

    A shallow embedding of the two pieces of client-side logic of the
    storefront:

    - [Paginator]: the derivations of the [Collection] route component
      (collections.$handle): page window over the fetched chunk and the
      navigation URLs built by [buildPageUrl];
    - [Carousel]: the image presentation state of the [Product] route
      component (products.$handle): [switchTo], [markLoaded],
      [preloadImage] and the effects that drive the fade transition.

    JavaScript numbers are modelled by [number]: NaN, the two infinities and
    finite values as rationals (every finite double is a rational, and
    [Math.max], [Math.min], comparisons and [Math.ceil] are exact on them).
    Sums and products of finite values are rounded as binary64 arithmetic
    rounds them ([JS.double]: 53 significant bits, ties to even); an integer
    result is kept as it is, which is what double arithmetic gives on the
    integers the paginator computes with (array lengths and page numbers,
    all far below 2^53).

    Further modules cover what surrounds the two: [Navigation] (following a
    URL the paginator built), [Controls] and [Traces] (the buttons of the
    carousel and its runs of events), [RecentlyViewed] (the recently-viewed
    effect of the product page), [Menu] (the menu filter of the header) and
    [Home] (the collection handles the home page's loader asks for). *)

From Stdlib Require Import ZArith QArith Qround String Ascii List Lia Lqa DecimalString.
From Stdlib Require DecimalPos DecimalFacts Qcanon.
From stdpp Require Import base gmap strings list.

Close Scope Q_scope.
Open Scope string_scope.
Open Scope list_scope.
Open Scope Z_scope.

(** ** JavaScript values used by both components *)

Module JS.

Inductive number : Type :=
| NaN
| PosInfinity
| NegInfinity
| Finite (q : Q).

Definition ofZ (z : Z) : number := Finite (inject_Z z).

(** ToBoolean on a number: NaN, +0 and -0 are falsy. *)
Definition truthy (n : number) : bool :=
  match n with
  | NaN => false
  | Finite q => negb (Qeq_bool q 0)
  | _ => true
  end.

(** [a || b] on numbers. *)
Definition or_number (a b : number) : number := if truthy a then a else b.

(** ToBoolean on a string: only the empty string is falsy. *)
Definition truthy_string (s : string) : bool := negb (String.eqb s "").

(** ToBoolean on a value that is a string or null. *)
Definition present (o : option string) : bool :=
  match o with
  | Some s => truthy_string s
  | None => false
  end.

(** [o || d] where [o] is a string or null and [d] a string. *)
Definition or_string (o : option string) (d : string) : string :=
  match o with
  | Some s => if truthy_string s then s else d
  | None => d
  end.

Definition Math_max (a b : number) : number :=
  match a, b with
  | NaN, _ | _, NaN => NaN
  | PosInfinity, _ | _, PosInfinity => PosInfinity
  | NegInfinity, x | x, NegInfinity => x
  | Finite p, Finite q => if Qle_bool p q then Finite q else Finite p
  end.

Definition Math_min (a b : number) : number :=
  match a, b with
  | NaN, _ | _, NaN => NaN
  | NegInfinity, _ | _, NegInfinity => NegInfinity
  | PosInfinity, x | x, PosInfinity => x
  | Finite p, Finite q => if Qle_bool p q then Finite p else Finite q
  end.

(** [a < b]; false as soon as one side is NaN. *)
Definition lt (a b : number) : bool :=
  match a, b with
  | NaN, _ | _, NaN => false
  | _, NegInfinity => false
  | NegInfinity, _ => true
  | PosInfinity, _ => false
  | Finite _, PosInfinity => true
  | Finite p, Finite q => negb (Qle_bool q p)
  end.

(** [a === b] on numbers. *)
Definition strict_eq (a b : number) : bool :=
  match a, b with
  | PosInfinity, PosInfinity | NegInfinity, NegInfinity => true
  | Finite p, Finite q => Qeq_bool p q
  | _, _ => false
  end.

(** The binary64 value nearest to the rational [q] (round to nearest, ties
    to even): with [e] the exponent that puts [|q| / 2^e] in [2^52, 2^53),
    that quotient is rounded to an integer and scaled back. An integer is
    kept as it is: every integer up to 2^53 is a double, and the integers of
    the component are array lengths and page numbers. The exponent range is
    not modelled: what the component computes from a double page number lies
    between 2^-52 and 2^53 in magnitude. *)
Definition double (q : Q) : Q :=
  let r := Qred q in
  let n := Qnum r in
  let d := Zpos (Qden r) in
  if d =? 1 then r
  else
    let a := Z.abs n in
    let e0 := Z.log2 a - Z.log2 d - 52 in
    let num := fun e => a * 2 ^ Z.max 0 (- e) in
    let den := fun e => d * 2 ^ Z.max 0 e in
    let e := if 2 ^ 52 <=? num e0 / den e0 then e0 else e0 - 1 in
    let fl := num e / den e in
    let rm := num e mod den e in
    let m :=
      match 2 * rm ?= den e with
      | Lt => fl
      | Gt => fl + 1
      | Eq => if Z.even fl then fl else fl + 1
      end in
    Qred ((Z.sgn n * m * 2 ^ Z.max 0 e) # Z.to_pos (2 ^ Z.max 0 (- e))).

(** [a + b]: the double nearest to the sum. *)
Definition add (a b : number) : number :=
  match a, b with
  | NaN, _ | _, NaN => NaN
  | PosInfinity, NegInfinity | NegInfinity, PosInfinity => NaN
  | PosInfinity, _ | _, PosInfinity => PosInfinity
  | NegInfinity, _ | _, NegInfinity => NegInfinity
  | Finite p, Finite q => Finite (double (p + q)%Q)
  end.

Definition neg (a : number) : number :=
  match a with
  | NaN => NaN
  | PosInfinity => NegInfinity
  | NegInfinity => PosInfinity
  | Finite p => Finite (- p)%Q
  end.

(** [a - b]: the double nearest to the difference. *)
Definition sub (a b : number) : number := add a (neg b).

(** [a * b]: the double nearest to the product. *)
Definition mul (a b : number) : number :=
  match a, b with
  | NaN, _ | _, NaN => NaN
  | Finite p, Finite q => Finite (double (p * q)%Q)
  | Finite p, i | i, Finite p =>
      if Qeq_bool p 0 then NaN
      else if Qle_bool 0 p then i else neg i
  | PosInfinity, PosInfinity | NegInfinity, NegInfinity => PosInfinity
  | _, _ => NegInfinity
  end.

(** Decimal text of an integer, as [String(n)] prints integers of
    magnitude below 10^21. *)
Definition decimal (z : Z) : string := NilZero.string_of_int (Z.to_int z).

Definition isDigit (c : ascii) : bool :=
  let n := N_of_ascii c in ((48 <=? n) && (n <=? 57))%N.

Fixpoint digitsValue (s : string) (acc : Z) : option Z :=
  match s with
  | EmptyString => Some acc
  | String c r =>
      if isDigit c
      then digitsValue r (10 * acc + (Z.of_N (N_of_ascii c) - 48))
      else None
  end.

(** The value of a string of one to fifteen decimal digits (exact as a
    double), [None] for every other string. *)
Definition decimalLiteral (s : string) : option Z :=
  match s with
  | EmptyString => None
  | _ => if (String.length s <=? 15)%nat then digitsValue s 0 else None
  end.

(** Truncation toward zero, the integer part ToIntegerOrInfinity keeps. *)
Definition truncate (q : Q) : Z := Z.quot (Qnum q) (Zpos (Qden q)).

(** [Array.prototype.slice]'s reading of one bound: ToIntegerOrInfinity,
    then relative to the end when negative, clamped to [0, len]. *)
Definition relativeIndex (len : Z) (n : number) : Z :=
  match n with
  | NaN => Z.min 0 len
  | NegInfinity => 0
  | PosInfinity => len
  | Finite q =>
      let r := truncate q in
      if r <? 0 then Z.max (len + r) 0 else Z.min r len
  end.

Definition slice {T : Type} (l : list T) (start stop : number) : list T :=
  let len := Z.of_nat (length l) in
  let k := relativeIndex len start in
  let final := relativeIndex len stop in
  take (Z.to_nat (Z.max (final - k) 0)) (drop (Z.to_nat k) l).

End JS.

(** ** URLSearchParams: an ordered list of name/value pairs *)

Module URLSearchParams.

Definition t : Type := list (string * string).

(** [get(name)]: the value of the first pair with that name, or null. *)
Fixpoint get (name : string) (l : t) : option string :=
  match l with
  | [] => None
  | (k, v) :: r => if String.eqb k name then Some v else get name r
  end.

(** [delete(name)]: removes every pair with that name. *)
Definition delete (name : string) (l : t) : t :=
  List.filter (fun p => negb (String.eqb (fst p) name)) l.

(** [set(name, value)]: overwrites the first pair with that name and
    removes the others; appends a new pair when there is none. *)
Fixpoint set (name value : string) (l : t) : t :=
  match l with
  | [] => [(name, value)]
  | (k, v) :: r =>
      if String.eqb k name
      then (name, value) :: delete name r
      else (k, v) :: set name value r
  end.

End URLSearchParams.

(** ** The Collection route component (collections.$handle) *)

Module Paginator.
Import JS.

Definition PAGE_SIZE : Z := 50.
Definition PAGES_PER_CHUNK : Z := 4.

(** [useLocation()]: the pathname, and the query string as
    [new URLSearchParams(location.search)] reads it. *)
Record location : Type := {
  pathname : string;
  search : URLSearchParams.t
}.

(** [collection.products.pageInfo]; a cursor is a string or null. *)
Record pageInfo : Type := {
  hasNextPage : bool;
  hasPreviousPage : bool;
  endCursor : option string;
  startCursor : option string
}.

(** A navigation URL [`${location.pathname}?${nextParams.toString()}`], kept
    as its path and its parameter list (what the router reads back from the
    text [toString] serialises). *)
Record href : Type := {
  path : string;
  params : URLSearchParams.t
}.

Section Platform.

(** The two conversions of the platform where this model does not fix them:
    [StringToNumber] is ECMAScript's reading of a string that is not a plain
    decimal literal (NaN for a string that is no numeric literal), and
    [NumberToString] its printing of a finite number that is no integer
    below 10^21. *)
Variable StringToNumber : string -> number.
Variable NumberToString : Q -> string.

(** [Number(s)] for a string [s]. *)
Definition Number (s : string) : number :=
  match decimalLiteral s with
  | Some z => ofZ z
  | None => StringToNumber s
  end.

(** [String(n)] for a number [n]. *)
Definition String_ (n : number) : string :=
  match n with
  | NaN => "NaN"
  | PosInfinity => "Infinity"
  | NegInfinity => "-Infinity"
  | Finite q =>
      let z := Qfloor q in
      if Qeq_bool q (inject_Z z) && (Z.abs z <? 10 ^ 21)
      then decimal z
      else NumberToString q
  end.

Section Component.

Context {T : Type}.
(** [pageSize] is the constant [PAGE_SIZE] of the component; it is positive. *)
Variable pageSize : Z.
Variable loc : location.
Variable nodes : list T.
Variable info : pageInfo.

Definition searchParams : URLSearchParams.t := search loc.

Definition requestedPage : number :=
  or_number
    (Number (or_string (URLSearchParams.get "page" searchParams) "1"))
    (ofZ 1).

Definition chunkCursor : option string :=
  URLSearchParams.get "cursor" searchParams.

Definition chunkDirection : option string :=
  URLSearchParams.get "direction" searchParams.

(** [Math.max(1, Math.ceil(nodes.length / PAGE_SIZE))], an integer. *)
Definition totalPages : Z :=
  Z.max 1 (Qceiling (inject_Z (Z.of_nat (length nodes)) / inject_Z pageSize)).

Definition currentPage : number :=
  Math_min (Math_max (ofZ 1) requestedPage) (ofZ totalPages).

Definition startIndex : number := mul (sub currentPage (ofZ 1)) (ofZ pageSize).

Definition endIndex : number := add startIndex (ofZ pageSize).

Definition visibleNodes : list T := slice nodes startIndex endIndex.

Definition hasNextPageInChunk : bool := lt currentPage (ofZ totalPages).

Definition hasPreviousPageInChunk : bool := lt (ofZ 1) currentPage.

(** [buildPageUrl(nextPage, cursor, direction)] with both optional
    arguments given; [buildPageUrlInChunk] is the call that leaves them to
    their defaults [chunkCursor] and [chunkDirection]. *)
Definition buildPageUrl (nextPage : number) (cursor direction : option string)
  : href :=
  let nextParams := search loc in
  let nextParams := URLSearchParams.set "page" (String_ nextPage) nextParams in
  let nextParams :=
    match cursor, direction with
    | Some c, Some d =>
        if truthy_string c && truthy_string d
        then URLSearchParams.set "direction" d
               (URLSearchParams.set "cursor" c nextParams)
        else URLSearchParams.delete "direction"
               (URLSearchParams.delete "cursor" nextParams)
    | _, _ =>
        URLSearchParams.delete "direction"
          (URLSearchParams.delete "cursor" nextParams)
    end in
  {| path := pathname loc; params := nextParams |}.

Definition buildPageUrlInChunk (nextPage : number) : href :=
  buildPageUrl nextPage chunkCursor chunkDirection.

Definition nextUrl : option href :=
  if hasNextPageInChunk
  then Some (buildPageUrlInChunk (add currentPage (ofZ 1)))
  else if hasNextPage info && present (endCursor info)
  then Some (buildPageUrl (ofZ 1) (endCursor info) (Some "next"))
  else None.

Definition prevUrl : option href :=
  if hasPreviousPageInChunk
  then Some (buildPageUrlInChunk (sub currentPage (ofZ 1)))
  else if hasPreviousPage info && present (startCursor info)
  then Some (buildPageUrl (ofZ PAGES_PER_CHUNK) (startCursor info)
               (Some "previous"))
  else None.

(** One entry of the page-number strip. The active page is rendered as a
    plain span, every other one as a link to [pageUrl]. *)
Record pageEntry : Type := {
  pageNumber : Z;
  isActive : bool;
  pageUrl : href
}.

(** [Array.from({length: totalPages}, (_, index) => ...)] *)
Definition pageEntries : list pageEntry :=
  List.map
    (fun index : nat =>
       let pageNumber := Z.of_nat index + 1 in
       {| pageNumber := pageNumber;
          isActive := strict_eq (ofZ pageNumber) currentPage;
          pageUrl := buildPageUrlInChunk (ofZ pageNumber) |})
    (List.seq 0 (Z.to_nat totalPages)).

(** The slice shown when the current page is the integer [p]. *)
Definition page (p : Z) : list T :=
  slice nodes
    (mul (sub (ofZ p) (ofZ 1)) (ofZ pageSize))
    (add (mul (sub (ofZ p) (ofZ 1)) (ofZ pageSize)) (ofZ pageSize)).

End Component.

End Platform.

(** The parameters of a navigation URL that [buildPageUrl] never writes. *)
Definition isOtherParam (p : string * string) : bool :=
  negb (String.eqb (fst p) "page" || String.eqb (fst p) "cursor"
        || String.eqb (fst p) "direction").

Definition otherParams (l : URLSearchParams.t) : URLSearchParams.t :=
  List.filter isOtherParam l.

(** The navigation target a URL encodes: its page, cursor and direction
    parameters. *)
Definition target (u : href) : option string * option string * option string :=
  (URLSearchParams.get "page" (params u),
   URLSearchParams.get "cursor" (params u),
   URLSearchParams.get "direction" (params u)).

Definition cursorParams (u : href) : option string * option string :=
  (URLSearchParams.get "cursor" (params u),
   URLSearchParams.get "direction" (params u)).

(** The cursor and direction of the chunk on display, as far as the current
    URL carries both with a non-empty value. *)
Definition chunkParams (loc : location) : option string * option string :=
  match chunkCursor loc, chunkDirection loc with
  | Some c, Some d =>
      if truthy_string c && truthy_string d then (Some c, Some d)
      else (None, None)
  | _, _ => (None, None)
  end.

(** A reading of the page parameter that names no page: not a number, or a
    number that is zero or negative. *)
Definition malformedPage (r : number) : bool :=
  match r with
  | NaN | NegInfinity => true
  | PosInfinity => false
  | Finite q => Qle_bool q 0
  end.

(** The conversions used to evaluate the examples below: their page values
    are plain decimal integers, on which [Number] and [String_] consult
    neither. *)
Definition noOtherLiteral : string -> number := fun _ => NaN.
Definition noFraction : Q -> string := fun _ => "".

(** A collection of one hundred products, first on the first chunk (no
    cursor in the URL), then on a chunk reached with a cursor. *)
Definition hundredItems : list nat := List.seq 0 100.

Definition firstChunk (pageParam : string) : location :=
  {| pathname := "/collections/all";
     search := [("sort", "price"); ("page", pageParam)] |}.

Definition laterChunk : location :=
  {| pathname := "/collections/all";
     search := [("cursor", "abc"); ("direction", "next")] |}.

Definition middleInfo : pageInfo :=
  {| hasNextPage := true; hasPreviousPage := true;
     endCursor := Some "def"; startCursor := Some "abd" |}.

End Paginator.

(** ** The Product route component (products.$handle): image presentation

    The component's state variables, its props as far as the images depend
    on them, and the callbacks it has scheduled (timers and image
    preloaders). An [event] is one turn of the UI event loop: a handler or
    a scheduled callback runs, the component renders again and the effects
    whose dependencies changed run, until a render changes nothing more.
    The thumbnail delay and the recently-viewed list share no state with the
    carousel and are left out. *)

Module Carousel.

(** An image descriptor of the Storefront API. *)
Record image : Type := {
  id : string;
  url : string;
  altText : option string
}.

(** ['idle' | 'fade-out' | 'fade-in'] *)
Inductive phase_t : Type := idle | fade_out | fade_in.

(** [s.includes(c)] for a one-character needle. *)
Fixpoint includes (c : ascii) (s : string) : bool :=
  match s with
  | EmptyString => false
  | String a r => Ascii.eqb a c || includes c r
  end.

Definition withImageWidth (url : string) (width : Z) : string :=
  let separator := if includes "?"%char url then "&" else "?" in
  url +:+ separator +:+ "width=" +:+ JS.decimal width.

(** [images[index]]: undefined outside the list. *)
Definition imageAt (images : list image) (index : Z) : option image :=
  if index <? 0 then None else images !! Z.to_nat index.

Fixpoint findIndexFrom (f : image -> bool) (l : list image) (k : Z) : Z :=
  match l with
  | [] => -1
  | x :: r => if f x then k else findIndexFrom f r (k + 1)
  end.

(** [l.findIndex(f)]: -1 when no element satisfies [f]. *)
Definition findIndex (f : image -> bool) (l : list image) : Z :=
  findIndexFrom f l 0.

Definition sameId (a b : image) : bool := String.eqb (id a) (id b).

(** The memoised image list: the variant's image is put in front of the
    product's images unless one of them has its id. *)
Definition imagesOf (baseImages : list image) (variantImage : option image)
  : list image :=
  match variantImage with
  | None => baseImages
  | Some v =>
      if existsb (fun image => sameId image v) baseImages
      then baseImages
      else v :: baseImages
  end.

(** Whether the memoised list is a new array rather than [baseImages]
    itself. *)
Definition freshArray (baseImages : list image) (variantImage : option image)
  : bool :=
  match variantImage with
  | None => false
  | Some v => negb (existsb (fun image => sameId image v) baseImages)
  end.

Record state : Type := {
  baseImages : list image;
  variantImage : option image;
  activeIndex : Z;
  displayIndex : Z;
  pendingIndex : option Z;
  phase : phase_t;
  loadedImages : gset string;
  (** the [src] of each preloader whose load is in flight *)
  preloads : list string;
  (** the sweep effect's timer is pending *)
  sweepTimer : bool;
  (** the transition effect's fade-out timer is pending, for this index *)
  fadeOutTimer : option Z;
  (** how many fade-in timers are pending *)
  fadeInTimers : nat
}.

Definition images (st : state) : list image :=
  imagesOf (baseImages st) (variantImage st).

Definition activeImage (st : state) : option image :=
  imageAt (images st) (displayIndex st).

Definition setProps (b : list image) (v : option image) (st : state) : state :=
  {| baseImages := b; variantImage := v;
     activeIndex := activeIndex st; displayIndex := displayIndex st;
     pendingIndex := pendingIndex st; phase := phase st;
     loadedImages := loadedImages st; preloads := preloads st;
     sweepTimer := sweepTimer st; fadeOutTimer := fadeOutTimer st;
     fadeInTimers := fadeInTimers st |}.

Definition setActiveIndex (i : Z) (st : state) : state :=
  {| baseImages := baseImages st; variantImage := variantImage st;
     activeIndex := i; displayIndex := displayIndex st;
     pendingIndex := pendingIndex st; phase := phase st;
     loadedImages := loadedImages st; preloads := preloads st;
     sweepTimer := sweepTimer st; fadeOutTimer := fadeOutTimer st;
     fadeInTimers := fadeInTimers st |}.

Definition setDisplayIndex (i : Z) (st : state) : state :=
  {| baseImages := baseImages st; variantImage := variantImage st;
     activeIndex := activeIndex st; displayIndex := i;
     pendingIndex := pendingIndex st; phase := phase st;
     loadedImages := loadedImages st; preloads := preloads st;
     sweepTimer := sweepTimer st; fadeOutTimer := fadeOutTimer st;
     fadeInTimers := fadeInTimers st |}.

Definition setPendingIndex (p : option Z) (st : state) : state :=
  {| baseImages := baseImages st; variantImage := variantImage st;
     activeIndex := activeIndex st; displayIndex := displayIndex st;
     pendingIndex := p; phase := phase st;
     loadedImages := loadedImages st; preloads := preloads st;
     sweepTimer := sweepTimer st; fadeOutTimer := fadeOutTimer st;
     fadeInTimers := fadeInTimers st |}.

Definition setPhase (p : phase_t) (st : state) : state :=
  {| baseImages := baseImages st; variantImage := variantImage st;
     activeIndex := activeIndex st; displayIndex := displayIndex st;
     pendingIndex := pendingIndex st; phase := p;
     loadedImages := loadedImages st; preloads := preloads st;
     sweepTimer := sweepTimer st; fadeOutTimer := fadeOutTimer st;
     fadeInTimers := fadeInTimers st |}.

Definition setLoadedImages (s : gset string) (st : state) : state :=
  {| baseImages := baseImages st; variantImage := variantImage st;
     activeIndex := activeIndex st; displayIndex := displayIndex st;
     pendingIndex := pendingIndex st; phase := phase st;
     loadedImages := s; preloads := preloads st;
     sweepTimer := sweepTimer st; fadeOutTimer := fadeOutTimer st;
     fadeInTimers := fadeInTimers st |}.

Definition setPreloads (l : list string) (st : state) : state :=
  {| baseImages := baseImages st; variantImage := variantImage st;
     activeIndex := activeIndex st; displayIndex := displayIndex st;
     pendingIndex := pendingIndex st; phase := phase st;
     loadedImages := loadedImages st; preloads := l;
     sweepTimer := sweepTimer st; fadeOutTimer := fadeOutTimer st;
     fadeInTimers := fadeInTimers st |}.

Definition setSweepTimer (b : bool) (st : state) : state :=
  {| baseImages := baseImages st; variantImage := variantImage st;
     activeIndex := activeIndex st; displayIndex := displayIndex st;
     pendingIndex := pendingIndex st; phase := phase st;
     loadedImages := loadedImages st; preloads := preloads st;
     sweepTimer := b; fadeOutTimer := fadeOutTimer st;
     fadeInTimers := fadeInTimers st |}.

Definition setFadeOutTimer (t : option Z) (st : state) : state :=
  {| baseImages := baseImages st; variantImage := variantImage st;
     activeIndex := activeIndex st; displayIndex := displayIndex st;
     pendingIndex := pendingIndex st; phase := phase st;
     loadedImages := loadedImages st; preloads := preloads st;
     sweepTimer := sweepTimer st; fadeOutTimer := t;
     fadeInTimers := fadeInTimers st |}.

Definition setFadeInTimers (n : nat) (st : state) : state :=
  {| baseImages := baseImages st; variantImage := variantImage st;
     activeIndex := activeIndex st; displayIndex := displayIndex st;
     pendingIndex := pendingIndex st; phase := phase st;
     loadedImages := loadedImages st; preloads := preloads st;
     sweepTimer := sweepTimer st; fadeOutTimer := fadeOutTimer st;
     fadeInTimers := n |}.

(** [loadedImages.has(url)] *)
Definition has (url : string) (s : gset string) : bool := bool_decide (url ∈ s).

(** The 800px-wide URL of an image. *)
Definition url800 (image : image) : string := withImageWidth (url image) 800.

(** The updater [markLoaded] hands to [setLoadedImages]. *)
Definition addLoaded (url : string) (prev : gset string) : gset string :=
  if has url prev then prev else {[ url ]} ∪ prev.

Definition markLoaded (url : string) (st : state) : state :=
  if negb (JS.truthy_string url) then st
  else setLoadedImages (addLoaded url (loadedImages st)) st.

(** [preloadImage(url)]: a new preloader starts loading [url]; its [onload]
    is the event [PreloadLoaded url]. *)
Definition preloadImage (url : string) (st : state) : state :=
  if negb (JS.truthy_string url) then st
  else setPreloads (preloads st ++ [url]) st.

(** The handler [switchTo(index)], before any re-render. *)
Definition switchTo (index : Z) (st : state) : state :=
  if (length (images st) =? 0)%nat || (index =? activeIndex st) then st
  else
    let target := imageAt (images st) index in
    let targetUrl :=
      match target with
      | Some t =>
          if JS.truthy_string (url t) then Some (withImageWidth (url t) 800)
          else None
      | None => None
      end in
    let st1 :=
      match targetUrl with
      | Some u =>
          if negb (has u (loadedImages st)) then preloadImage u st else st
      | None => st
      end in
    setPendingIndex (Some index) (setActiveIndex index st1).

(** *** The effects

    Each effect reads the values of the render it belongs to ([r]) and
    queues its state updates on [acc], which the next render shows; clearing
    and setting a timer happens at once. *)

(** [useEffect(..., [variantImage?.id, images])] *)
Definition variantEffect (r acc : state) : state :=
  let fallback :=
    if negb (length (images r) =? 0)%nat
       && (Z.of_nat (length (images r)) <=? displayIndex r)
    then setDisplayIndex 0 (setActiveIndex 0 acc)
    else acc in
  match variantImage r with
  | Some v =>
      let matchIndex := findIndex (fun image => sameId image v) (images r) in
      if 0 <=? matchIndex
      then setPhase idle
             (setPendingIndex None
                (setDisplayIndex matchIndex (setActiveIndex matchIndex acc)))
      else fallback
  | None => fallback
  end.

(** The URLs the sweep looks at: the 800px URL of every image that has a
    non-empty url. *)
Definition targetUrls (l : list image) : list string :=
  List.map url800 (List.filter (fun image => JS.truthy_string (url image)) l).

(** [useEffect(..., [images, loadedImages])]: the cleanup of the previous
    run clears its timer, then the body runs. *)
Definition sweepEffect (r acc : state) : state :=
  let acc := setSweepTimer false acc in
  if (length (images r) =? 0)%nat then acc
  else if forallb (fun u => has u (loadedImages r)) (targetUrls (images r))
  then acc
  else setSweepTimer true acc.

(** The sweep timer's callback: every image not yet loaded is preloaded. *)
Definition sweep (st : state) : state :=
  fold_left
    (fun acc image =>
       if negb (JS.truthy_string (url image)) then acc
       else if has (url800 image) (loadedImages st) then acc
       else preloadImage (url800 image) acc)
    (images st) st.

(** [useEffect(..., [pendingIndex, displayIndex, loadedImages, images])]:
    the cleanup of the previous run clears its fade-out timer, then the body
    runs. *)
Definition transitionEffect (r acc : state) : state :=
  let acc := setFadeOutTimer None acc in
  match pendingIndex r with
  | None => acc
  | Some p =>
      if p =? displayIndex r then setPendingIndex None acc
      else
        match imageAt (images r) p with
        | None => acc
        | Some target =>
            if has (url800 target) (loadedImages r)
            then setFadeOutTimer (Some p) (setPhase fade_out acc)
            else acc
        end
  end.

(** The fade-out timer's callback, for the pending index [p] it closed
    over. The cleanup it returns goes nowhere (a timer callback's result is
    dropped), so the fade-in timer it starts is never cleared. *)
Definition fadeOutCallback (p : Z) (st : state) : state :=
  setFadeInTimers (S (fadeInTimers st))
    (setPhase fade_in (setDisplayIndex p st)).

(** The fade-in timer's callback. *)
Definition fadeInCallback (st : state) : state :=
  setPendingIndex None (setPhase idle st).

(** Which dependencies differ from the previous render. *)
Record changes : Type := {
  variantIdChanged : bool;
  imagesChanged : bool;
  pendingChanged : bool;
  displayChanged : bool;
  loadedChanged : bool
}.

Definition noChange (c : changes) : bool :=
  negb (variantIdChanged c || imagesChanged c || pendingChanged c
        || displayChanged c || loadedChanged c).

(** The effects of one render, in the order the component declares them. *)
Definition runEffects (c : changes) (r : state) : state :=
  let acc := r in
  let acc :=
    if variantIdChanged c || imagesChanged c then variantEffect r acc else acc in
  let acc :=
    if imagesChanged c || loadedChanged c then sweepEffect r acc else acc in
  let acc :=
    if pendingChanged c || displayChanged c || loadedChanged c || imagesChanged c
    then transitionEffect r acc else acc in
  acc.

(** What a state update changed among the dependencies of the effects. *)
Definition stateChanges (old new : state) : changes :=
  {| variantIdChanged := false;
     imagesChanged := false;
     pendingChanged := negb (bool_decide (pendingIndex old = pendingIndex new));
     displayChanged := negb (bool_decide (displayIndex old = displayIndex new));
     loadedChanged := negb (bool_decide (loadedImages old = loadedImages new)) |}.

(** Render and run effects until no dependency changes any more; [fuel]
    bounds the number of renders ([settle_fuel] shows three are enough). *)
Fixpoint settle (fuel : nat) (c : changes) (r : state) : state :=
  match fuel with
  | O => r
  | S fuel =>
      if noChange c then r
      else let r' := runEffects c r in settle fuel (stateChanges r r') r'
  end.

Definition renders : nat := 4.

(** A handler or callback took [old] to [new]: render. *)
Definition rerender (old new : state) : state :=
  settle renders (stateChanges old new) new.

(** The first render of the component, with every effect run once. *)
Definition mount (base : list image) (variant : option image) : state :=
  settle renders
    {| variantIdChanged := true; imagesChanged := true; pendingChanged := true;
       displayChanged := true; loadedChanged := true |}
    {| baseImages := base; variantImage := variant;
       activeIndex := 0; displayIndex := 0; pendingIndex := None;
       phase := idle; loadedImages := ∅; preloads := [];
       sweepTimer := false; fadeOutTimer := None; fadeInTimers := 0 |}.

Definition optionId (v : option image) : option string :=
  match v with
  | Some i => Some (id i)
  | None => None
  end.

(** New props: the loader delivered a product ([base] is [Some] of its image
    array, a new array) or the selected variant changed ([base] is [None]:
    the same array as before). The memo recomputes [images] when the array
    or the variant image's id is new; the list it returns is a new array
    unless it is the same [baseImages] array as before. *)
Definition newProps (base : option (list image)) (variant : option image)
    (st : state) : state :=
  let idChanged :=
    negb (bool_decide (optionId (variantImage st) = optionId variant)) in
  let newArray := match base with Some _ => true | None => false end in
  if negb (newArray || idChanged) then st
  else
    let b := match base with Some b => b | None => baseImages st end in
    let st' := setProps b variant st in
    settle renders
      {| variantIdChanged := idChanged;
         imagesChanged :=
           newArray || freshArray (baseImages st) (variantImage st)
           || freshArray b variant;
         pendingChanged := false; displayChanged := false;
         loadedChanged := false |}
      st'.

Fixpoint removeFirst (u : string) (l : list string) : list string :=
  match l with
  | [] => []
  | x :: r => if String.eqb x u then r else x :: removeFirst u r
  end.

Inductive event : Type :=
| SwitchTo (index : Z)
    (** a click handler calls [switchTo(index)] *)
| PreloadLoaded (url : string)
    (** [onload] of a preloader in flight for [url] *)
| PreloadFailed (url : string)
    (** a preloader in flight for [url] fails: no callback is registered *)
| MainImageLoaded (src : string)
    (** [onLoad] of the main image element, whose resolved [src] is [src] *)
| FadeOutTimer
| FadeInTimer
| SweepTimer
| Props (base : option (list image)) (variant : option image).

(** One turn of the event loop; [None] when the event cannot happen in
    [st] (no such timer or preloader pending, no main image rendered). *)
Definition step (st : state) (e : event) : option state :=
  match e with
  | SwitchTo index => Some (rerender st (switchTo index st))
  | PreloadLoaded u =>
      if existsb (String.eqb u) (preloads st)
      then
        let st1 := setPreloads (removeFirst u (preloads st)) st in
        Some (rerender st (markLoaded u st1))
      else None
  | PreloadFailed u =>
      if existsb (String.eqb u) (preloads st)
      then Some (setPreloads (removeFirst u (preloads st)) st)
      else None
  | MainImageLoaded src =>
      match activeImage st with
      | Some _ => Some (rerender st (markLoaded src st))
      | None => None
      end
  | FadeOutTimer =>
      match fadeOutTimer st with
      | Some p =>
          Some (rerender st (fadeOutCallback p (setFadeOutTimer None st)))
      | None => None
      end
  | FadeInTimer =>
      match fadeInTimers st with
      | S n => Some (rerender st (fadeInCallback (setFadeInTimers n st)))
      | O => None
      end
  | SweepTimer =>
      if sweepTimer st then Some (sweep (setSweepTimer false st)) else None
  | Props base variant => Some (newProps base variant st)
  end.

Fixpoint run (st : state) (es : list event) : option state :=
  match es with
  | [] => Some st
  | e :: es =>
      match step st e with
      | Some st' => run st' es
      | None => None
      end
  end.

(** The states the component can be in. *)
Inductive reachable : state -> Prop :=
| reachable_mount base variant : reachable (mount base variant)
| reachable_step st e st' :
    reachable st -> step st e = Some st' -> reachable st'.

(** Events that are not the user's or the loader's doing: timers firing and
    image loads completing. *)
Definition isCallback (e : event) : bool :=
  match e with
  | SwitchTo _ | Props _ _ => false
  | _ => true
  end.

Definition isProps (e : event) : bool :=
  match e with
  | Props _ _ => true
  | _ => false
  end.

(** The image at [index] exists and its 800px URL is in [loadedImages]. *)
Definition loadedAt (st : state) (index : Z) : bool :=
  match imageAt (images st) index with
  | Some image => has (url800 image) (loadedImages st)
  | None => false
  end.

(** Everything of a state but the preloaders in flight. *)
Definition exceptPreloads (st : state) :=
  (baseImages st, variantImage st, activeIndex st, displayIndex st,
   pendingIndex st, phase st, loadedImages st, sweepTimer st,
   fadeOutTimer st, fadeInTimers st).

(** The pending fade-out timer belongs to the pending index, whose image
    is loaded. *)
Definition timerOK (st : state) : Prop :=
  forall p, fadeOutTimer st = Some p ->
            pendingIndex st = Some p /\ loadedAt st p = true.

(** The index on display is a position of the image list (of any list,
    when there is no image at all). *)
Definition displayOK (st : state) : Prop :=
  0 <= displayIndex st
  /\ (images st <> [] -> displayIndex st < Z.of_nat (length (images st))).

Definition invariant (st : state) : Prop := timerOK st /\ displayOK st.

(** The state of affairs after [switchTo(i)] for an index with no image:
    no timer of the transition is pending, [i] is the active index, the
    index on display is [d], and [pendingIndex] is [i] (or null, once a
    fade-in timer of an earlier transition has cleared it). *)
Definition parked (i d : Z) (s : state) : Prop :=
  imageAt (images s) i = None
  /\ fadeOutTimer s = None
  /\ displayIndex s = d
  /\ activeIndex s = i
  /\ i <> d
  /\ (pendingIndex s = Some i \/ pendingIndex s = None).

Definition exampleImage (name : string) : image :=
  {| id := "gid://shopify/ProductImage/" +:+ name;
     url := "https://cdn.shopify.com/" +:+ name +:+ ".jpg";
     altText := None |}.

Definition imageA : image := exampleImage "a".
Definition imageB : image := exampleImage "b".
Definition imageC : image := exampleImage "c".

(** A product with two images after the sweep preloaded both and the second
    one arrived: at rest, the first image on display. *)
Definition sweptState : state :=
  {| baseImages := [imageA; imageB]; variantImage := None;
     activeIndex := 0; displayIndex := 0; pendingIndex := None;
     phase := idle; loadedImages := {[ url800 imageB ]};
     preloads := [url800 imageA]; sweepTimer := true;
     fadeOutTimer := None; fadeInTimers := 0 |}.

End Carousel.


(** ** Following a navigation URL *)

Module Navigation.
Import Paginator.

(** The location the router is at after a link to [u] was followed: the
    text [`${pathname}?${nextParams.toString()}`] parses back into the
    pathname and the parameter list it was built from. *)
Definition follow (u : href) : location :=
  {| pathname := path u; search := params u |}.

(** How many parameters of a query have the name [name]. *)
Definition paramCount (name : string) (l : URLSearchParams.t) : nat :=
  length (List.filter (fun p => String.eqb (fst p) name) l).

(** The value [JS.digitsValue] computes on the digits of [d], from [acc]. *)
Fixpoint uintValue (d : Decimal.uint) (acc : Z) : Z :=
  match d with
  | Decimal.Nil => acc
  | Decimal.D0 l => uintValue l (10 * acc + 0)
  | Decimal.D1 l => uintValue l (10 * acc + 1)
  | Decimal.D2 l => uintValue l (10 * acc + 2)
  | Decimal.D3 l => uintValue l (10 * acc + 3)
  | Decimal.D4 l => uintValue l (10 * acc + 4)
  | Decimal.D5 l => uintValue l (10 * acc + 5)
  | Decimal.D6 l => uintValue l (10 * acc + 6)
  | Decimal.D7 l => uintValue l (10 * acc + 7)
  | Decimal.D8 l => uintValue l (10 * acc + 8)
  | Decimal.D9 l => uintValue l (10 * acc + 9)
  end.

(** A chunk as the loader fetches it: at most [PAGE_SIZE * PAGES_PER_CHUNK]
    products ([pageBy] of [getPaginationVariables]). *)
Definition chunkSize : Z := PAGE_SIZE * PAGES_PER_CHUNK.

(** [Number] on a text with a fraction: [1.2] reads as the double nearest
    to 6/5, which is 5404319552844595 / 2^52. *)
Definition fractionLiteral (s : string) : JS.number :=
  if String.eqb s "1.2"
  then JS.Finite (5404319552844595 # 4503599627370496)
  else JS.NaN.

Definition sixtyItems : list nat := List.seq 0 60.

(** A URL that has a cursor and no direction. *)
Definition cursorOnly : location :=
  {| pathname := "/collections/all"; search := [("cursor", "abc")] |}.

End Navigation.


(** * The buttons of the carousel *)

Module Controls.

Import Carousel.

(** The argument the previous-image button hands to [switchTo]:
    [images.length ? (activeIndex - 1 + images.length) % images.length : 0]
    ([%] is the truncated remainder). *)
Definition previousIndex (st : state) : Z :=
  if (length (images st) =? 0)%nat then 0
  else Z.rem (activeIndex st - 1 + Z.of_nat (length (images st)))
         (Z.of_nat (length (images st))).

(** The argument of the next-image button:
    [images.length ? (activeIndex + 1) % images.length : 0]. *)
Definition nextIndex (st : state) : Z :=
  if (length (images st) =? 0)%nat then 0
  else Z.rem (activeIndex st + 1) (Z.of_nat (length (images st))).

End Controls.

(** * Traces of the carousel *)

Module Traces.

Import Carousel.

(** The event reports that the image at [u] finished loading. *)
Definition loads (u : string) (e : event) : bool :=
  match e with
  | PreloadLoaded x | MainImageLoaded x => String.eqb x u
  | _ => false
  end.

(** The state of affairs after [switchTo(i)] for an image whose 800px URL
    [u] is not loaded: [i] is the active index, [d] is on display, no
    fade-out timer is pending, and [pendingIndex] is [i] (or null, once a
    fade-in timer of an earlier transition has cleared it). *)
Definition waiting (i d : Z) (u : string) (s : state) : Prop :=
  (exists t, imageAt (images s) i = Some t /\ url800 t = u)
  /\ has u (loadedImages s) = false
  /\ fadeOutTimer s = None
  /\ displayIndex s = d
  /\ activeIndex s = i
  /\ i <> d
  /\ (pendingIndex s = Some i \/ pendingIndex s = None).

(** The 800px URLs the sweep finds not loaded, in the order of the image
    list. *)
Definition unloadedTargets (st : state) : list string :=
  List.filter (fun u => negb (has u (loadedImages st)))
    (targetUrls (images st)).

(** A pending sweep timer has something to preload. *)
Definition sweepOK (st : state) : Prop :=
  sweepTimer st = true -> unloadedTargets st <> [].

Definition isFadeOut (e : event) : bool :=
  match e with FadeOutTimer => true | _ => false end.

Definition isFadeIn (e : event) : bool :=
  match e with FadeInTimer => true | _ => false end.

End Traces.


(** * The recently-viewed list of the product page *)

Module RecentlyViewed.

Import Carousel.

Definition RECENTLY_VIEWED_MAX : nat := 12.

(** An item of the stored list. [handle] is [None] when the item has no
    handle that is a string. *)
Record entry : Type := {
  handle : option string;
  title : string;
  imageUrl : option string;
  imageAlt : string;
  price : option string;
  currencyCode : option string
}.

Record product : Type := {
  productHandle : string;
  productTitle : string
}.

Record money : Type := {
  amount : string;
  moneyCurrencyCode : string
}.

(** What [localStorage.getItem] holds under the key of the list: nothing
    (null or the empty string), a text [JSON.parse] rejects, a JSON value
    that is not an array, or an array, whose items are objects or null. *)
Inductive stored : Type :=
| Missing
| Unparsable
| NotArray
| Items (items : list (option entry)).

(** [value || null] on a string. *)
Definition nonEmpty (s : string) : option string :=
  if JS.truthy_string s then Some s else None.

(** The entry the effect builds for the product on show. *)
Definition makeEntry (p : product) (variantImage : option image)
    (images : list image) (variantPrice : option money) : entry :=
  let imageForCache :=
    match variantImage with
    | Some v => Some v
    | None => imageAt images 0
    end in
  {| handle := Some (productHandle p);
     title := productTitle p;
     imageUrl :=
       match imageForCache with
       | Some im => nonEmpty (url im)
       | None => None
       end;
     imageAlt :=
       match imageForCache with
       | Some im => JS.or_string (altText im) (productTitle p)
       | None => productTitle p
       end;
     price :=
       match variantPrice with
       | Some m => nonEmpty (amount m)
       | None => None
       end;
     currencyCode :=
       match variantPrice with
       | Some m => nonEmpty (moneyCurrencyCode m)
       | None => None
       end |}.

(** [item?.handle !== product.handle] *)
Definition otherHandle (h : string) (item : option entry) : bool :=
  match item with
  | Some e =>
      match handle e with
      | Some x => negb (String.eqb x h)
      | None => true
      end
  | None => true
  end.

(** [next.filter((item) => item.handle !== product.handle)]: reading the
    handle of a null item throws, which is [None] here. *)
Fixpoint withoutHandle (h : string) (l : list (option entry))
  : option (list entry) :=
  match l with
  | [] => Some []
  | None :: _ => None
  | Some e :: r =>
      match withoutHandle h r with
      | None => None
      | Some r' => Some (if otherHandle h (Some e) then e :: r' else r')
      end
  end.

(** What the effect leaves behind: the content of the storage, and the
    list it handed to [setRecentlyViewed] ([None]: the call was not
    reached). *)
Record outcome : Type := {
  storage : stored;
  shown : option (list entry)
}.

Definition itemsOf (s : stored) : list (option entry) :=
  match s with
  | Items l => l
  | _ => []
  end.

(** The effect, in a browser whose storage accepts the write. A text that
    does not parse throws before anything is written; the catch logs the
    error. *)
Definition recentlyViewedEffect (p : product) (variantImage : option image)
    (images : list image) (variantPrice : option money) (s : stored)
  : outcome :=
  let entry := makeEntry p variantImage images variantPrice in
  match s with
  | Unparsable => {| storage := s; shown := None |}
  | _ =>
      let filtered := List.filter (otherHandle (productHandle p)) (itemsOf s) in
      let next := take RECENTLY_VIEWED_MAX (Some entry :: filtered) in
      {| storage := Items next;
         shown := withoutHandle (productHandle p) next |}
  end.

(** *** Two example products *)

Definition laptop : product :=
  {| productHandle := "laptop"; productTitle := "Laptop" |}.

Definition phone : product :=
  {| productHandle := "phone"; productTitle := "Phone" |}.

(** The price of the selected variant of either. *)
Definition tenDollars : money :=
  {| amount := "10.0"; moneyCurrencyCode := "USD" |}.

End RecentlyViewed.


(** * The header menu *)

Module Menu.

(** A menu item of the Storefront API; an item without sub-items has the
    empty list. *)
#[local] Unset Elimination Schemes.

Inductive menuItem : Type :=
  MenuItem (id title type : string) (resourceId url : option string)
    (items : list (option menuItem)).

#[local] Set Elimination Schemes.

Definition id (item : menuItem) : string :=
  match item with MenuItem i _ _ _ _ _ => i end.

Definition title (item : menuItem) : string :=
  match item with MenuItem _ t _ _ _ _ => t end.

Definition type (item : menuItem) : string :=
  match item with MenuItem _ _ t _ _ _ => t end.

Definition resourceId (item : menuItem) : option string :=
  match item with MenuItem _ _ _ r _ _ => r end.

Definition url (item : menuItem) : option string :=
  match item with MenuItem _ _ _ _ u _ => u end.

Definition items (item : menuItem) : list (option menuItem) :=
  match item with MenuItem _ _ _ _ _ l => l end.

(** [menuCollectionAvailability]: collection id to whether the collection
    has products; a null object is the empty map. *)
Definition availability : Type := gmap string bool.

(** [item.type === 'COLLECTION' && item.resourceId] *)
Definition isCollection (item : menuItem) : bool :=
  String.eqb (type item) "COLLECTION" && JS.present (resourceId item).

(** [isCollection && collectionHasProducts === false] *)
Definition withoutProducts (av : availability) (item : menuItem) : bool :=
  isCollection item
  && match resourceId item with
     | Some r => bool_decide (av !! r = Some false)
     | None => false
     end.

(** The reduce over a list of items, for the function [f] that keeps or
    drops one item; null items are skipped. *)
Definition keep (f : menuItem -> option menuItem)
  : list (option menuItem) -> list menuItem :=
  fix go (l : list (option menuItem)) : list menuItem :=
    match l with
    | [] => []
    | None :: r => go r
    | Some item :: r =>
        match f item with
        | Some item' => item' :: go r
        | None => go r
        end
    end.

(** The body of the reducer for one item: [None] when [acc] is returned as
    it is, [Some] of the item pushed otherwise. *)
Fixpoint filterMenuItem (av : availability) (item : menuItem)
  : option menuItem :=
  match item with
  | MenuItem i t ty r u children =>
      let filteredChildren := keep (filterMenuItem av) children in
      if withoutProducts av item then None
      else if negb (JS.present u) && (length filteredChildren =? 0)%nat
      then None
      else Some (MenuItem i t ty r u (List.map Some filteredChildren))
  end.

Definition filterMenuItems (items : list (option menuItem))
    (menuCollectionAvailability : availability) : list menuItem :=
  keep (filterMenuItem menuCollectionAvailability) items.

(** [(item?.items ?? []).filter((child) =>
      Boolean(child?.url || child?.items?.length))] of [HeaderMenuItem] *)
Definition desktopChildren (item : menuItem) : list (option menuItem) :=
  List.filter
    (fun child =>
       match child with
       | Some c => JS.present (url c) || negb (length (items c) =? 0)%nat
       | None => false
       end)
    (items item).

(** [(item?.items ?? []).filter(Boolean)] of [HeaderMenuItemMobile] *)
Definition mobileChildren (item : menuItem) : list (option menuItem) :=
  List.filter
    (fun child => match child with Some _ => true | None => false end)
    (items item).

(** Whether [HeaderMenuItem] (or [HeaderMenuItemMobile], with its own
    children) renders the item: [!hasUrl && !hasChildren] returns null. *)
Definition rendered (children : list (option menuItem)) (item : menuItem)
  : bool :=
  JS.present (url item) || negb (length children =? 0)%nat.

(** [P] holds of the item and of every item below it. *)
Fixpoint everywhere (P : menuItem -> bool) (item : menuItem) : bool :=
  match item with
  | MenuItem _ _ _ _ _ children =>
      P item
      && forallb
           (fun child =>
              match child with
              | Some c => everywhere P c
              | None => true
              end)
           children
  end.

(** No null among the sub-items. *)
Definition noNull (item : menuItem) : bool :=
  forallb (fun child => match child with Some _ => true | None => false end)
    (items item).

(** What [filterMenuItems] lets through: an item that is not a collection
    without products, has a url or sub-items, and no null sub-item. *)
Definition passes (av : availability) (item : menuItem) : bool :=
  negb (withoutProducts av item)
  && (JS.present (url item) || negb (length (items item) =? 0)%nat)
  && noNull item.

(** *** An example menu *)

Definition shopLink : menuItem :=
  MenuItem "gid://shopify/MenuItem/1" "Shop" "HTTP" None
    (Some "/collections") [].

Definition saleCollection : menuItem :=
  MenuItem "gid://shopify/MenuItem/2" "Sale" "COLLECTION"
    (Some "gid://shopify/Collection/2") (Some "/collections/sale") [].

Definition exampleMenu : list (option menuItem) :=
  [Some shopLink; None; Some saleCollection].

(** The sale collection has no products. *)
Definition exampleAvailability : availability :=
  {[ "gid://shopify/Collection/2" := false ]}.

End Menu.


(** * The collection handles of the home page *)

Module Home.

Import Menu.

(** [handles.filter(...)] with the set [seen] the callback fills. *)
Fixpoint uniqueFrom (seen : gset string) (handles : list string)
  : list string :=
  match handles with
  | [] => []
  | handle :: rest =>
      if bool_decide (handle ∈ seen) then uniqueFrom seen rest
      else handle :: uniqueFrom ({[ handle ]} ∪ seen) rest
  end.

Definition getUniqueHandles (handles : list string) : list string :=
  uniqueFrom ∅ handles.

Section Platform.

(** The collection handle the URL parser and the pattern
    [/^\/collections\/([^/?#]+)/] find in a non-empty url; [None] when the
    url does not parse or its path does not match. *)
Variable collectionHandleOf : string -> option string.

Definition getCollectionHandleFromUrl (url : option string) : option string :=
  match url with
  | Some u => if JS.truthy_string u then collectionHandleOf u else None
  | None => None
  end.

(** [handles.push(handle)] for every item whose url has a handle. *)
Fixpoint getCollectionHandlesFromMenu (items : list (option menuItem))
  : list string :=
  match items with
  | [] => []
  | item :: rest =>
      match getCollectionHandleFromUrl
              (match item with Some i => url i | None => None end) with
      | Some handle =>
          if JS.truthy_string handle
          then handle :: getCollectionHandlesFromMenu rest
          else getCollectionHandlesFromMenu rest
      | None => getCollectionHandlesFromMenu rest
      end
  end.

(** [menuCollectionHandles] of the loader. *)
Definition menuCollectionHandles (items : list (option menuItem))
  : list string :=
  getUniqueHandles (getCollectionHandlesFromMenu items).

End Platform.

End Home.


(** * Properties of URLSearchParams *)

Section URLSearchParamsFacts.

Import URLSearchParams.

Lemma get_delete_same (k : string) (l : t) : get k (delete k l) = None.
Proof.
  induction l as [|[k' v] r IH]; simpl; [reflexivity|].
  destruct (String.eqb_spec k' k) as [->|Hne]; simpl; [exact IH|].
  destruct (String.eqb_spec k' k); [contradiction|exact IH].
Qed.

Lemma get_delete_other (k k' : string) (l : t) :
  k <> k' -> get k' (delete k l) = get k' l.
Proof.
  intros Hne. induction l as [|[k0 v] r IH]; simpl; [reflexivity|].
  destruct (String.eqb_spec k0 k) as [->|Hk0]; simpl.
  - destruct (String.eqb_spec k k'); [contradiction|exact IH].
  - destruct (String.eqb_spec k0 k'); [reflexivity|exact IH].
Qed.

Lemma get_set_same (k v : string) (l : t) : get k (set k v l) = Some v.
Proof.
  induction l as [|[k0 v0] r IH]; simpl.
  - now rewrite String.eqb_refl.
  - destruct (String.eqb_spec k0 k) as [->|Hk0]; simpl.
    + now rewrite String.eqb_refl.
    + destruct (String.eqb_spec k0 k); [contradiction|exact IH].
Qed.

Lemma get_set_other (k k' v : string) (l : t) :
  k <> k' -> get k' (set k v l) = get k' l.
Proof.
  intros Hne. induction l as [|[k0 v0] r IH]; simpl.
  - destruct (String.eqb_spec k k'); [contradiction|reflexivity].
  - destruct (String.eqb_spec k0 k) as [->|Hk0]; simpl.
    + destruct (String.eqb_spec k k'); [contradiction|].
      now apply get_delete_other.
    + destruct (String.eqb_spec k0 k'); [reflexivity|exact IH].
Qed.

Lemma filter_delete_other (P : string * string -> bool) (k : string) (l : t) :
  (forall v, P (k, v) = false) ->
  List.filter P (delete k l) = List.filter P l.
Proof.
  intros HP. induction l as [|[k0 v0] r IH]; simpl; [reflexivity|].
  destruct (String.eqb_spec k0 k) as [->|Hk0]; simpl.
  - now rewrite HP.
  - now rewrite IH.
Qed.

Lemma filter_set_other (P : string * string -> bool) (k v : string) (l : t) :
  (forall v, P (k, v) = false) ->
  List.filter P (set k v l) = List.filter P l.
Proof.
  intros HP. induction l as [|[k0 v0] r IH]; simpl.
  - now rewrite HP.
  - destruct (String.eqb_spec k0 k) as [->|Hk0]; simpl.
    + rewrite !HP. now apply filter_delete_other.
    + now rewrite IH.
Qed.

End URLSearchParamsFacts.

(** * Properties of the paginator *)

Section BuildPageUrlFacts.

Import JS Paginator.

Variable NumberToString : Q -> string.
Variable loc : location.

Lemma buildPageUrl_path (n : number) (c d : option string) :
  path (buildPageUrl NumberToString loc n c d) = pathname loc.
Proof. reflexivity. Qed.

Lemma buildPageUrl_otherParams (n : number) (c d : option string) :
  otherParams (params (buildPageUrl NumberToString loc n c d))
  = otherParams (search loc).
Proof.
  unfold buildPageUrl, otherParams; simpl.
  destruct c as [c|], d as [d|];
    try destruct (truthy_string c && truthy_string d);
    repeat first [ rewrite filter_set_other by (intros; reflexivity)
                 | rewrite filter_delete_other by (intros; reflexivity) ];
    reflexivity.
Qed.

Lemma buildPageUrl_page (n : number) (c d : option string) :
  URLSearchParams.get "page" (params (buildPageUrl NumberToString loc n c d))
  = Some (String_ NumberToString n).
Proof.
  unfold buildPageUrl; simpl.
  destruct c as [c|], d as [d|];
    try destruct (truthy_string c && truthy_string d);
    repeat first [ rewrite get_set_other by discriminate
                 | rewrite get_delete_other by discriminate ];
    apply get_set_same.
Qed.

(** With both a cursor and a direction that are non-empty, the URL carries
    exactly them. *)
Lemma buildPageUrl_cursor_set (n : number) (c d : string) :
  truthy_string c = true -> truthy_string d = true ->
  cursorParams (buildPageUrl NumberToString loc n (Some c) (Some d))
  = (Some c, Some d).
Proof.
  intros Hc Hd. unfold cursorParams, buildPageUrl; simpl.
  rewrite Hc, Hd; simpl.
  rewrite get_set_same, get_set_other by discriminate.
  now rewrite get_set_same.
Qed.

(** Otherwise it carries neither. *)
Lemma buildPageUrl_cursor_deleted (n : number) (c d : option string) :
  present c && present d = false ->
  cursorParams (buildPageUrl NumberToString loc n c d) = (None, None).
Proof.
  intros H. unfold cursorParams, buildPageUrl; simpl.
  assert (E : forall l : URLSearchParams.t,
             (URLSearchParams.get "cursor"
                (URLSearchParams.delete "direction"
                   (URLSearchParams.delete "cursor" l)),
              URLSearchParams.get "direction"
                (URLSearchParams.delete "direction"
                   (URLSearchParams.delete "cursor" l))) = (None, None)).
  { intros l. rewrite get_delete_other by discriminate.
    now rewrite !get_delete_same. }
  destruct c as [c|], d as [d|]; simpl in H; try apply E.
  rewrite H. apply E.
Qed.

Lemma buildPageUrlInChunk_cursor (n : number) :
  cursorParams (buildPageUrlInChunk NumberToString loc n) = chunkParams loc.
Proof.
  unfold buildPageUrlInChunk, chunkParams.
  destruct (chunkCursor loc) as [c|] eqn:Ec, (chunkDirection loc) as [d|] eqn:Ed;
    try (apply buildPageUrl_cursor_deleted; reflexivity).
  - destruct (truthy_string c && truthy_string d) eqn:E.
    + apply andb_prop in E as [Hc Hd]. now apply buildPageUrl_cursor_set.
    + now apply buildPageUrl_cursor_deleted.
  - apply buildPageUrl_cursor_deleted. simpl. apply andb_false_r.
Qed.

End BuildPageUrlFacts.

Lemma Qle_bool_false (p q : Q) : Qle_bool p q = false -> (q < p)%Q.
Proof.
  intros H. apply Qnot_le_lt. intros Hle. apply Qle_bool_iff in Hle. congruence.
Qed.

Lemma Qeq_bool_false (p q : Q) : Qeq_bool p q = false -> ~ (p == q)%Q.
Proof. intros H E. apply Qeq_bool_iff in E. congruence. Qed.

(** Case analysis on every rational comparison of the goal. *)
Ltac q_cases :=
  repeat match goal with |- _ =>
    match goal with
    | |- context [Qle_bool ?a ?b] =>
        let E := fresh "E" in
        destruct (Qle_bool a b) eqn:E;
        [apply Qle_bool_iff in E | apply Qle_bool_false in E]
    | |- context [Qeq_bool ?a ?b] =>
        let E := fresh "E" in
        destruct (Qeq_bool a b) eqn:E;
        [apply Qeq_bool_iff in E | apply Qeq_bool_false in E]
    end; cbn [JS.Math_min JS.Math_max negb]
  end.

Section NumberFacts.

Import JS.

(** ** Rounding *)

Lemma double_Qeq (p q : Q) : (p == q)%Q -> double p = double q.
Proof. intros H. unfold double. now rewrite (Qred_complete p q H). Qed.

Lemma Qred_inject_Z (z : Z) : Qred (inject_Z z) = inject_Z z.
Proof. apply Qcanon.Qred_identity. simpl. apply Z.gcd_1_r. Qed.

Lemma double_inject_Z (z : Z) : double (inject_Z z) = inject_Z z.
Proof. unfold double. rewrite Qred_inject_Z. reflexivity. Qed.

(** An integer value is kept. *)
Lemma double_integer (q : Q) (z : Z) :
  (q == inject_Z z)%Q -> double q = inject_Z z.
Proof. intros H. rewrite (double_Qeq _ _ H). apply double_inject_Z. Qed.

(** Rounding does not cross an integer up to 2^53. *)
Lemma double_between (q : Q) (K N : Z) :
  0 <= K -> N < 2 ^ 53 ->
  (inject_Z K <= q <= inject_Z N)%Q ->
  (inject_Z K <= double q <= inject_Z N)%Q.
Proof.
  intros HK HN [Hlo Hhi].
  pose proof (Qred_correct q) as Hr.
  rewrite <- Hr in Hlo, Hhi. unfold double.
  set (r := Qred q) in *. clearbody r. clear Hr q.
  destruct r as [n d]. cbn [Qnum Qden].
  destruct (Z.eqb_spec (Zpos d) 1) as [E|E]; [now split|].
  unfold Qle in Hlo, Hhi. cbn [Qnum Qden inject_Z] in Hlo, Hhi.
  rewrite Z.mul_1_r in Hlo, Hhi.
  assert (Hn : 0 <= n) by nia.
  destruct (Z.eq_dec n 0) as [->|Hn0].
  { cbn [Z.sgn]. rewrite !Z.mul_0_l.
    rewrite Qred_correct. unfold Qle; simpl. lia. }
  assert (Hpos : 0 < n) by lia.
  rewrite (Z.abs_eq n Hn), (Z.sgn_pos n Hpos), Z.mul_1_l.
  set (e0 := Z.log2 n - Z.log2 (Zpos d) - 52).
  set (e := if 2 ^ 52 <=? _ then e0 else e0 - 1).
  assert (He : e <= 0).
  { destruct (Z_le_gt_dec e 0) as [?|Hgt]; [assumption|exfalso].
    assert (Hlt : n < 2 ^ 53 * Zpos d) by nia.
    unfold e in Hgt.
    destruct (Z.leb_spec (2 ^ 52)
                (n * 2 ^ Z.max 0 (- e0) / (Zpos d * 2 ^ Z.max 0 e0)))
      as [Ht|Ht].
    - rewrite (Z.max_l 0 (- e0)), (Z.max_r 0 e0) in Ht by lia.
      rewrite Z.pow_0_r, Z.mul_1_r in Ht.
      assert (0 < 2 ^ e0) by (apply Z.pow_pos_nonneg; lia).
      assert (2 <= 2 ^ e0).
      { change 2 with (2 ^ 1) at 1. apply Z.pow_le_mono_r; lia. }
      assert (2 ^ 52 * (Zpos d * 2 ^ e0) <= n).
      { pose proof (Z.mul_div_le n (Zpos d * 2 ^ e0) ltac:(nia)). nia. }
      assert (2 ^ 53 = 2 ^ 52 * 2) by reflexivity. nia.
    - assert (He0 : 2 <= e0) by lia.
      destruct (Z.log2_spec n Hpos) as [Hl1 _].
      destruct (Z.log2_spec (Zpos d) ltac:(lia)) as [_ Hl2].
      assert (Hle : Z.log2 (Zpos d) + 54 <= Z.log2 n) by (unfold e0 in He0; lia).
      assert (0 <= Z.log2 (Zpos d)) by apply Z.log2_nonneg.
      assert (2 ^ (Z.log2 (Zpos d) + 54) <= 2 ^ Z.log2 n)
        by (apply Z.pow_le_mono_r; lia).
      rewrite Z.pow_add_r in H0 by lia.
      replace (Z.succ (Z.log2 (Zpos d))) with (Z.log2 (Zpos d) + 1) in Hl2
        by lia.
      rewrite Z.pow_add_r in Hl2 by lia.
      assert (2 ^ 54 = 2 ^ 53 * 2) by reflexivity.
      change (2 ^ 1) with 2 in Hl2. nia. }
  clearbody e. clear e0.
  rewrite (Z.max_r 0 (- e)), (Z.max_l 0 e) by lia.
  rewrite Z.pow_0_r, !Z.mul_1_r.
  set (k := 2 ^ (- e)).
  assert (Hk : 0 < k) by (apply Z.pow_pos_nonneg; lia).
  set (fl := n * k / Zpos d).
  set (rm := (n * k) mod Zpos d).
  assert (Hdiv : n * k = Zpos d * fl + rm) by (apply Z.div_mod; lia).
  assert (Hrm : 0 <= rm < Zpos d) by (apply Z.mod_pos_bound; lia).
  set (m := match 2 * rm ?= Zpos d with
            | Eq => if Z.even fl then fl else fl + 1
            | Lt => fl
            | Gt => fl + 1
            end).
  assert (Hm : fl <= m <= fl + 1 /\ (rm = 0 -> m = fl)).
  { unfold m. destruct (Z.compare_spec (2 * rm) (Zpos d)) as [H|H|H].
    - destruct (Z.even fl); split; try lia.
    - split; [lia|reflexivity].
    - split; [lia|]. intros ->. lia. }
  clearbody m. destruct Hm as [Hm1 Hm2].
  rewrite Qred_correct. unfold Qle. cbn [Qnum Qden inject_Z].
  rewrite Z2Pos.id by lia. rewrite !Z.mul_1_r.
  split.
  - assert (K * k <= fl); [|nia].
    apply Z.div_le_lower_bound; [lia|]. nia.
  - destruct (Z.eq_dec rm 0) as [H0|H0].
    + rewrite (Hm2 H0). assert (Zpos d * fl <= Zpos d * (N * k)) by nia. nia.
    + assert (Zpos d * fl < Zpos d * (N * k)) by nia.
      assert (fl < N * k) by nia. lia.
Qed.

Lemma add_ofZ (a b : Z) : add (ofZ a) (ofZ b) = ofZ (a + b).
Proof.
  unfold add, ofZ. f_equal. apply double_integer.
  now rewrite inject_Z_plus.
Qed.

Lemma sub_ofZ (a b : Z) : sub (ofZ a) (ofZ b) = ofZ (a - b).
Proof.
  unfold sub, neg, add, ofZ. f_equal. apply double_integer.
  unfold Z.sub. now rewrite inject_Z_plus, inject_Z_opp.
Qed.

Lemma mul_ofZ (a b : Z) : mul (ofZ a) (ofZ b) = ofZ (a * b).
Proof.
  unfold mul, ofZ. f_equal. apply double_integer.
  now rewrite inject_Z_mult.
Qed.

(** ** Clamping *)

Lemma or_number_not_NaN (a : number) (q : Q) : or_number a (Finite q) <> NaN.
Proof. unfold or_number. destruct a; simpl; try discriminate.
  destruct (negb (Qeq_bool q0 0)); discriminate. Qed.

Lemma inject_Z_ge_1 (n : Z) : 1 <= n -> (1 <= inject_Z n)%Q.
Proof. intros H. unfold Qle. simpl. lia. Qed.

(** [Math.min(Math.max(1, r), n)] for an integer [n >= 1] and [r] not NaN. *)
Lemma clamp_in_range (r : number) (n : Z) :
  r <> NaN -> 1 <= n ->
  exists q, Math_min (Math_max (ofZ 1) r) (ofZ n) = Finite q
            /\ (1 <= q <= inject_Z n)%Q.
Proof.
  intros Hr Hn. apply inject_Z_ge_1 in Hn.
  destruct r as [| | |q]; [contradiction| | |]; unfold ofZ; simpl;
    change (inject_Z 1) with 1%Q in *; q_cases;
    eexists; (split; [reflexivity|]); lra.
Qed.

End NumberFacts.

Section PaginatorFacts.

Import JS Paginator.

Variable StringToNumber : string -> number.
Variable NumberToString : Q -> string.
Variable pageSize : Z.
Variable loc : location.
Context {T : Type}.
Variable nodes : list T.
Variable info : pageInfo.

Lemma totalPages_ge_1 : 1 <= totalPages pageSize nodes.
Proof. unfold totalPages. lia. Qed.

Lemma requestedPage_not_NaN : requestedPage StringToNumber loc <> NaN.
Proof. apply or_number_not_NaN. Qed.

Lemma currentPage_finite :
  exists q, currentPage StringToNumber pageSize loc nodes = Finite q
            /\ (1 <= q <= inject_Z (totalPages pageSize nodes))%Q.
Proof.
  apply clamp_in_range; [apply requestedPage_not_NaN|apply totalPages_ge_1].
Qed.

(** C4: whatever the page parameter of the current URL reads as, the component
    computes (it is a total function: nothing is thrown) a current page that
    is a finite number between 1 and [totalPages]; a reading that is not a
    number, zero or negative gives page 1, and one beyond the range gives the
    last page. *)
Theorem C4_currentPage_in_range :
  (exists q, currentPage StringToNumber pageSize loc nodes = Finite q
             /\ (1 <= q <= inject_Z (totalPages pageSize nodes))%Q)
  /\ (malformedPage
        (Number StringToNumber
           (or_string (URLSearchParams.get "page" (search loc)) "1")) = true ->
      currentPage StringToNumber pageSize loc nodes = ofZ 1)
  /\ (lt (ofZ (totalPages pageSize nodes))
        (Number StringToNumber
           (or_string (URLSearchParams.get "page" (search loc)) "1")) = true ->
      currentPage StringToNumber pageSize loc nodes
      = ofZ (totalPages pageSize nodes)).
Proof.
  split; [apply currentPage_finite|].
  pose proof (inject_Z_ge_1 _ totalPages_ge_1) as Htp.
  unfold currentPage, requestedPage, searchParams.
  set (r := Number StringToNumber _). clearbody r.
  set (n := totalPages pageSize nodes) in *. clearbody n.
  split; intros H.
  - destruct r as [| | |q]; simpl in H; try discriminate;
      [| |apply Qle_bool_iff in H];
      unfold or_number, ofZ; simpl; change (inject_Z 1) with 1%Q in *;
      q_cases; try reflexivity; exfalso; lra.
  - destruct r as [| | |q]; simpl in H; try discriminate;
      [|apply negb_true_iff, Qle_bool_false in H];
      unfold or_number, ofZ; simpl; change (inject_Z 1) with 1%Q in *;
      q_cases; try reflexivity; exfalso; lra.
Qed.

Lemma nextUrl_built (u : href) :
  nextUrl StringToNumber NumberToString pageSize loc nodes info = Some u ->
  exists n c d, u = buildPageUrl NumberToString loc n c d.
Proof.
  unfold nextUrl, buildPageUrlInChunk.
  destruct (hasNextPageInChunk _ _ _ _);
    [|destruct (hasNextPage info && present (endCursor info))];
    intros H; inversion H; eauto.
Qed.

Lemma prevUrl_built (u : href) :
  prevUrl StringToNumber NumberToString pageSize loc nodes info = Some u ->
  exists n c d, u = buildPageUrl NumberToString loc n c d.
Proof.
  unfold prevUrl, buildPageUrlInChunk.
  destruct (hasPreviousPageInChunk _ _ _ _);
    [|destruct (hasPreviousPage info && present (startCursor info))];
    intros H; inversion H; eauto.
Qed.

Lemma pageEntries_built (e : pageEntry) :
  In e (pageEntries StringToNumber NumberToString pageSize loc nodes) ->
  exists n, pageUrl e = buildPageUrlInChunk NumberToString loc n.
Proof.
  unfold pageEntries. intros H. apply in_map_iff in H as (i & <- & _).
  simpl. eauto.
Qed.

(** C9: every navigation URL the component builds (next, previous, and each
    page-number entry) has the pathname of the current location, and its
    parameters other than page, cursor and direction are those of the current
    URL, in the same order and with the same values. *)
Theorem C9_navigation_keeps_other_params (u : href) :
  nextUrl StringToNumber NumberToString pageSize loc nodes info = Some u
  \/ prevUrl StringToNumber NumberToString pageSize loc nodes info = Some u
  \/ (exists e,
        In e (pageEntries StringToNumber NumberToString pageSize loc nodes)
        /\ pageUrl e = u) ->
  path u = pathname loc
  /\ otherParams (params u) = otherParams (search loc).
Proof.
  intros [H|[H|(e & He & <-)]].
  - apply nextUrl_built in H as (n & c & d & ->).
    split; [apply buildPageUrl_path|apply buildPageUrl_otherParams].
  - apply prevUrl_built in H as (n & c & d & ->).
    split; [apply buildPageUrl_path|apply buildPageUrl_otherParams].
  - apply pageEntries_built in He as (n & ->). unfold buildPageUrlInChunk.
    split; [apply buildPageUrl_path|apply buildPageUrl_otherParams].
Qed.

Lemma target_cross_chunk (n : number) (c d : string) :
  truthy_string c = true -> truthy_string d = true ->
  target (buildPageUrl NumberToString loc n (Some c) (Some d))
  = (Some (String_ NumberToString n), Some c, Some d).
Proof.
  intros Hc Hd. unfold target.
  rewrite buildPageUrl_page.
  pose proof (buildPageUrl_cursor_set NumberToString loc n c d Hc Hd) as E.
  unfold cursorParams in E. injection E as E1 E2.
  repeat f_equal; assumption.
Qed.

(** C5: on the last page of the chunk the next target is page 1 with the end
    cursor and direction next when [hasNextPage] holds and the end cursor is
    a non-empty string, and there is none otherwise; on the first page the
    previous target is page [PAGES_PER_CHUNK], which is 4, with the start
    cursor and direction previous when [hasPreviousPage] holds and the start
    cursor is a non-empty string, and there is none otherwise. *)
Theorem C5_cross_chunk_targets :
  PAGES_PER_CHUNK = 4
  /\ (strict_eq (currentPage StringToNumber pageSize loc nodes)
        (ofZ (totalPages pageSize nodes)) = true ->
      option_map target
        (nextUrl StringToNumber NumberToString pageSize loc nodes info)
      = match endCursor info with
        | Some c =>
            if hasNextPage info && truthy_string c
            then Some (Some "1", Some c, Some "next")
            else None
        | None => None
        end)
  /\ (strict_eq (currentPage StringToNumber pageSize loc nodes) (ofZ 1) = true ->
      option_map target
        (prevUrl StringToNumber NumberToString pageSize loc nodes info)
      = match startCursor info with
        | Some c =>
            if hasPreviousPage info && truthy_string c
            then Some (Some "4", Some c, Some "previous")
            else None
        | None => None
        end).
Proof.
  split; [reflexivity|].
  destruct currentPage_finite as (q & Eq & Hq).
  split; intros H.
  - unfold nextUrl, hasNextPageInChunk. rewrite Eq in *. simpl in H |- *.
    rewrite Qeq_bool_iff in H.
    assert (E : Qle_bool (inject_Z (totalPages pageSize nodes)) q = true).
    { apply Qle_bool_iff. lra. }
    rewrite E. simpl.
    destruct (endCursor info) as [c|]; simpl; [|now rewrite andb_false_r].
    destruct (hasNextPage info); simpl; [|reflexivity].
    destruct (truthy_string c) eqn:Hc; simpl; [|reflexivity].
    now rewrite target_cross_chunk.
  - unfold prevUrl, hasPreviousPageInChunk. rewrite Eq in *. simpl in H |- *.
    rewrite Qeq_bool_iff in H.
    assert (E : Qle_bool q (inject_Z 1) = true).
    { apply Qle_bool_iff. change (inject_Z 1) with 1%Q in *. lra. }
    rewrite E. simpl.
    destruct (startCursor info) as [c|]; simpl; [|now rewrite andb_false_r].
    destruct (hasPreviousPage info); simpl; [|reflexivity].
    destruct (truthy_string c) eqn:Hc; simpl; [|reflexivity].
    now rewrite target_cross_chunk.
Qed.

(** C1 (amended): a link that stays inside the chunk on display (the next
    link while the current page is not the last, and every page-number
    entry) carries the cursor and the direction of the current URL when that
    URL has both with non-empty values, and carries neither otherwise; so on
    a first chunk, whose URL has no cursor, these links have none. *)
Theorem C1_in_chunk_links_keep_chunk_cursor :
  (hasNextPageInChunk StringToNumber pageSize loc nodes = true ->
   exists u,
     nextUrl StringToNumber NumberToString pageSize loc nodes info = Some u
     /\ cursorParams u = chunkParams loc)
  /\ (forall e,
        In e (pageEntries StringToNumber NumberToString pageSize loc nodes) ->
        cursorParams (pageUrl e) = chunkParams loc)
  /\ (URLSearchParams.get "cursor" (search loc) = None ->
      chunkParams loc = (None, None)).
Proof.
  split; [|split].
  - intros H. unfold nextUrl. rewrite H. eexists. split; [reflexivity|].
    apply buildPageUrlInChunk_cursor.
  - intros e He. apply pageEntries_built in He as (n & ->).
    apply buildPageUrlInChunk_cursor.
  - intros H. unfold chunkParams, chunkCursor, searchParams. now rewrite H.
Qed.

End PaginatorFacts.

Section PageWindow.

Import JS Paginator.

Context {T : Type}.
Variable pageSize : Z.
Variable nodes : list T.
Hypothesis pageSize_pos : 0 < pageSize.

Lemma Qceiling_div (n : Z) :
  Qceiling (inject_Z n / inject_Z pageSize) = - ((- n) / pageSize).
Proof.
  destruct pageSize as [|p|p]; try lia.
  unfold Qceiling, Qdiv, Qmult, Qinv, Qopp, inject_Z, Qfloor; simpl.
  rewrite Z.mul_1_r. reflexivity.
Qed.

(** [totalPages] pages are enough to hold every item, and one page fewer
    would not be (unless there is no item at all). *)
Lemma totalPages_bounds :
  let n := Z.of_nat (length nodes) in
  let tp := totalPages pageSize nodes in
  n <= tp * pageSize /\ (1 < tp -> (tp - 1) * pageSize < n).
Proof.
  unfold totalPages. rewrite Qceiling_div.
  set (n := Z.of_nat (length nodes)).
  assert (Hn : 0 <= n) by (unfold n; lia).
  pose proof (Z.mul_div_le (- n) pageSize pageSize_pos) as H1.
  pose proof (Z.mul_succ_div_gt (- n) pageSize pageSize_pos) as H2.
  simpl. split; [|intros Htp]; nia.
Qed.

(** The window of the integer page [p] is the [p]-th block of [pageSize]
    items. *)
Lemma page_block (p : Z) :
  1 <= p ->
  page pageSize nodes p
  = take (Z.to_nat pageSize) (drop (Z.to_nat ((p - 1) * pageSize)) nodes).
Proof.
  intros Hp. unfold page. rewrite sub_ofZ, mul_ofZ, add_ofZ.
  unfold slice, relativeIndex, truncate, ofZ, inject_Z; simpl.
  rewrite !Z.quot_1_r.
  set (a := (p - 1) * pageSize).
  assert (Ha : 0 <= a) by (unfold a; nia).
  set (len := Z.of_nat (length nodes)).
  destruct (Z.ltb_spec a 0) as [?|_]; [lia|].
  destruct (Z.ltb_spec (a + pageSize) 0) as [?|_]; [lia|].
  destruct (Z.le_gt_cases len a) as [Hge|Hlt].
  - rewrite (drop_ge nodes (Z.to_nat a)) by (unfold len in Hge; lia).
    rewrite (drop_ge nodes (Z.to_nat (Z.min a len))) by (unfold len in *; lia).
    now rewrite !take_nil.
  - replace (Z.min a len) with a by lia.
    destruct (Z.le_gt_cases (a + pageSize) len) as [Hfull|Hshort].
    + f_equal. lia.
    + rewrite !take_ge; [reflexivity| |]; rewrite length_drop;
        unfold len in *; lia.
Qed.

Lemma concat_blocks (m k : nat) :
  List.concat
    (List.map (fun i : nat => take m (drop (i * m) nodes)) (List.seq 0 k))
  = take (k * m) nodes.
Proof.
  induction k as [|k IH]; [reflexivity|].
  rewrite seq_S, List.map_app, List.concat_app, IH. simpl.
  rewrite app_nil_r, take_take_drop. f_equal. lia.
Qed.

(** Once the current page is the integer [p], the nodes on display are the
    window of page [p]. *)
Lemma visibleNodes_page (StringToNumber : string -> number) (loc : location)
    (p : Z) :
  currentPage StringToNumber pageSize loc nodes = ofZ p ->
  visibleNodes StringToNumber pageSize loc nodes = page pageSize nodes p.
Proof.
  intros H. unfold visibleNodes, endIndex, startIndex, page. now rewrite H.
Qed.

(** C3: for a positive page size, take one location for each page 1 to
    [totalPages], the current page there being that page: the nodes on
    display at these locations, one after the other, are the item list
    itself, so their lengths add up to its length; and at every page before
    the last exactly [pageSize] nodes are on display. *)
Theorem C3_pages_partition_items (StringToNumber : string -> number)
    (atPage : Z -> location) :
  (forall p : Z,
     1 <= p <= totalPages pageSize nodes ->
     currentPage StringToNumber pageSize (atPage p) nodes = ofZ p) ->
  List.concat
    (List.map
       (fun index : nat =>
          visibleNodes StringToNumber pageSize (atPage (Z.of_nat index + 1))
            nodes)
       (List.seq 0 (Z.to_nat (totalPages pageSize nodes))))
  = nodes
  /\ list_sum
       (List.map
          (fun index : nat =>
             length
               (visibleNodes StringToNumber pageSize
                  (atPage (Z.of_nat index + 1)) nodes))
          (List.seq 0 (Z.to_nat (totalPages pageSize nodes))))
     = length nodes
  /\ (forall p : Z,
        1 <= p < totalPages pageSize nodes ->
        Z.of_nat
          (length (visibleNodes StringToNumber pageSize (atPage p) nodes))
        = pageSize).
Proof.
  intros Hat.
  destruct totalPages_bounds as [Hall Hlast].
  assert (Hvis : forall p : Z,
            1 <= p <= totalPages pageSize nodes ->
            visibleNodes StringToNumber pageSize (atPage p) nodes
            = take (Z.to_nat pageSize)
                (drop (Z.to_nat ((p - 1) * pageSize)) nodes)).
  { intros p Hp.
    rewrite (visibleNodes_page StringToNumber (atPage p) p (Hat p Hp)).
    apply page_block. lia. }
  assert (Hcat :
    List.concat
      (List.map
         (fun index : nat =>
            visibleNodes StringToNumber pageSize
              (atPage (Z.of_nat index + 1)) nodes)
         (List.seq 0 (Z.to_nat (totalPages pageSize nodes))))
    = nodes).
  { rewrite (List.map_ext_in _
      (fun i : nat => take (Z.to_nat pageSize) (drop (i * Z.to_nat pageSize) nodes))).
    - rewrite concat_blocks. apply take_ge. nia.
    - intros i Hi. apply in_seq in Hi. rewrite Hvis by lia.
      do 2 f_equal. nia. }
  split; [exact Hcat|]. split.
  - apply (f_equal (@length T)) in Hcat.
    now rewrite length_concat, List.map_map in Hcat.
  - intros p Hp. rewrite Hvis by lia.
    rewrite length_take_le; [lia|]. rewrite length_drop.
    assert ((totalPages pageSize nodes - 1) * pageSize
            < Z.of_nat (length nodes)) by (apply Hlast; lia).
    nia.
Qed.

End PageWindow.

(** * Properties of the image carousel *)

(** Case analysis over the branches of the effects of one render. *)
Ltac effect_cases :=
  unfold Carousel.runEffects, Carousel.variantEffect, Carousel.sweepEffect,
    Carousel.transitionEffect;
  repeat case_match; simpl in *; try congruence; try reflexivity.

Section RenderFacts.

Import Carousel.

Lemma setFadeOutTimer_id (st : state) :
  fadeOutTimer st = None -> setFadeOutTimer None st = st.
Proof. destruct st; simpl; intros ->; reflexivity. Qed.

Lemma setLoadedImages_id (st : state) :
  setLoadedImages (loadedImages st) st = st.
Proof. now destruct st. Qed.

Lemma stateChanges_refl (st : state) : noChange (stateChanges st st) = true.
Proof.
  unfold noChange, stateChanges; simpl.
  now rewrite !bool_decide_eq_true_2.
Qed.

(** No effect touches the props, the loaded set, the preloaders in flight
    or the fade-in timers. *)
Lemma runEffects_baseImages (c : changes) (r : state) :
  baseImages (runEffects c r) = baseImages r.
Proof. effect_cases. Qed.

Lemma runEffects_variantImage (c : changes) (r : state) :
  variantImage (runEffects c r) = variantImage r.
Proof. effect_cases. Qed.

Lemma runEffects_loadedImages (c : changes) (r : state) :
  loadedImages (runEffects c r) = loadedImages r.
Proof. effect_cases. Qed.

Lemma runEffects_preloads (c : changes) (r : state) :
  preloads (runEffects c r) = preloads r.
Proof. effect_cases. Qed.

Lemma runEffects_fadeInTimers (c : changes) (r : state) :
  fadeInTimers (runEffects c r) = fadeInTimers r.
Proof. effect_cases. Qed.

Lemma runEffects_images (c : changes) (r : state) :
  images (runEffects c r) = images r.
Proof.
  unfold images. now rewrite runEffects_baseImages, runEffects_variantImage.
Qed.

(** Without the variant effect, a render changes neither index shown. *)
Lemma runEffects_displayIndex (c : changes) (r : state) :
  variantIdChanged c = false -> imagesChanged c = false ->
  displayIndex (runEffects c r) = displayIndex r.
Proof. intros Hv Hi. unfold runEffects. rewrite Hv, Hi. effect_cases. Qed.

Lemma runEffects_activeIndex (c : changes) (r : state) :
  variantIdChanged c = false -> imagesChanged c = false ->
  activeIndex (runEffects c r) = activeIndex r.
Proof. intros Hv Hi. unfold runEffects. rewrite Hv, Hi. effect_cases. Qed.

(** ... and if it changes [pendingIndex], that is the transition effect
    clearing it, which leaves no timer behind. *)
Lemma runEffects_pending_cleared (c : changes) (r : state) :
  variantIdChanged c = false -> imagesChanged c = false ->
  pendingIndex (runEffects c r) <> pendingIndex r ->
  pendingIndex (runEffects c r) = None /\ fadeOutTimer (runEffects c r) = None.
Proof.
  intros Hv Hi. unfold runEffects. rewrite Hv, Hi.
  effect_cases; intros; (contradiction || (split; reflexivity)).
Qed.

(** The transition effect has nothing to do once [pendingIndex] is null and
    no timer is pending. *)
Lemma transitionEffect_idle (r : state) :
  pendingIndex r = None -> fadeOutTimer r = None -> transitionEffect r r = r.
Proof.
  intros Hp Ht. unfold transitionEffect. rewrite Hp.
  now apply setFadeOutTimer_id.
Qed.

(** A second round of effects after a round of the kind above changes
    nothing. *)
Lemma second_round (r r1 : state) :
  displayIndex r1 = displayIndex r ->
  loadedImages r1 = loadedImages r ->
  (pendingIndex r1 <> pendingIndex r ->
   pendingIndex r1 = None /\ fadeOutTimer r1 = None) ->
  runEffects (stateChanges r r1) r1 = r1.
Proof.
  intros D L P. unfold runEffects, stateChanges; simpl.
  rewrite D, L, !(bool_decide_eq_true_2 _ eq_refl); simpl.
  destruct (decide (pendingIndex r = pendingIndex r1)) as [E|N].
  - now rewrite (bool_decide_eq_true_2 _ E).
  - rewrite (bool_decide_eq_false_2 _ N); simpl.
    destruct P as [Hp Ht]; [congruence|]. now apply transitionEffect_idle.
Qed.

(** A render whose changes come from state updates alone settles after its
    effects ran once. *)
Lemma settle_stateChanges (n : nat) (c : changes) (r : state) :
  variantIdChanged c = false -> imagesChanged c = false ->
  settle (S (S n)) c r = if noChange c then r else runEffects c r.
Proof.
  intros Hv Hi. cbn [settle]. destruct (noChange c) eqn:Hc; [reflexivity|].
  destruct (noChange (stateChanges r (runEffects c r))) eqn:Hc1;
    [reflexivity|].
  rewrite second_round.
  - destruct n; [reflexivity|]. cbn [settle]. now rewrite stateChanges_refl.
  - now apply runEffects_displayIndex.
  - apply runEffects_loadedImages.
  - now apply runEffects_pending_cleared.
Qed.

(** Three renders are always enough: [settle] with more fuel does what the
    first two rounds of effects do. *)
Lemma settle_fuel (n : nat) (c : changes) (r : state) :
  settle (S (S (S n))) c r
  = if noChange c then r
    else
      let r1 := runEffects c r in
      if noChange (stateChanges r r1) then r1
      else runEffects (stateChanges r r1) r1.
Proof.
  change (settle (S (S (S n))) c r)
    with (if noChange c then r
          else settle (S (S n)) (stateChanges r (runEffects c r))
                 (runEffects c r)).
  destruct (noChange c); [reflexivity|].
  now rewrite settle_stateChanges.
Qed.

(** After a handler or a callback, one round of effects settles the
    component. *)
Lemma rerender_once (old new : state) :
  rerender old new
  = if noChange (stateChanges old new) then new
    else runEffects (stateChanges old new) new.
Proof. unfold rerender, renders. now apply settle_stateChanges. Qed.

End RenderFacts.

Section InvariantFacts.

Import Carousel.

Lemma loadedAt_ext (a b : state) (p : Z) :
  images a = images b -> loadedImages a = loadedImages b ->
  loadedAt a p = loadedAt b p.
Proof. unfold loadedAt. now intros -> ->. Qed.

Lemma imageAt_Some_range (l : list image) (p : Z) (im : image) :
  imageAt l p = Some im -> 0 <= p < Z.of_nat (length l).
Proof.
  unfold imageAt. destruct (Z.ltb_spec p 0) as [Hneg|Hpos]; [discriminate|].
  intros H. apply lookup_lt_Some in H. lia.
Qed.

Lemma loadedAt_range (st : state) (p : Z) :
  loadedAt st p = true -> 0 <= p < Z.of_nat (length (images st)).
Proof.
  unfold loadedAt. destruct (imageAt (images st) p) eqn:E; [|discriminate].
  intros _. now apply imageAt_Some_range in E.
Qed.

Lemma findIndexFrom_range (f : image -> bool) (l : list image) (k : Z) :
  0 <= k -> 0 <= findIndexFrom f l k ->
  k <= findIndexFrom f l k < k + Z.of_nat (length l).
Proof.
  revert k. induction l as [|x l IH]; simpl; intros k Hk H; [lia|].
  destruct (f x); [lia|]. specialize (IH (k + 1)). lia.
Qed.

Lemma findIndex_range (f : image -> bool) (l : list image) :
  0 <= findIndex f l -> findIndex f l < Z.of_nat (length l).
Proof.
  intros H. pose proof (findIndexFrom_range f l 0). unfold findIndex in *. lia.
Qed.

(** A round of effects in which the transition effect runs, or one that
    starts from a consistent timer, ends with a timer that is consistent
    with the state the round started from. *)
Lemma runEffects_timer (c : changes) (r : state) (p : Z) :
  pendingChanged c || displayChanged c || loadedChanged c || imagesChanged c
    = true
  \/ timerOK r ->
  fadeOutTimer (runEffects c r) = Some p ->
  pendingIndex r = Some p /\ loadedAt r p = true.
Proof.
  intros H. unfold runEffects.
  destruct (pendingChanged c || displayChanged c || loadedChanged c
            || imagesChanged c) eqn:E4.
  - unfold transitionEffect, loadedAt.
    repeat case_match; simpl; try discriminate; intros [= <-];
      split; congruence.
  - destruct H as [?|H]; [discriminate|].
    intros Ht. apply H. revert Ht. effect_cases.
Qed.

(** A round of effects after state updates alone, if it runs at all, runs
    the transition effect, and its timer is consistent. *)
Lemma runEffects_timerOK (c : changes) (r : state) :
  variantIdChanged c = false -> imagesChanged c = false ->
  noChange c = false \/ timerOK r ->
  timerOK (runEffects c r).
Proof.
  intros Hv Hi H p Hp.
  assert (H' : pendingChanged c || displayChanged c || loadedChanged c
               || imagesChanged c = true \/ timerOK r).
  { destruct H as [H|H]; [left|now right].
    unfold noChange in H. rewrite Hv, Hi in *.
    destruct (pendingChanged c), (displayChanged c), (loadedChanged c);
      simpl in *; congruence. }
  destruct (runEffects_timer c r p H' Hp) as [Hpend Hload].
  split.
  - destruct (decide (pendingIndex (runEffects c r) = pendingIndex r))
      as [->|N]; [exact Hpend|].
    destruct (runEffects_pending_cleared c r Hv Hi N) as [_ Ht]. congruence.
  - rewrite <- Hload. apply loadedAt_ext;
      [apply runEffects_images|apply runEffects_loadedImages].
Qed.

Lemma settle_timerOK (c : changes) (r : state) :
  pendingChanged c || displayChanged c || loadedChanged c || imagesChanged c
    = true
  \/ timerOK r ->
  timerOK (settle renders c r).
Proof.
  intros H. unfold renders. rewrite settle_fuel.
  destruct (noChange c) eqn:Hc.
  - destruct H as [H|H]; [|exact H]. unfold noChange in Hc.
    destruct (pendingChanged c), (displayChanged c), (loadedChanged c),
      (imagesChanged c), (variantIdChanged c); simpl in *; congruence.
  - cbv zeta.
    destruct (noChange (stateChanges r (runEffects c r))) eqn:Hc1.
    + intros p Hp. destruct (runEffects_timer c r p H Hp) as [Hpend Hload].
      unfold noChange, stateChanges in Hc1; simpl in Hc1.
      apply negb_true_iff in Hc1.
      destruct (bool_decide_reflect (pendingIndex r = pendingIndex (runEffects c r)))
        as [E|]; [|simpl in Hc1; discriminate].
      split; [congruence|]. rewrite <- Hload.
      apply loadedAt_ext;
        [apply runEffects_images|apply runEffects_loadedImages].
    + apply runEffects_timerOK; [reflexivity|reflexivity|now left].
Qed.

Lemma runEffects_displayOK (c : changes) (r : state) :
  0 <= displayIndex r ->
  variantIdChanged c || imagesChanged c = true \/ displayOK r ->
  displayOK (runEffects c r).
Proof.
  intros H0 H. unfold displayOK. rewrite runEffects_images.
  destruct (variantIdChanged c || imagesChanged c) eqn:E1.
  - unfold runEffects. rewrite E1.
    assert (D : forall acc,
               displayIndex
                 (if pendingChanged c || displayChanged c || loadedChanged c
                     || imagesChanged c
                  then transitionEffect r
                         (if imagesChanged c || loadedChanged c
                          then sweepEffect r acc else acc)
                  else if imagesChanged c || loadedChanged c
                       then sweepEffect r acc else acc)
               = displayIndex acc) by (intros; effect_cases).
    rewrite D. unfold variantEffect.
    destruct (variantImage r) as [v|] eqn:Ev.
    + destruct (Z.leb_spec 0 (findIndex (fun image => sameId image v) (images r)))
        as [Hm|Hm]; simpl.
      * split; [exact Hm|]. intros _. now apply findIndex_range.
      * destruct (Nat.eqb_spec (length (images r)) 0) as [Hl|Hl]; simpl.
        -- split; [exact H0|]. intros Hne. destruct (images r); [congruence|].
           discriminate.
        -- destruct (Z.leb_spec (Z.of_nat (length (images r))) (displayIndex r));
             simpl; lia.
    + destruct (Nat.eqb_spec (length (images r)) 0) as [Hl|Hl]; simpl.
      * split; [exact H0|]. intros Hne. destruct (images r); [congruence|].
        discriminate.
      * destruct (Z.leb_spec (Z.of_nat (length (images r))) (displayIndex r));
          simpl; lia.
  - destruct H as [?|H]; [discriminate|].
    apply orb_false_elim in E1 as [Ev Ei].
    now rewrite runEffects_displayIndex.
Qed.

Lemma settle_displayOK (c : changes) (r : state) :
  0 <= displayIndex r ->
  variantIdChanged c || imagesChanged c = true \/ displayOK r ->
  displayOK (settle renders c r).
Proof.
  intros H0 H. unfold renders. rewrite settle_fuel.
  destruct (noChange c) eqn:Hc.
  - destruct H as [H|H]; [|exact H]. unfold noChange in Hc.
    destruct (variantIdChanged c), (imagesChanged c); simpl in *; congruence.
  - cbv zeta. pose proof (runEffects_displayOK c r H0 H) as D.
    destruct (noChange (stateChanges r (runEffects c r))); [exact D|].
    apply runEffects_displayOK; [apply D|now right].
Qed.

End InvariantFacts.

Section StepFacts.

Import Carousel.

(** What a re-render leaves as the handler or callback set it. *)
Lemma rerender_frame (old new : state) :
  baseImages (rerender old new) = baseImages new
  /\ variantImage (rerender old new) = variantImage new
  /\ loadedImages (rerender old new) = loadedImages new
  /\ preloads (rerender old new) = preloads new
  /\ fadeInTimers (rerender old new) = fadeInTimers new
  /\ displayIndex (rerender old new) = displayIndex new
  /\ activeIndex (rerender old new) = activeIndex new.
Proof.
  rewrite rerender_once. destruct (noChange (stateChanges old new)).
  - repeat split.
  - rewrite runEffects_baseImages, runEffects_variantImage,
      runEffects_loadedImages, runEffects_preloads, runEffects_fadeInTimers,
      runEffects_displayIndex, runEffects_activeIndex by reflexivity.
    repeat split.
Qed.

Lemma rerender_images (old new : state) :
  images (rerender old new) = images new.
Proof.
  destruct (rerender_frame old new) as (Hb & Hv & _).
  unfold images. now rewrite Hb, Hv.
Qed.

Lemma rerender_timerOK (old new : state) :
  (noChange (stateChanges old new) = true -> timerOK new) ->
  timerOK (rerender old new).
Proof.
  intros H. rewrite rerender_once.
  destruct (noChange (stateChanges old new)) eqn:E; [now apply H|].
  apply runEffects_timerOK; [reflexivity|reflexivity|now left].
Qed.

Lemma rerender_displayOK (old new : state) :
  displayOK new -> displayOK (rerender old new).
Proof.
  unfold displayOK. rewrite rerender_images.
  destruct (rerender_frame old new) as (_ & _ & _ & _ & _ & -> & _).
  trivial.
Qed.

(** Unchanged dependencies, read off [noChange]. *)
Lemma noChange_stateChanges (old new : state) :
  noChange (stateChanges old new) = true ->
  pendingIndex old = pendingIndex new
  /\ displayIndex old = displayIndex new
  /\ loadedImages old = loadedImages new.
Proof.
  unfold noChange, stateChanges; simpl. intros H.
  apply negb_true_iff in H.
  repeat (apply orb_false_elim in H as [H ?]).
  repeat match goal with
         | H : negb (bool_decide _) = false |- _ =>
             apply negb_false_iff, bool_decide_eq_true in H
         end.
  auto.
Qed.

(** *** The handlers and callbacks *)

Lemma switchTo_frame (index : Z) (st : state) :
  baseImages (switchTo index st) = baseImages st
  /\ variantImage (switchTo index st) = variantImage st
  /\ loadedImages (switchTo index st) = loadedImages st
  /\ displayIndex (switchTo index st) = displayIndex st
  /\ phase (switchTo index st) = phase st
  /\ fadeOutTimer (switchTo index st) = fadeOutTimer st
  /\ fadeInTimers (switchTo index st) = fadeInTimers st.
Proof.
  unfold switchTo, preloadImage. repeat case_match; simpl; repeat split.
Qed.

Lemma addLoaded_subseteq (u : string) (s : gset string) : s ⊆ addLoaded u s.
Proof. unfold addLoaded. case_match; set_solver. Qed.

Lemma markLoaded_frame (u : string) (st : state) :
  baseImages (markLoaded u st) = baseImages st
  /\ variantImage (markLoaded u st) = variantImage st
  /\ activeIndex (markLoaded u st) = activeIndex st
  /\ displayIndex (markLoaded u st) = displayIndex st
  /\ pendingIndex (markLoaded u st) = pendingIndex st
  /\ phase (markLoaded u st) = phase st
  /\ preloads (markLoaded u st) = preloads st
  /\ fadeOutTimer (markLoaded u st) = fadeOutTimer st
  /\ fadeInTimers (markLoaded u st) = fadeInTimers st
  /\ loadedImages st ⊆ loadedImages (markLoaded u st).
Proof.
  unfold markLoaded. case_match; simpl; repeat split;
    try reflexivity; try apply addLoaded_subseteq.
Qed.

Lemma preloadImage_exceptPreloads (u : string) (st : state) :
  exceptPreloads (preloadImage u st) = exceptPreloads st.
Proof. unfold preloadImage. now case_match. Qed.

Lemma sweep_exceptPreloads (st : state) :
  exceptPreloads (sweep st) = exceptPreloads st.
Proof.
  unfold sweep. generalize (loadedImages st) as s.
  generalize (images st) as l. intros l s. revert st.
  induction l as [|im l IH]; intros st; simpl; [reflexivity|].
  rewrite IH. repeat case_match; try reflexivity.
  apply preloadImage_exceptPreloads.
Qed.

Lemma sweep_frame (st : state) :
  baseImages (sweep st) = baseImages st
  /\ variantImage (sweep st) = variantImage st
  /\ activeIndex (sweep st) = activeIndex st
  /\ displayIndex (sweep st) = displayIndex st
  /\ pendingIndex (sweep st) = pendingIndex st
  /\ phase (sweep st) = phase st
  /\ loadedImages (sweep st) = loadedImages st
  /\ sweepTimer (sweep st) = sweepTimer st
  /\ fadeOutTimer (sweep st) = fadeOutTimer st
  /\ fadeInTimers (sweep st) = fadeInTimers st.
Proof.
  pose proof (sweep_exceptPreloads st) as E. unfold exceptPreloads in E.
  injection E as -> -> -> -> -> -> -> -> -> ->. repeat split.
Qed.

(** [loadedAt] only grows with the loaded set. *)
Lemma loadedAt_mono (a b : state) (p : Z) :
  images a = images b -> loadedImages a ⊆ loadedImages b ->
  loadedAt a p = true -> loadedAt b p = true.
Proof.
  unfold loadedAt, has. intros <- Hsub.
  destruct (imageAt (images a) p); [|trivial].
  rewrite !bool_decide_eq_true. set_solver.
Qed.

Lemma timerOK_mono (a b : state) :
  images a = images b -> loadedImages a ⊆ loadedImages b ->
  pendingIndex a = pendingIndex b -> fadeOutTimer a = fadeOutTimer b ->
  timerOK a -> timerOK b.
Proof.
  intros Hi Hl Hp Ht H p Hb. rewrite <- Ht in Hb.
  destruct (H p Hb) as [H1 H2]. split; [congruence|].
  now apply (loadedAt_mono a b).
Qed.

Lemma displayOK_ext (a b : state) :
  images a = images b -> displayIndex a = displayIndex b ->
  displayOK a -> displayOK b.
Proof. unfold displayOK. now intros <- <-. Qed.

End StepFacts.

Section ReachableFacts.

Import Carousel.

Lemma freshArray_false (b : list image) (v : option image) :
  freshArray b v = false -> imagesOf b v = b.
Proof.
  unfold freshArray, imagesOf. destruct v as [v|]; [|reflexivity].
  intros H. apply negb_false_iff in H. now rewrite H.
Qed.

Lemma mount_invariant (base : list image) (variant : option image) :
  invariant (mount base variant).
Proof.
  split.
  - apply settle_timerOK. now left.
  - apply settle_displayOK; [simpl; lia|now left].
Qed.

Lemma newProps_invariant (base : option (list image)) (variant : option image)
    (st : state) :
  invariant st -> invariant (newProps base variant st).
Proof.
  intros [Ht Hd]. unfold newProps.
  destruct (negb _) eqn:Hre; [now split|].
  apply negb_false_iff in Hre.
  split.
  - apply settle_timerOK. simpl.
    destruct (_ || freshArray _ variant) eqn:Hi; [now left|right].
    apply orb_false_elim in Hi as [Hi Hf2].
    apply orb_false_elim in Hi as [Hn Hf1].
    destruct base as [b|]; [discriminate|].
    apply (timerOK_mono st); try reflexivity; try exact Ht.
    unfold images; simpl. now rewrite !freshArray_false.
  - apply settle_displayOK; [apply Hd|left]. simpl.
    destruct base as [b|]; simpl in *; [apply orb_true_r|].
    now rewrite Hre.
Qed.

(** Every turn of the event loop keeps the invariant. *)
Lemma step_invariant (st st' : state) (e : event) :
  invariant st -> step st e = Some st' -> invariant st'.
Proof.
  intros [Ht Hd] Hs. destruct e as [i|u|u|src| | | |b v]; simpl in Hs.
  - (* SwitchTo *)
    injection Hs as <-.
    destruct (switchTo_frame i st) as (Hb & Hv & Hl & Hdi & _ & Hft & _).
    assert (Hi : images st = images (switchTo i st))
      by (unfold images; now rewrite Hb, Hv).
    split.
    + apply rerender_timerOK. intros Hc.
      apply noChange_stateChanges in Hc as (Hp & _ & _).
      apply (timerOK_mono st); auto. now rewrite Hl.
    + apply rerender_displayOK. now apply (displayOK_ext st).
  - (* PreloadLoaded *)
    destruct (existsb _ _); [|discriminate]. injection Hs as <-.
    destruct (markLoaded_frame u (setPreloads (removeFirst u (preloads st)) st))
      as (Hb & Hv & _ & Hdi & Hp & _ & _ & Hft & _ & Hl).
    simpl in *.
    assert (Hi : images st
                 = images (markLoaded u
                             (setPreloads (removeFirst u (preloads st)) st)))
      by (unfold images; now rewrite Hb, Hv).
    split.
    + apply rerender_timerOK. intros _. now apply (timerOK_mono st).
    + apply rerender_displayOK. now apply (displayOK_ext st).
  - (* PreloadFailed *)
    destruct (existsb _ _); [|discriminate]. injection Hs as <-.
    split; [now apply (timerOK_mono st)|now apply (displayOK_ext st)].
  - (* MainImageLoaded *)
    destruct (activeImage st); [|discriminate]. injection Hs as <-.
    destruct (markLoaded_frame src st)
      as (Hb & Hv & _ & Hdi & Hp & _ & _ & Hft & _ & Hl).
    assert (Hi : images st = images (markLoaded src st))
      by (unfold images; now rewrite Hb, Hv).
    split.
    + apply rerender_timerOK. intros _. now apply (timerOK_mono st).
    + apply rerender_displayOK. now apply (displayOK_ext st).
  - (* FadeOutTimer *)
    destruct (fadeOutTimer st) as [p|] eqn:Hft; [|discriminate].
    injection Hs as <-.
    destruct (Ht p Hft) as [_ Hload]. apply loadedAt_range in Hload.
    split.
    + apply rerender_timerOK. intros _ q Hq. discriminate Hq.
    + apply rerender_displayOK. split; simpl; [lia|]. intros _.
      unfold images in *; simpl. lia.
  - (* FadeInTimer *)
    destruct (fadeInTimers st) as [|n] eqn:Hfi; [discriminate|].
    injection Hs as <-.
    split.
    + apply rerender_timerOK. intros Hc.
      apply noChange_stateChanges in Hc as (Hp & _ & _). simpl in Hp.
      intros q Hq. simpl in Hq. destruct (Ht q Hq) as [Hpq _]. congruence.
    + apply rerender_displayOK. now apply (displayOK_ext st).
  - (* SweepTimer *)
    destruct (sweepTimer st); [|discriminate]. injection Hs as <-.
    destruct (sweep_frame (setSweepTimer false st))
      as (Hb & Hv & _ & Hdi & Hp & _ & Hl & _ & Hft & _).
    simpl in *.
    assert (Hi : images st = images (sweep (setSweepTimer false st)))
      by (unfold images; now rewrite Hb, Hv).
    split.
    + apply (timerOK_mono st); auto. now rewrite Hl.
    + now apply (displayOK_ext st).
  - (* Props *)
    injection Hs as <-. now apply newProps_invariant.
Qed.

Lemma reachable_invariant (st : state) : reachable st -> invariant st.
Proof.
  induction 1 as [base variant|st e st' _ IH Hs].
  - apply mount_invariant.
  - now apply (step_invariant st st' e).
Qed.

(** A turn that brings no new props keeps the image list, only adds to the
    loaded set, and changes the index on display only when the fade-out
    timer fires, to the index that timer was set for. *)
Lemma step_same_props (st st' : state) (e : event) :
  isProps e = false -> step st e = Some st' ->
  images st' = images st
  /\ loadedImages st ⊆ loadedImages st'
  /\ (displayIndex st' = displayIndex st
      \/ fadeOutTimer st = Some (displayIndex st')).
Proof.
  intros He Hs. destruct e as [i|u|u|src| | | |b v]; simpl in Hs;
    try discriminate He.
  - injection Hs as <-. rewrite rerender_images.
    destruct (rerender_frame st (switchTo i st))
      as (_ & _ & -> & _ & _ & -> & _).
    destruct (switchTo_frame i st) as (Hb & Hv & -> & -> & _).
    unfold images. rewrite Hb, Hv. auto.
  - destruct (existsb _ _); [|discriminate]. injection Hs as <-.
    rewrite rerender_images.
    destruct (rerender_frame st
                (markLoaded u (setPreloads (removeFirst u (preloads st)) st)))
      as (_ & _ & -> & _ & _ & -> & _).
    destruct (markLoaded_frame u (setPreloads (removeFirst u (preloads st)) st))
      as (Hb & Hv & _ & -> & _ & _ & _ & _ & _ & Hl).
    unfold images. rewrite Hb, Hv. auto.
  - destruct (existsb _ _); [|discriminate]. injection Hs as <-. auto.
  - destruct (activeImage st); [|discriminate]. injection Hs as <-.
    rewrite rerender_images.
    destruct (rerender_frame st (markLoaded src st))
      as (_ & _ & -> & _ & _ & -> & _).
    destruct (markLoaded_frame src st)
      as (Hb & Hv & _ & -> & _ & _ & _ & _ & _ & Hl).
    unfold images. rewrite Hb, Hv. auto.
  - destruct (fadeOutTimer st) as [p|] eqn:Hft; [|discriminate].
    injection Hs as <-. rewrite rerender_images.
    destruct (rerender_frame st (fadeOutCallback p (setFadeOutTimer None st)))
      as (_ & _ & -> & _ & _ & -> & _).
    simpl. auto.
  - destruct (fadeInTimers st) as [|n]; [discriminate|].
    injection Hs as <-. rewrite rerender_images.
    destruct (rerender_frame st (fadeInCallback (setFadeInTimers n st)))
      as (_ & _ & -> & _ & _ & -> & _).
    simpl. auto.
  - destruct (sweepTimer st); [|discriminate]. injection Hs as <-.
    destruct (sweep_frame (setSweepTimer false st))
      as (Hb & Hv & _ & -> & _ & _ & -> & _).
    unfold images. rewrite Hb, Hv. auto.
Qed.

End ReachableFacts.

Section CarouselClaims.

Import Carousel.

Lemma run_same_props (es : list event) (st0 st : state) :
  forallb (fun e => negb (isProps e)) es = true -> run st0 es = Some st ->
  images st = images st0 /\ loadedImages st0 ⊆ loadedImages st.
Proof.
  revert st0. induction es as [|e es IH]; intros st0 Hes Hrun; simpl in *.
  - injection Hrun as <-. split; [reflexivity|set_solver].
  - apply andb_prop in Hes as [He Hes]. apply negb_true_iff in He.
    destruct (step st0 e) as [st1|] eqn:Hs; [|discriminate].
    destruct (step_same_props st0 st1 e He Hs) as (Hi & Hl & _).
    pose proof (IH st1 Hes Hrun) as [Hi' Hl'].
    split; [congruence|now transitivity (loadedImages st1)].
Qed.

Lemma run_reachable (es : list event) (st0 st : state) :
  reachable st0 -> run st0 es = Some st -> reachable st.
Proof.
  revert st0. induction es as [|e es IH]; intros st0 Hr Hrun; simpl in *.
  - now injection Hrun as <-.
  - destruct (step st0 e) as [st1|] eqn:Hs; [|discriminate].
    apply (IH st1); [|exact Hrun]. now apply (reachable_step st0 e).
Qed.

(** C2 (amended): from any state the component can be in, after any sequence
    of switchTo calls, preload completions and failures, image loads and
    timer firings that brings no new props (no variant-image or product
    change), the index on display either is still the one the sequence
    started with, or points at an image whose 800px-wide URL is in the
    loaded set. *)
Theorem C2_display_loaded_without_new_props (st0 st : state)
    (es : list event) :
  reachable st0 ->
  forallb (fun e => negb (isProps e)) es = true ->
  run st0 es = Some st ->
  displayIndex st = displayIndex st0
  \/ loadedAt st (displayIndex st) = true.
Proof.
  revert st0. induction es as [|e es IH]; intros st0 Hr Hes Hrun.
  - simpl in Hrun. injection Hrun as <-. now left.
  - simpl in Hes, Hrun. apply andb_prop in Hes as [He Hes].
    apply negb_true_iff in He.
    destruct (step st0 e) as [st1|] eqn:Hs; [|discriminate].
    assert (Hr1 : reachable st1) by now apply (reachable_step st0 e).
    destruct (IH st1 Hr1 Hes Hrun) as [Hsame|Hloaded]; [|now right].
    destruct (step_same_props st0 st1 e He Hs) as (Hi & Hl & [Hd|Hd]).
    + left. congruence.
    + right. destruct (reachable_invariant st0 Hr) as [Ht _].
      destruct (Ht _ Hd) as [_ Hload]. rewrite Hsame.
      destruct (run_same_props es st1 st Hes Hrun) as [Hi' Hl'].
      apply (loadedAt_mono st0 st); [congruence|set_solver|exact Hload].
Qed.

(** C7: [switchTo(index)] with the active index, or on an empty image list,
    returns at once: the whole state, preloaders in flight included, is what
    it was, and the turn of the event loop ends in that same state. *)
Theorem C7_switchTo_ignored (st : state) (index : Z) :
  images st = [] \/ index = activeIndex st ->
  switchTo index st = st /\ step st (SwitchTo index) = Some st.
Proof.
  intros H.
  assert (E : switchTo index st = st).
  { unfold switchTo. destruct H as [->| ->]; simpl; [reflexivity|].
    now rewrite Z.eqb_refl, orb_true_r. }
  split; [exact E|]. simpl. rewrite E, rerender_once.
  now rewrite stateChanges_refl.
Qed.

Lemma addLoaded_member (u : string) (s : gset string) :
  u ∈ s -> addLoaded u s = s.
Proof. intros H. unfold addLoaded, has. now rewrite bool_decide_eq_true_2. Qed.

Lemma addLoaded_has (u : string) (s : gset string) : u ∈ addLoaded u s.
Proof.
  unfold addLoaded, has. destruct (bool_decide_reflect (u ∈ s)); set_solver.
Qed.

(** C8: for a URL already in the loaded set, the updater of [markLoaded]
    returns the set it was given, [markLoaded] leaves the state as it is,
    and the preloader's success callback changes nothing but the list of
    preloaders in flight; marking any URL loaded twice is the same as
    marking it once. *)
Theorem C8_markLoaded_idempotent (st : state) (u : string) :
  (u ∈ loadedImages st ->
   addLoaded u (loadedImages st) = loadedImages st
   /\ markLoaded u st = st
   /\ forall st', step st (PreloadLoaded u) = Some st' ->
                  exceptPreloads st' = exceptPreloads st)
  /\ markLoaded u (markLoaded u st) = markLoaded u st.
Proof.
  split.
  - intros H. split; [now apply addLoaded_member|].
    assert (E : forall s, loadedImages s = loadedImages st ->
                          markLoaded u s = s).
    { intros s Hs. unfold markLoaded. case_match; [reflexivity|].
      rewrite Hs, addLoaded_member, <- Hs by exact H.
      apply setLoadedImages_id. }
    split; [now apply E|].
    intros st' Hs. simpl in Hs. destruct (existsb _ _); [|discriminate].
    injection Hs as <-. rewrite E by reflexivity.
    rewrite rerender_once.
    assert (Hc : noChange
                   (stateChanges st
                      (setPreloads (removeFirst u (preloads st)) st)) = true).
    { unfold noChange, stateChanges; simpl.
      now rewrite !bool_decide_eq_true_2. }
    now rewrite Hc.
  - unfold markLoaded. destruct (negb (JS.truthy_string u)); [reflexivity|].
    destruct st; simpl.
    now rewrite (addLoaded_member u (addLoaded u _)) by apply addLoaded_has.
Qed.

(** A re-render in which the transition effect finds nothing to do: nothing
    is pending, or the pending index has no image and is not the one on
    display. *)
Lemma rerender_no_transition (old new : state) (i : Z) :
  pendingIndex new = None
  \/ (pendingIndex new = Some i /\ i <> displayIndex new
      /\ imageAt (images new) i = None) ->
  (noChange (stateChanges old new) = true -> fadeOutTimer new = None) ->
  pendingIndex (rerender old new) = pendingIndex new
  /\ phase (rerender old new) = phase new
  /\ fadeOutTimer (rerender old new) = None.
Proof.
  intros H Ht. rewrite rerender_once.
  destruct (noChange (stateChanges old new)) eqn:Hc; [now auto|].
  assert (E4 : pendingChanged (stateChanges old new)
               || displayChanged (stateChanges old new)
               || loadedChanged (stateChanges old new)
               || imagesChanged (stateChanges old new) = true).
  { unfold noChange in Hc. apply negb_false_iff in Hc.
    simpl in *. now rewrite orb_false_r. }
  unfold runEffects. rewrite E4.
  cbn [variantIdChanged imagesChanged stateChanges orb].
  unfold transitionEffect, sweepEffect.
  destruct H as [Hp|(Hp & Hne & Hi)]; rewrite Hp.
  - repeat case_match; simpl; rewrite ?Hp; auto.
  - apply Z.eqb_neq in Hne. rewrite Hne, Hi.
    repeat case_match; simpl; rewrite ?Hp; auto.
Qed.

Lemma parked_rerender (i d : Z) (old new : state) :
  parked i d new ->
  parked i d (rerender old new)
  /\ pendingIndex (rerender old new) = pendingIndex new
  /\ phase (rerender old new) = phase new
  /\ fadeInTimers (rerender old new) = fadeInTimers new.
Proof.
  intros (Hi & Ht & Hd & Ha & Hne & Hp).
  destruct (rerender_no_transition old new i) as (Hp' & Hph & Ht').
  { destruct Hp as [Hp|Hp]; [right|now left]. now rewrite Hd. }
  { now intros _. }
  destruct (rerender_frame old new) as (_ & _ & _ & _ & Hfi & Hdi & Hai).
  rewrite <- (rerender_images old new) in Hi.
  repeat split; congruence.
Qed.

(** A timer firing or an image load keeps the component parked; with no
    fade-in timer pending it changes neither [pendingIndex] nor [phase]. *)
Lemma parked_step (i d : Z) (s s' : state) (e : event) :
  parked i d s -> isCallback e = true -> step s e = Some s' ->
  parked i d s'
  /\ (fadeInTimers s = 0%nat ->
      fadeInTimers s' = 0%nat
      /\ pendingIndex s' = pendingIndex s /\ phase s' = phase s).
Proof.
  intros Hk He Hs. pose proof Hk as (Hi & Ht & Hd & Ha & Hne & Hp).
  destruct e as [j|u|u|src| | | |b v]; simpl in Hs; try discriminate He.
  - destruct (existsb _ _); [|discriminate]. injection Hs as <-.
    destruct (markLoaded_frame u (setPreloads (removeFirst u (preloads s)) s))
      as (Hb & Hv & Hai & Hdi & Hpi & Hph & _ & Hft & Hfi & _).
    simpl in *.
    destruct (parked_rerender i d s
                (markLoaded u (setPreloads (removeFirst u (preloads s)) s)))
      as (K & Hp' & Hph' & Hfi').
    { unfold parked, images. rewrite Hb, Hv, Hft, Hdi, Hai, Hpi. exact Hk. }
    split; [exact K|]. intros H0. repeat split; congruence.
  - destruct (existsb _ _); [|discriminate]. injection Hs as <-.
    split; [exact Hk|]. intros H0. now repeat split.
  - destruct (activeImage s); [|discriminate]. injection Hs as <-.
    destruct (markLoaded_frame src s)
      as (Hb & Hv & Hai & Hdi & Hpi & Hph & _ & Hft & Hfi & _).
    destruct (parked_rerender i d s (markLoaded src s))
      as (K & Hp' & Hph' & Hfi').
    { unfold parked, images. rewrite Hb, Hv, Hft, Hdi, Hai, Hpi. exact Hk. }
    split; [exact K|]. intros H0. repeat split; congruence.
  - rewrite Ht in Hs. discriminate.
  - destruct (fadeInTimers s) as [|n] eqn:Hn; [discriminate|].
    injection Hs as <-.
    destruct (parked_rerender i d s (fadeInCallback (setFadeInTimers n s)))
      as (K & _).
    { unfold parked, images; simpl. repeat split; auto. }
    split; [exact K|]. intros H0. discriminate H0.
  - destruct (sweepTimer s); [|discriminate]. injection Hs as <-.
    destruct (sweep_frame (setSweepTimer false s))
      as (Hb & Hv & Hai & Hdi & Hpi & Hph & _ & _ & Hft & Hfi).
    simpl in *. split.
    + unfold parked, images. rewrite Hb, Hv, Hft, Hdi, Hai, Hpi. exact Hk.
    + intros H0. repeat split; congruence.
Qed.

Lemma parked_run (i d : Z) (es : list event) (s s' : state) :
  parked i d s -> forallb isCallback es = true -> run s es = Some s' ->
  parked i d s'
  /\ (fadeInTimers s = 0%nat ->
      pendingIndex s' = pendingIndex s /\ phase s' = phase s).
Proof.
  revert s. induction es as [|e es IH]; intros s Hk Hes Hrun; simpl in *.
  - injection Hrun as <-. auto.
  - apply andb_prop in Hes as [He Hes].
    destruct (step s e) as [s1|] eqn:Hs; [|discriminate].
    destruct (parked_step i d s s1 e Hk He Hs) as [K1 H1].
    destruct (IH s1 K1 Hes Hrun) as [K' H'].
    split; [exact K'|]. intros H0.
    destruct (H1 H0) as (H10 & Hp1 & Hph1). destruct (H' H10) as [Hp' Hph'].
    split; congruence.
Qed.

Lemma imageAt_in_range (l : list image) (d : Z) :
  0 <= d < Z.of_nat (length l) -> imageAt l d <> None.
Proof.
  intros H. unfold imageAt. destruct (Z.ltb_spec d 0); [lia|].
  intros E. apply lookup_ge_None in E. lia.
Qed.

(** What [switchTo] does for an index with no image. In a state the
    component can be in, with a non-empty image list, [switchTo(i)] for an
    index [i] other than the active one and with no image at position [i]
    sets [activeIndex] and [pendingIndex] to [i] and starts no preload;
    through every later timer firing and image load, [activeIndex] stays
    [i], the index on display never changes and no fade-out timer is ever
    set; and when no fade-in timer was pending at the call, [phase] never
    changes and [pendingIndex] stays [i]. *)
Theorem switchTo_absent_image_parks (st : state) (i : Z) :
  reachable st ->
  images st <> [] ->
  i <> activeIndex st ->
  imageAt (images st) i = None ->
  activeIndex (switchTo i st) = i
  /\ pendingIndex (switchTo i st) = Some i
  /\ preloads (switchTo i st) = preloads st
  /\ forall (es : list event) (st' : state),
       forallb isCallback es = true ->
       run st (SwitchTo i :: es) = Some st' ->
       activeIndex st' = i
       /\ displayIndex st' = displayIndex st
       /\ fadeOutTimer st' = None
       /\ (fadeInTimers st = 0%nat ->
           phase st' = phase st /\ pendingIndex st' = Some i).
Proof.
  intros Hr Hne Hact Habs.
  destruct (reachable_invariant st Hr) as [Ht [Hd0 Hd]].
  specialize (Hd Hne).
  assert (Hlen : (length (images st) =? 0)%nat = false).
  { apply Nat.eqb_neq. destruct (images st); [congruence|discriminate]. }
  assert (Hsw : switchTo i st = setPendingIndex (Some i) (setActiveIndex i st)).
  { unfold switchTo. rewrite Hlen, Habs. apply Z.eqb_neq in Hact.
    now rewrite Hact. }
  assert (Hid : i <> displayIndex st).
  { intros ->. now apply (imageAt_in_range (images st) (displayIndex st)). }
  rewrite Hsw. do 3 (split; [reflexivity|]).
  intros es st' Hes Hrun. simpl in Hrun. rewrite Hsw in Hrun.
  set (new := setPendingIndex (Some i) (setActiveIndex i st)) in *.
  destruct (rerender_no_transition st new i) as (Hp1 & Hph1 & Ht1).
  { right. now repeat split. }
  { intros Hc. apply noChange_stateChanges in Hc as (Hp & _ & _).
    simpl in Hp. change (fadeOutTimer new) with (fadeOutTimer st).
    destruct (fadeOutTimer st) as [p|] eqn:Hft; [|reflexivity].
    destruct (Ht p Hft) as [Hpp Hload].
    assert (p = i) by congruence. subst p.
    unfold loadedAt in Hload. rewrite Habs in Hload. discriminate. }
  destruct (rerender_frame st new) as (_ & _ & _ & _ & Hfi1 & Hd1 & Ha1).
  assert (K1 : parked i (displayIndex st) (rerender st new)).
  { unfold parked. rewrite rerender_images, Ht1, Hd1, Ha1, Hp1.
    repeat split; auto. }
  destruct (parked_run i (displayIndex st) es (rerender st new) st' K1 Hes Hrun)
    as [(_ & Ht' & Hd' & Ha' & _) H'].
  split; [exact Ha'|]. split; [exact Hd'|]. split; [exact Ht'|].
  intros H0. destruct H' as [Hp' Hph']; [now rewrite Hfi1|].
  change (pendingIndex new) with (Some i) in Hp1.
  change (phase new) with (phase st) in Hph1.
  split; congruence.
Qed.

(** A re-render after an update of [pendingIndex] or [displayIndex] alone
    runs the transition effect, and nothing else. *)
Lemma rerender_transition (old new : state) :
  pendingIndex old <> pendingIndex new \/ displayIndex old <> displayIndex new ->
  loadedImages old = loadedImages new ->
  rerender old new = transitionEffect new new.
Proof.
  intros H Hl. rewrite rerender_once.
  unfold noChange, stateChanges, runEffects; simpl.
  rewrite (bool_decide_eq_true_2 _ Hl); simpl. rewrite !orb_false_r.
  destruct H as [H|H]; rewrite (bool_decide_eq_false_2 _ H); simpl;
    [reflexivity|now rewrite orb_true_r].
Qed.

Lemma rerender_unchanged (old new : state) :
  pendingIndex old = pendingIndex new -> displayIndex old = displayIndex new ->
  loadedImages old = loadedImages new ->
  rerender old new = new.
Proof.
  intros Hp Hd Hl. rewrite rerender_once.
  unfold noChange, stateChanges; simpl.
  now rewrite (bool_decide_eq_true_2 _ Hp), (bool_decide_eq_true_2 _ Hd),
    (bool_decide_eq_true_2 _ Hl).
Qed.

(** C6 (amended): with a non-empty image list, an index [i] that is neither
    the active index nor the index on display, the 800px URL of its image in
    the loaded set, and the component at rest ([phase] idle, no fade-in
    timer pending, [i] not already pending): [switchTo(i)] sets
    [activeIndex] to [i] at the call; the turn ends with [phase] fade-out
    and the old index still on display; the fade-out timer then puts [i] on
    display with [phase] fade-in; the fade-in timer then returns [phase] to
    idle with [pendingIndex] null; and no timer of the transition is left
    after that. *)
Theorem C6_switchTo_loaded_fades (st : state) (i : Z) :
  images st <> [] ->
  i <> activeIndex st ->
  i <> displayIndex st ->
  loadedAt st i = true ->
  phase st = idle ->
  fadeInTimers st = 0%nat ->
  pendingIndex st <> Some i ->
  activeIndex (switchTo i st) = i
  /\ exists s1 s2 s3 : state,
       step st (SwitchTo i) = Some s1
       /\ (activeIndex s1, displayIndex s1, phase s1)
          = (i, displayIndex st, fade_out)
       /\ step s1 FadeOutTimer = Some s2
       /\ (activeIndex s2, displayIndex s2, phase s2) = (i, i, fade_in)
       /\ step s2 FadeInTimer = Some s3
       /\ (activeIndex s3, displayIndex s3, phase s3, pendingIndex s3)
          = (i, i, idle, None)
       /\ step s3 FadeOutTimer = None
       /\ step s3 FadeInTimer = None.
Proof.
  intros Hne Hact Hdis Hload Hidle Hfi Hpend.
  assert (Hlen : (length (images st) =? 0)%nat = false).
  { apply Nat.eqb_neq. destruct (images st); [congruence|discriminate]. }
  unfold loadedAt in Hload.
  destruct (imageAt (images st) i) as [t|] eqn:Ht; [|discriminate].
  assert (Hsw : switchTo i st = setPendingIndex (Some i) (setActiveIndex i st)).
  { unfold switchTo. apply Z.eqb_neq in Hact. rewrite Hlen, Hact, Ht; simpl.
    unfold url800 in Hload. destruct (JS.truthy_string (url t));
      [now rewrite Hload|reflexivity]. }
  rewrite Hsw. split; [reflexivity|].
  set (new := setPendingIndex (Some i) (setActiveIndex i st)) in *.
  set (s1 := setFadeOutTimer (Some i)
               (setPhase fade_out (setFadeOutTimer None new))).
  set (new2 := fadeOutCallback i (setFadeOutTimer None s1)).
  set (s2 := setPendingIndex None (setFadeOutTimer None new2)).
  set (s3 := fadeInCallback (setFadeInTimers 0 s2)).
  assert (E1 : rerender st new = s1).
  { rewrite rerender_transition; [|left; exact Hpend|reflexivity].
    unfold transitionEffect. change (pendingIndex new) with (Some i).
    change (displayIndex new) with (displayIndex st).
    change (images new) with (images st).
    change (loadedImages new) with (loadedImages st).
    cbv beta iota.
    apply Z.eqb_neq in Hdis. now rewrite Hdis, Ht, Hload. }
  assert (E2 : rerender s1 new2 = s2).
  { rewrite rerender_transition; [|right; exact (not_eq_sym Hdis)|reflexivity].
    unfold transitionEffect. change (pendingIndex new2) with (Some i).
    change (displayIndex new2) with i. cbv beta iota.
    now rewrite Z.eqb_refl. }
  assert (E3 : rerender s2 s3 = s3) by now apply rerender_unchanged.
  exists s1, s2, s3.
  split.
  { change (step st (SwitchTo i)) with (Some (rerender st (switchTo i st))).
    now rewrite Hsw, E1. }
  split; [reflexivity|].
  split.
  { change (step s1 FadeOutTimer) with (Some (rerender s1 new2)).
    now rewrite E2. }
  split; [reflexivity|].
  split.
  { unfold step. change (fadeInTimers s2) with (S (fadeInTimers st)).
    cbv beta iota. rewrite Hfi. fold s3. now rewrite E3. }
  split; [reflexivity|].
  split; reflexivity.
Qed.

End CarouselClaims.

(** * The claims at concrete inputs *)

Section PaginatorExamples.

Import JS Paginator.

(** On a chunk reached with cursor [abc] and direction [next], page 1 of 2:
    the next link and both page-number entries carry that cursor and that
    direction. *)
Lemma C1_counterexample :
  hasNextPageInChunk noOtherLiteral PAGE_SIZE laterChunk hundredItems = true
  /\ option_map cursorParams
       (nextUrl noOtherLiteral noFraction PAGE_SIZE laterChunk hundredItems
          middleInfo)
     = Some (Some "abc", Some "next")
  /\ List.map (fun e => (pageNumber e, cursorParams (pageUrl e)))
       (pageEntries noOtherLiteral noFraction PAGE_SIZE laterChunk
          hundredItems)
     = [(1, (Some "abc", Some "next")); (2, (Some "abc", Some "next"))].
Proof. vm_compute. repeat split. Qed.

Lemma C1_witness :
  (exists u,
     nextUrl noOtherLiteral noFraction PAGE_SIZE (firstChunk "1") hundredItems
       middleInfo = Some u
     /\ cursorParams u = chunkParams (firstChunk "1"))
  /\ chunkParams (firstChunk "1") = (None, None).
Proof.
  destruct (C1_in_chunk_links_keep_chunk_cursor noOtherLiteral noFraction
              PAGE_SIZE (firstChunk "1") hundredItems middleInfo)
    as (Hnext & _ & Hnone).
  split; [apply Hnext; reflexivity|apply Hnone; reflexivity].
Defined.

Lemma C3_witness :
  List.concat
    (List.map
       (fun index : nat =>
          visibleNodes noOtherLiteral PAGE_SIZE
            (firstChunk (decimal (Z.of_nat index + 1))) hundredItems)
       (List.seq 0 (Z.to_nat (totalPages PAGE_SIZE hundredItems))))
  = hundredItems.
Proof.
  apply (C3_pages_partition_items PAGE_SIZE hundredItems eq_refl
           noOtherLiteral (fun p => firstChunk (decimal p))).
  intros p Hp.
  assert (Htp : totalPages PAGE_SIZE hundredItems = 2)
    by (vm_compute; reflexivity).
  rewrite Htp in Hp.
  assert (Hcases : p = 1 \/ p = 2) by lia.
  destruct Hcases as [->| ->]; vm_compute; reflexivity.
Defined.

Lemma C4_witness :
  currentPage noOtherLiteral PAGE_SIZE (firstChunk "0") hundredItems = ofZ 1
  /\ currentPage noOtherLiteral PAGE_SIZE (firstChunk "9") hundredItems
     = ofZ (totalPages PAGE_SIZE hundredItems).
Proof.
  split.
  - apply (C4_currentPage_in_range noOtherLiteral PAGE_SIZE (firstChunk "0")
             hundredItems). reflexivity.
  - apply (C4_currentPage_in_range noOtherLiteral PAGE_SIZE (firstChunk "9")
             hundredItems). reflexivity.
Defined.

Lemma C5_witness :
  option_map target
    (nextUrl noOtherLiteral noFraction PAGE_SIZE (firstChunk "2") hundredItems
       middleInfo)
  = Some (Some "1", Some "def", Some "next")
  /\ option_map target
       (prevUrl noOtherLiteral noFraction PAGE_SIZE (firstChunk "1")
          hundredItems middleInfo)
     = Some (Some "4", Some "abd", Some "previous").
Proof.
  split.
  - apply (C5_cross_chunk_targets noOtherLiteral noFraction PAGE_SIZE
             (firstChunk "2") hundredItems middleInfo). reflexivity.
  - apply (C5_cross_chunk_targets noOtherLiteral noFraction PAGE_SIZE
             (firstChunk "1") hundredItems middleInfo). reflexivity.
Defined.

Lemma C9_witness :
  exists u,
    nextUrl noOtherLiteral noFraction PAGE_SIZE (firstChunk "2") hundredItems
      middleInfo = Some u
    /\ path u = "/collections/all"
    /\ otherParams (params u) = [("sort", "price")].
Proof.
  eexists. split; [reflexivity|].
  apply (C9_navigation_keeps_other_params noOtherLiteral noFraction PAGE_SIZE
           (firstChunk "2") hundredItems middleInfo).
  left. reflexivity.
Defined.

End PaginatorExamples.

Section CarouselExamples.

Import Carousel.

Lemma sweptState_reachable :
  run (mount [imageA; imageB] None) [SweepTimer; PreloadLoaded (url800 imageB)]
  = Some sweptState.
Proof. vm_compute. reflexivity. Qed.

(** The selected variant changes to one whose image is the third of the
    product's images, which no preloader has fetched: the variant effect puts
    it on display at once. *)
Lemma C2_counterexample :
  exists st,
    run (mount [imageA; imageB; imageC] None) [Props None (Some imageC)]
    = Some st
    /\ displayIndex (mount [imageA; imageB; imageC] None) = 0
    /\ displayIndex st = 2
    /\ loadedAt st 2 = false
    /\ elements (loadedImages st) = [].
Proof.
  eexists. repeat (split; [vm_compute; reflexivity|]). vm_compute; reflexivity.
Qed.

Lemma C2_witness :
  exists st,
    run (mount [imageA; imageB] None)
      [SwitchTo 1; PreloadLoaded (url800 imageB); FadeOutTimer] = Some st
    /\ (displayIndex st = displayIndex (mount [imageA; imageB] None)
        \/ loadedAt st (displayIndex st) = true).
Proof.
  eexists. split; [vm_compute; reflexivity|].
  apply (C2_display_loaded_without_new_props (mount [imageA; imageB] None) _
           [SwitchTo 1; PreloadLoaded (url800 imageB); FadeOutTimer]).
  - apply reachable_mount.
  - reflexivity.
  - vm_compute; reflexivity.
Defined.

(** The first image is loaded and on display while the second, requested
    and active, never arrives; [switchTo(0)] then meets every condition of
    the claim, and the transition effect clears [pendingIndex] with no fade:
    [phase] stays idle and no timer is set. *)
Lemma C6_counterexample :
  exists st st',
    run (mount [imageA; imageB] None)
      [SweepTimer; PreloadLoaded (url800 imageA); SwitchTo 1] = Some st
    /\ length (images st) = 2%nat
    /\ (activeIndex st, displayIndex st, phase st) = (1, 0, idle)
    /\ loadedAt st 0 = true
    /\ step st (SwitchTo 0) = Some st'
    /\ (activeIndex st', displayIndex st', pendingIndex st', phase st')
       = (0, 0, None, idle)
    /\ (fadeOutTimer st', fadeInTimers st') = (None, 0%nat)
    /\ step st' FadeOutTimer = None
    /\ step st' FadeInTimer = None.
Proof.
  do 2 eexists.
  repeat (split; [vm_compute; reflexivity|]). vm_compute; reflexivity.
Qed.

Lemma C6_witness :
  activeIndex (switchTo 1 sweptState) = 1
  /\ exists s1 s2 s3 : state,
       step sweptState (SwitchTo 1) = Some s1
       /\ (activeIndex s1, displayIndex s1, phase s1)
          = (1, displayIndex sweptState, fade_out)
       /\ step s1 FadeOutTimer = Some s2
       /\ (activeIndex s2, displayIndex s2, phase s2) = (1, 1, fade_in)
       /\ step s2 FadeInTimer = Some s3
       /\ (activeIndex s3, displayIndex s3, phase s3, pendingIndex s3)
          = (1, 1, idle, None)
       /\ step s3 FadeOutTimer = None
       /\ step s3 FadeInTimer = None.
Proof.
  apply (C6_switchTo_loaded_fades sweptState 1).
  - discriminate.
  - discriminate.
  - discriminate.
  - vm_compute; reflexivity.
  - reflexivity.
  - reflexivity.
  - discriminate.
Defined.

Lemma C7_witness :
  switchTo 0 sweptState = sweptState
  /\ step sweptState (SwitchTo 0) = Some sweptState.
Proof. apply (C7_switchTo_ignored sweptState 0). right. reflexivity. Defined.

Lemma C8_witness :
  addLoaded (url800 imageB) (loadedImages sweptState) = loadedImages sweptState
  /\ markLoaded (url800 imageB) sweptState = sweptState.
Proof.
  destruct (C8_markLoaded_idempotent sweptState (url800 imageB)) as [H _].
  destruct H as (Hset & Hstate & _); [|now split].
  apply (bool_decide_unpack _). vm_compute. exact I.
Defined.


Lemma switchTo_absent_image_example :
  activeIndex (switchTo 7 (mount [imageA; imageB] None)) = 7
  /\ pendingIndex (switchTo 7 (mount [imageA; imageB] None)) = Some 7
  /\ preloads (switchTo 7 (mount [imageA; imageB] None))
     = preloads (mount [imageA; imageB] None)
  /\ forall (es : list event) (st' : state),
       forallb isCallback es = true ->
       run (mount [imageA; imageB] None) (SwitchTo 7 :: es) = Some st' ->
       activeIndex st' = 7
       /\ displayIndex st' = displayIndex (mount [imageA; imageB] None)
       /\ fadeOutTimer st' = None
       /\ (fadeInTimers (mount [imageA; imageB] None) = 0%nat ->
           phase st' = phase (mount [imageA; imageB] None)
           /\ pendingIndex st' = Some 7).
Proof.
  apply (switchTo_absent_image_parks (mount [imageA; imageB] None) 7).
  - apply reachable_mount.
  - vm_compute; discriminate.
  - vm_compute; discriminate.
  - vm_compute; reflexivity.
Defined.

End CarouselExamples.

(** * Further properties of the paginator *)

Section DecimalFacts.

Import JS Navigation.

Lemma digitsValue_string_of_uint (d : Decimal.uint) (acc : Z) :
  digitsValue (NilEmpty.string_of_uint d) acc = Some (uintValue d acc).
Proof.
  revert acc. induction d; intros acc; simpl; try reflexivity; apply IHd.
Qed.

Lemma length_string_of_uint (d : Decimal.uint) :
  String.length (NilEmpty.string_of_uint d) = Decimal.nb_digits d.
Proof. induction d; simpl; congruence. Qed.

Lemma uintValue_acc (d : Decimal.uint) (p : positive) :
  uintValue d (Zpos p) = Zpos (Pos.of_uint_acc d p).
Proof.
  revert p. induction d; intros p; simpl; try reflexivity;
    rewrite <- IHd; f_equal; lia.
Qed.

Lemma uintValue_of_uint (d : Decimal.uint) :
  uintValue d 0 = Z.of_N (Pos.of_uint d).
Proof.
  induction d; simpl; try reflexivity; try exact IHd;
    apply (uintValue_acc d).
Qed.

Lemma uintValue_lower (d : Decimal.uint) (acc : Z) :
  0 <= acc -> acc * 10 ^ Z.of_nat (Decimal.nb_digits d) <= uintValue d acc.
Proof.
  revert acc. induction d; intros acc Hacc; simpl Decimal.nb_digits;
    cbn [uintValue]; [lia|..];
    rewrite Nat2Z.inj_succ, Z.pow_succ_r by lia;
    (etransitivity; [|apply IHd; lia]);
    pose proof (Z.pow_nonneg 10 (Z.of_nat (Decimal.nb_digits d))); nia.
Qed.

(** A positive integer below 10^15 prints as at most fifteen digits. *)
Lemma nb_digits_to_uint (p : positive) :
  Zpos p < 10 ^ 15 -> (Decimal.nb_digits (Pos.to_uint p) <= 15)%nat.
Proof.
  intros Hp.
  pose proof (DecimalPos.Unsigned.of_to p) as Hof.
  pose proof (uintValue_of_uint (Pos.to_uint p)) as Hval.
  rewrite Hof in Hval. simpl in Hval.
  pose proof (DecimalPos.Unsigned.to_of (Pos.to_uint p)) as Hnorm.
  rewrite Hof in Hnorm. simpl in Hnorm.
  pose proof (DecimalPos.Unsigned.to_uint_nonzero p) as Hnz.
  assert (Hhead : forall l, Pos.to_uint p <> Decimal.D0 l).
  { intros l E. rewrite E in Hnorm. rewrite DecimalFacts.unorm_D0 in Hnorm.
    unfold Decimal.unorm in Hnorm.
    destruct (Decimal.nzhead l) eqn:El;
      apply (DecimalFacts.nzhead_nonzero l l); congruence. }
  destruct (Pos.to_uint p) as [|l|l|l|l|l|l|l|l|l|l] eqn:E;
    [simpl; lia|exfalso; now apply (Hhead l)|..];
    cbn [uintValue] in Hval; simpl Decimal.nb_digits;
    match type of Hval with
    | uintValue l ?a = _ =>
        pose proof (uintValue_lower l a ltac:(lia)) as Hlow
    end;
    rewrite Hval in Hlow;
    destruct (le_lt_dec (Decimal.nb_digits l) 14) as [Hle|Hgt]; try lia;
    exfalso;
    assert (10 ^ 15 <= 10 ^ Z.of_nat (Decimal.nb_digits l))
      by (apply Z.pow_le_mono_r; lia);
    nia.
Qed.

(** [Number] reads back what [String] prints for a positive integer below
    10^15. *)
Lemma decimalLiteral_decimal (z : Z) :
  0 < z < 10 ^ 15 -> decimalLiteral (decimal z) = Some z.
Proof.
  intros [Hpos Hlt]. destruct z as [|p|p]; try lia.
  unfold decimal, decimalLiteral. simpl Z.to_int.
  unfold NilZero.string_of_int.
  pose proof (DecimalPos.Unsigned.to_uint_nonnil p) as Hnn.
  pose proof (nb_digits_to_uint p Hlt) as Hlen.
  pose proof (uintValue_of_uint (Pos.to_uint p)) as Hval.
  rewrite DecimalPos.Unsigned.of_to in Hval. simpl in Hval.
  set (d := Pos.to_uint p) in *.
  assert (Hs : NilZero.string_of_uint d = NilEmpty.string_of_uint d)
    by (destruct d; [congruence|reflexivity..]).
  rewrite Hs.
  pose proof (length_string_of_uint d) as Hl.
  pose proof (digitsValue_string_of_uint d 0) as Hd.
  destruct (NilEmpty.string_of_uint d) as [|c s] eqn:Es.
  - simpl in Hl. symmetry in Hl. now apply DecimalFacts.nb_digits_0 in Hl.
  - rewrite Hl. apply Nat.leb_le in Hlen. rewrite Hlen. congruence.
Qed.

Lemma decimalLiteral_truthy (s : string) (z : Z) :
  decimalLiteral s = Some z -> truthy_string s = true.
Proof. destruct s; [discriminate|reflexivity]. Qed.

End DecimalFacts.

Section WindowFacts.

Import JS Paginator Navigation.

Context {T : Type}.

(** [slice(t, t + n)] on non-negative integers is the block of [n] items
    from position [t]. *)
Lemma slice_block (l : list T) (t n : Z) :
  0 <= t -> 0 < n ->
  take (Z.to_nat (Z.max (Z.min (t + n) (Z.of_nat (length l))
                         - Z.min t (Z.of_nat (length l))) 0))
       (drop (Z.to_nat (Z.min t (Z.of_nat (length l)))) l)
  = take (Z.to_nat n) (drop (Z.to_nat t) l).
Proof.
  intros Ht Hn. set (len := Z.of_nat (length l)).
  destruct (Z.le_gt_cases len t) as [Hge|Hlt].
  - rewrite (drop_ge l (Z.to_nat t)) by (unfold len in Hge; lia).
    rewrite (drop_ge l (Z.to_nat (Z.min t len))) by (unfold len in *; lia).
    now rewrite !take_nil.
  - replace (Z.min t len) with t by lia.
    destruct (Z.le_gt_cases (t + n) len) as [Hfull|Hshort].
    + f_equal. lia.
    + rewrite !take_ge; [reflexivity| |]; rewrite length_drop;
        unfold len in *; lia.
Qed.

Lemma truncate_nonneg (q : Q) : (0 <= q)%Q -> 0 <= truncate q.
Proof.
  destruct q as [a d]. unfold Qle, truncate; simpl. intros Ha.
  rewrite Z.mul_1_r in Ha. apply Z.quot_pos; lia.
Qed.

Lemma truncate_between (q : Q) (K N : Z) :
  0 <= K -> (inject_Z K <= q <= inject_Z N)%Q -> K <= truncate q <= N.
Proof.
  destruct q as [a d]. unfold Qle, truncate; simpl. intros HK [Hlo Hhi].
  rewrite Z.mul_1_r in Hlo, Hhi. rewrite Z.quot_div_nonneg by nia. split.
  - apply Z.div_le_lower_bound; nia.
  - apply Z.div_le_upper_bound; nia.
Qed.

(** A non-negative value lies between its integer part and the next
    integer. *)
Lemma truncate_floor (q : Q) :
  (0 <= q)%Q ->
  (inject_Z (truncate q) <= q <= inject_Z (truncate q + 1))%Q.
Proof.
  destruct q as [a d]. unfold Qle, truncate; simpl. intros Ha.
  rewrite Z.mul_1_r in Ha. rewrite !Z.mul_1_r.
  rewrite Z.quot_div_nonneg by lia.
  pose proof (Z.mul_div_le a (Zpos d) ltac:(lia)).
  pose proof (Z.mul_succ_div_gt a (Zpos d) ltac:(lia)).
  split; nia.
Qed.

(** The start index of a page between 1 and [tp] is a value between 0 and
    [(tp - 1) * pageSize]. *)
Lemma startIndex_bounds (c : Q) (pageSize tp : Z) :
  0 < pageSize -> 1 <= tp -> (tp - 1) * pageSize < 2 ^ 53 ->
  (1 <= c <= inject_Z tp)%Q ->
  exists q : Q,
    mul (sub (Finite c) (ofZ 1)) (ofZ pageSize) = Finite q
    /\ (inject_Z 0 <= q <= inject_Z ((tp - 1) * pageSize))%Q.
Proof.
  intros Hps Htp Hbig [Hc1 Hc2].
  eexists. split; [reflexivity|].
  assert (Hp0 : (0 <= inject_Z pageSize)%Q) by (unfold Qle; simpl; lia).
  assert (Hs1 : (inject_Z 0 <= double (c + - inject_Z 1)
                 <= inject_Z (tp - 1))%Q).
  { apply double_between; [lia|nia|].
    unfold Z.sub. rewrite inject_Z_plus, inject_Z_opp.
    change (inject_Z 0) with 0%Q. change (inject_Z 1) with 1%Q.
    split; lra. }
  revert Hs1. generalize (double (c + - inject_Z 1)). intros s1 Hs1.
  apply double_between; [lia|lia|].
  rewrite inject_Z_mult. change (inject_Z 0) with 0%Q in *. split.
  - apply Qmult_le_0_compat; [apply Hs1|exact Hp0].
  - apply Qmult_le_compat_r; [apply Hs1|exact Hp0].
Qed.

(** [slice(start, start + pageSize)] at a non-negative start: a block of
    [pageSize] items, or of [pageSize + 1] when the sum rounds to the next
    integer. *)
Lemma slice_window (l : list T) (q : Q) (pageSize M : Z) :
  0 < pageSize -> M + pageSize + 1 < 2 ^ 53 ->
  (inject_Z 0 <= q <= inject_Z M)%Q ->
  exists k n : nat,
    slice l (Finite q) (add (Finite q) (ofZ pageSize))
    = take n (drop k l)
    /\ pageSize <= Z.of_nat n <= pageSize + 1.
Proof.
  intros Hps Hbig Hq. change (inject_Z 0) with 0%Q in Hq.
  pose proof (truncate_floor q (proj1 Hq)) as Hfl.
  assert (Ht : 0 <= truncate q <= M)
    by (apply truncate_between; [lia|exact Hq]).
  unfold add, ofZ.
  assert (Hs3 : (inject_Z (truncate q + pageSize)
                 <= double (q + inject_Z pageSize)
                 <= inject_Z (truncate q + 1 + pageSize))%Q).
  { apply double_between; [lia|lia|].
    rewrite !inject_Z_plus. rewrite inject_Z_plus in Hfl.
    split; lra. }
  revert Hs3. generalize (double (q + inject_Z pageSize)). intros s3 Hs3.
  assert (Hu : truncate q + pageSize <= truncate s3
               <= truncate q + 1 + pageSize)
    by (apply truncate_between; [lia|exact Hs3]).
  unfold slice, relativeIndex.
  revert Ht Hu. generalize (truncate s3) (truncate q). clear - Hps.
  intros u t Ht Hu.
  destruct (Z.ltb_spec t 0) as [?|_]; [lia|].
  destruct (Z.ltb_spec u 0) as [?|_]; [lia|].
  exists (Z.to_nat t), (Z.to_nat (u - t)). split; [|lia].
  replace u with (t + (u - t)) at 1 by lia.
  apply slice_block; lia.
Qed.

(** X1: whatever the page parameter reads as, the nodes on display are one
    block of consecutive items of the chunk, cut at its end: the items from
    some position on, [pageSize] of them or, when the rounding of a
    fractional page puts the end of the window on the next integer,
    [pageSize + 1]. *)
Theorem X1_visibleNodes_is_a_block (StringToNumber : string -> number)
    (pageSize : Z) (loc : location) (nodes : list T) :
  0 < pageSize ->
  Z.of_nat (length nodes) + 2 * pageSize < 2 ^ 53 ->
  (exists k n : nat,
     visibleNodes StringToNumber pageSize loc nodes = take n (drop k nodes)
     /\ pageSize <= Z.of_nat n <= pageSize + 1)
  /\ Z.of_nat (length (visibleNodes StringToNumber pageSize loc nodes))
     <= pageSize + 1.
Proof.
  intros Hps Hbig.
  assert (H : exists k n : nat,
             visibleNodes StringToNumber pageSize loc nodes
             = take n (drop k nodes)
             /\ pageSize <= Z.of_nat n <= pageSize + 1).
  { destruct (currentPage_finite StringToNumber pageSize loc nodes)
      as (c & Ec & Hc).
    pose proof (totalPages_ge_1 pageSize nodes) as Hge.
    destruct (totalPages_bounds pageSize nodes Hps) as [_ Hlast].
    cbv zeta in Hlast.
    assert (Htp : (totalPages pageSize nodes - 1) * pageSize
                  <= Z.of_nat (length nodes)).
    { destruct (Z.eq_dec (totalPages pageSize nodes) 1) as [->|N]; [lia|].
      specialize (Hlast ltac:(lia)). lia. }
    destruct (startIndex_bounds c pageSize (totalPages pageSize nodes)
                Hps Hge ltac:(lia) Hc) as (q & Eq & Hq).
    unfold visibleNodes, endIndex, startIndex. rewrite Ec, Eq.
    apply slice_window with (M := (totalPages pageSize nodes - 1) * pageSize);
      [exact Hps|lia|exact Hq]. }
  split; [exact H|]. destruct H as (k & n & -> & Hn).
  rewrite length_take. lia.
Qed.

End WindowFacts.

Section NavigationFacts.

Import JS Paginator Navigation.

Variable StringToNumber : string -> number.
Variable NumberToString : Q -> string.
Variable pageSize : Z.
Variable loc : location.
Context {T : Type}.
Variable nodes : list T.
Variable info : pageInfo.

Lemma String_integer (z : Z) :
  Z.abs z < 10 ^ 21 -> String_ NumberToString (ofZ z) = decimal z.
Proof.
  intros Hz. unfold String_, ofZ, inject_Z, Qfloor.
  rewrite Z.div_1_r.
  assert (E : Qeq_bool (z # 1) (inject_Z z) = true)
    by (apply Qeq_bool_iff; reflexivity).
  unfold inject_Z in E. rewrite E.
  apply Z.ltb_lt in Hz. now rewrite Hz.
Qed.

Lemma Number_decimal (z : Z) :
  0 < z < 10 ^ 15 -> Number StringToNumber (decimal z) = ofZ z.
Proof. intros Hz. unfold Number. now rewrite decimalLiteral_decimal. Qed.

(** The current page at a location whose page parameter is the decimal text
    of an integer within the range of pages. *)
Lemma currentPage_decimal (l : location) (p : Z) :
  1 <= p <= totalPages pageSize nodes ->
  totalPages pageSize nodes < 10 ^ 15 ->
  URLSearchParams.get "page" (search l) = Some (decimal p) ->
  currentPage StringToNumber pageSize l nodes = ofZ p.
Proof.
  intros Hp Hbig Hget.
  unfold currentPage, requestedPage, searchParams. rewrite Hget.
  assert (Hlit : decimalLiteral (decimal p) = Some p)
    by (apply decimalLiteral_decimal; lia).
  unfold or_string. rewrite (decimalLiteral_truthy _ _ Hlit).
  unfold Number. rewrite Hlit.
  unfold or_number, truthy, ofZ.
  assert (E0 : Qeq_bool (inject_Z p) 0 = false).
  { destruct (Qeq_bool (inject_Z p) 0) eqn:E; [|reflexivity].
    apply Qeq_bool_iff in E. unfold Qeq in E. simpl in E. lia. }
  rewrite E0. cbn [negb].
  assert (E1 : Qle_bool (inject_Z 1) (inject_Z p) = true).
  { apply Qle_bool_iff. unfold Qle; simpl. lia. }
  assert (E2 : Qle_bool (inject_Z p) (inject_Z (totalPages pageSize nodes))
               = true).
  { apply Qle_bool_iff. unfold Qle; simpl. lia. }
  cbn [Math_max]. rewrite E1. cbn [Math_min]. now rewrite E2.
Qed.

Lemma chunkParams_follow (n : number) :
  chunkParams (follow (buildPageUrlInChunk NumberToString loc n))
  = chunkParams loc.
Proof.
  pose proof (buildPageUrlInChunk_cursor NumberToString loc n) as E.
  set (u := buildPageUrlInChunk NumberToString loc n) in *.
  unfold chunkParams at 1. unfold chunkCursor, chunkDirection, searchParams.
  change (search (follow u)) with (params u).
  change (URLSearchParams.get "cursor" (params u)) with (fst (cursorParams u)).
  change (URLSearchParams.get "direction" (params u))
    with (snd (cursorParams u)).
  rewrite E. unfold chunkParams.
  destruct (chunkCursor loc) as [c|], (chunkDirection loc) as [d|];
    try reflexivity.
  destruct (truthy_string c && truthy_string d) eqn:Et; [|reflexivity].
  simpl. now rewrite Et.
Qed.

(** The current page at a location whose page parameter is the decimal text
    of a positive integer, on any list of items: that page, or the last
    page of the list when it has fewer. *)
Lemma currentPage_decimal_clamped {U : Type} (arrived : list U)
    (l : location) (p : Z) :
  1 <= p < 10 ^ 15 ->
  URLSearchParams.get "page" (search l) = Some (decimal p) ->
  currentPage StringToNumber pageSize l arrived
  = ofZ (Z.min p (totalPages pageSize arrived)).
Proof.
  intros Hp Hget.
  unfold currentPage, requestedPage, searchParams. rewrite Hget.
  assert (Hlit : decimalLiteral (decimal p) = Some p)
    by (apply decimalLiteral_decimal; lia).
  unfold or_string. rewrite (decimalLiteral_truthy _ _ Hlit).
  unfold Number. rewrite Hlit.
  unfold or_number, truthy, ofZ.
  assert (E0 : Qeq_bool (inject_Z p) 0 = false).
  { destruct (Qeq_bool (inject_Z p) 0) eqn:E; [|reflexivity].
    apply Qeq_bool_iff in E. unfold Qeq in E. simpl in E. lia. }
  rewrite E0. cbn [negb].
  assert (E1 : Qle_bool (inject_Z 1) (inject_Z p) = true).
  { apply Qle_bool_iff. unfold Qle; simpl. lia. }
  cbn [Math_max]. rewrite E1. cbn [Math_min].
  destruct (Qle_bool (inject_Z p) (inject_Z (totalPages pageSize arrived)))
    eqn:E2.
  - apply Qle_bool_iff in E2. unfold Qle in E2; simpl in E2.
    do 2 f_equal. lia.
  - apply Qle_bool_false in E2. unfold Qlt in E2; simpl in E2.
    do 2 f_equal. lia.
Qed.

(** What the location reached through an in-chunk link reads as its cursor
    and direction: those of the current location when it has both with a
    non-empty value, and neither otherwise. *)
Lemma chunkCursor_follow (n : number) :
  (chunkCursor (follow (buildPageUrlInChunk NumberToString loc n)),
   chunkDirection (follow (buildPageUrlInChunk NumberToString loc n)))
  = chunkParams loc.
Proof. exact (buildPageUrlInChunk_cursor NumberToString loc n). Qed.

(** X2: a link of the page-number strip leads where it says. At the
    location it points to, the current page is the entry's page number on
    the items of the current chunk, and on any items the loader returns
    there it is that page number or the last page they have; the cursor and
    direction parameters read there are those of the current location when
    it has both with a non-empty value, and are absent otherwise; the
    pathname and the other parameters are those of the current location. *)
Theorem X2_page_link_round_trip (e : pageEntry) :
  totalPages pageSize nodes < 10 ^ 15 ->
  In e (pageEntries StringToNumber NumberToString pageSize loc nodes) ->
  currentPage StringToNumber pageSize (follow (pageUrl e)) nodes
  = ofZ (pageNumber e)
  /\ (forall (U : Type) (arrived : list U),
        currentPage StringToNumber pageSize (follow (pageUrl e)) arrived
        = ofZ (Z.min (pageNumber e) (totalPages pageSize arrived)))
  /\ (chunkCursor (follow (pageUrl e)), chunkDirection (follow (pageUrl e)))
     = chunkParams loc
  /\ pathname (follow (pageUrl e)) = pathname loc
  /\ otherParams (search (follow (pageUrl e))) = otherParams (search loc).
Proof.
  intros Hbig He. unfold pageEntries in He.
  apply in_map_iff in He as (i & <- & Hi). apply in_seq in Hi.
  cbn [pageUrl pageNumber].
  assert (Hpage : URLSearchParams.get "page"
                    (search (follow (buildPageUrlInChunk NumberToString loc
                                       (ofZ (Z.of_nat i + 1)))))
                  = Some (decimal (Z.of_nat i + 1))).
  { change (search (follow ?u)) with (params u).
    unfold buildPageUrlInChunk. rewrite buildPageUrl_page. f_equal.
    apply String_integer.
    assert (10 ^ 15 < 10 ^ 21) by reflexivity. lia. }
  split; [|split; [|split; [apply chunkCursor_follow|split]]].
  - apply currentPage_decimal; [lia|exact Hbig|exact Hpage].
  - intros U arrived.
    apply currentPage_decimal_clamped; [lia|exact Hpage].
  - reflexivity.
  - apply buildPageUrl_otherParams.
Qed.

(** X3: from an integer current page, the next link inside the chunk leads
    to the page after it and the previous link to the page before it: on
    the items of the current chunk, and on any items the loader returns
    there up to the last page they have. The cursor and direction
    parameters read at the target are those of the current location when it
    has both with a non-empty value, and are absent otherwise. *)
Theorem X3_in_chunk_next_and_previous (p : Z) :
  totalPages pageSize nodes < 10 ^ 15 ->
  currentPage StringToNumber pageSize loc nodes = ofZ p ->
  (hasNextPageInChunk StringToNumber pageSize loc nodes = true ->
   exists u,
     nextUrl StringToNumber NumberToString pageSize loc nodes info = Some u
     /\ URLSearchParams.get "page" (params u) = Some (decimal (p + 1))
     /\ currentPage StringToNumber pageSize (follow u) nodes = ofZ (p + 1)
     /\ (forall (U : Type) (arrived : list U),
           currentPage StringToNumber pageSize (follow u) arrived
           = ofZ (Z.min (p + 1) (totalPages pageSize arrived)))
     /\ (chunkCursor (follow u), chunkDirection (follow u))
        = chunkParams loc)
  /\ (hasPreviousPageInChunk StringToNumber pageSize loc nodes = true ->
      exists u,
        prevUrl StringToNumber NumberToString pageSize loc nodes info = Some u
        /\ URLSearchParams.get "page" (params u) = Some (decimal (p - 1))
        /\ currentPage StringToNumber pageSize (follow u) nodes = ofZ (p - 1)
        /\ (forall (U : Type) (arrived : list U),
              currentPage StringToNumber pageSize (follow u) arrived
              = ofZ (Z.min (p - 1) (totalPages pageSize arrived)))
        /\ (chunkCursor (follow u), chunkDirection (follow u))
           = chunkParams loc).
Proof.
  intros Hbig Hcur.
  assert (H21 : 10 ^ 15 < 10 ^ 21) by reflexivity.
  pose proof (totalPages_ge_1 pageSize nodes) as Htp.
  destruct (currentPage_finite StringToNumber pageSize loc nodes)
    as (q & Eq & Hq1 & Hq2).
  rewrite Hcur in Eq. injection Eq as <-.
  unfold Qle in Hq1, Hq2; simpl in Hq1, Hq2.
  split; intros H.
  - unfold nextUrl. rewrite H. eexists. split; [reflexivity|].
    unfold hasNextPageInChunk in H. rewrite Hcur in *.
    unfold lt, ofZ in H. apply negb_true_iff, Qle_bool_false in H.
    unfold Qlt in H; simpl in H.
    rewrite add_ofZ.
    assert (Hpage : URLSearchParams.get "page"
                      (params (buildPageUrlInChunk NumberToString loc
                                 (ofZ (p + 1))))
                    = Some (decimal (p + 1))).
    { unfold buildPageUrlInChunk. rewrite buildPageUrl_page. f_equal.
      apply String_integer. lia. }
    split; [exact Hpage|].
    split; [apply currentPage_decimal; [lia|exact Hbig|exact Hpage]|].
    split; [|apply chunkCursor_follow].
    intros U arrived. apply currentPage_decimal_clamped; [lia|exact Hpage].
  - unfold prevUrl. rewrite H. eexists. split; [reflexivity|].
    unfold hasPreviousPageInChunk in H. rewrite Hcur in *.
    unfold lt, ofZ in H. apply negb_true_iff, Qle_bool_false in H.
    unfold Qlt in H; simpl in H.
    rewrite sub_ofZ.
    assert (Hpage : URLSearchParams.get "page"
                      (params (buildPageUrlInChunk NumberToString loc
                                 (ofZ (p - 1))))
                    = Some (decimal (p - 1))).
    { unfold buildPageUrlInChunk. rewrite buildPageUrl_page. f_equal.
      apply String_integer. lia. }
    split; [exact Hpage|].
    split; [apply currentPage_decimal; [lia|exact Hbig|exact Hpage]|].
    split; [|apply chunkCursor_follow].
    intros U arrived. apply currentPage_decimal_clamped; [lia|exact Hpage].
Qed.

End NavigationFacts.

Section ParamCountFacts.

Import Paginator Navigation.

Lemma paramCount_delete_same (k : string) (l : URLSearchParams.t) :
  paramCount k (URLSearchParams.delete k l) = 0%nat.
Proof.
  unfold paramCount, URLSearchParams.delete.
  induction l as [|[k0 v0] r IH]; simpl; [reflexivity|].
  destruct (String.eqb_spec k0 k) as [->|Hne]; simpl; [exact IH|].
  destruct (String.eqb_spec k0 k); [contradiction|exact IH].
Qed.

Lemma paramCount_delete_other (k k' : string) (l : URLSearchParams.t) :
  k <> k' ->
  paramCount k' (URLSearchParams.delete k l) = paramCount k' l.
Proof.
  intros Hne. unfold paramCount, URLSearchParams.delete.
  induction l as [|[k0 v0] r IH]; simpl; [reflexivity|].
  destruct (String.eqb_spec k0 k) as [->|Hk0]; simpl.
  - destruct (String.eqb_spec k k'); [contradiction|exact IH].
  - destruct (String.eqb_spec k0 k'); simpl; now rewrite IH.
Qed.

Lemma paramCount_set_same (k v : string) (l : URLSearchParams.t) :
  paramCount k (URLSearchParams.set k v l) = 1%nat.
Proof.
  induction l as [|[k0 v0] r IH]; unfold paramCount in *; simpl.
  - now rewrite String.eqb_refl.
  - destruct (String.eqb_spec k0 k) as [->|Hk0]; simpl.
    + rewrite String.eqb_refl. simpl. f_equal.
      apply (paramCount_delete_same k r).
    + destruct (String.eqb_spec k0 k); [contradiction|exact IH].
Qed.

Lemma paramCount_set_other (k k' v : string) (l : URLSearchParams.t) :
  k <> k' ->
  paramCount k' (URLSearchParams.set k v l) = paramCount k' l.
Proof.
  intros Hne. induction l as [|[k0 v0] r IH]; unfold paramCount in *; simpl.
  - destruct (String.eqb_spec k k'); [contradiction|reflexivity].
  - destruct (String.eqb_spec k0 k) as [->|Hk0]; simpl.
    + destruct (String.eqb_spec k k'); [contradiction|].
      now apply (paramCount_delete_other k k' r).
    + destruct (String.eqb_spec k0 k'); simpl; now rewrite IH.
Qed.

(** X4: whatever the current query holds (repeated parameters included), a
    URL built by [buildPageUrl] has exactly one page parameter, and its
    cursor and direction parameters come as a pair: one of each, or none. *)
Theorem X4_built_url_has_no_repeated_parameter
    (NumberToString : Q -> string) (loc : location) (n : JS.number)
    (c d : option string) :
  paramCount "page" (params (buildPageUrl NumberToString loc n c d)) = 1%nat
  /\ ((paramCount "cursor" (params (buildPageUrl NumberToString loc n c d)),
       paramCount "direction" (params (buildPageUrl NumberToString loc n c d)))
      = (1%nat, 1%nat)
      \/ (paramCount "cursor" (params (buildPageUrl NumberToString loc n c d)),
          paramCount "direction"
            (params (buildPageUrl NumberToString loc n c d)))
         = (0%nat, 0%nat)).
Proof.
  unfold buildPageUrl; cbn [params].
  set (l := URLSearchParams.set "page" (String_ NumberToString n) (search loc)).
  assert (Hdel :
    paramCount "page"
      (URLSearchParams.delete "direction" (URLSearchParams.delete "cursor" l))
    = 1%nat
    /\ (paramCount "cursor"
          (URLSearchParams.delete "direction"
             (URLSearchParams.delete "cursor" l)),
        paramCount "direction"
          (URLSearchParams.delete "direction"
             (URLSearchParams.delete "cursor" l))) = (0%nat, 0%nat)).
  { rewrite !paramCount_delete_other by discriminate.
    rewrite !paramCount_delete_same. split; [|reflexivity].
    apply paramCount_set_same. }
  destruct c as [c|], d as [d|];
    try (split; [apply Hdel|right; apply Hdel]).
  destruct (JS.truthy_string c && JS.truthy_string d);
    [|split; [apply Hdel|right; apply Hdel]].
  split.
  - rewrite !paramCount_set_other by discriminate. apply paramCount_set_same.
  - left. rewrite paramCount_set_same.
    rewrite paramCount_set_other by discriminate.
    now rewrite paramCount_set_same.
Qed.

End ParamCountFacts.

Section ChunkFacts.

Import JS Paginator Navigation.

Context {T : Type}.
Variable StringToNumber : string -> number.
Variable nodes : list T.

(** X5: a chunk that fits on one page is shown whole, whatever the page
    parameter: there is one page, the nodes on display are all the nodes,
    and neither link stays inside the chunk. *)
Theorem X5_single_page_chunk (pageSize : Z) (loc : location) :
  0 < pageSize ->
  Z.of_nat (length nodes) <= pageSize ->
  totalPages pageSize nodes = 1
  /\ visibleNodes StringToNumber pageSize loc nodes = nodes
  /\ hasNextPageInChunk StringToNumber pageSize loc nodes = false
  /\ hasPreviousPageInChunk StringToNumber pageSize loc nodes = false.
Proof.
  intros Hps Hlen.
  assert (Htp : totalPages pageSize nodes = 1).
  { destruct (totalPages_bounds pageSize nodes Hps) as [_ Hlast].
    pose proof (totalPages_ge_1 pageSize nodes).
    destruct (Z.eq_dec (totalPages pageSize nodes) 1) as [E|N]; [exact E|].
    assert (1 < totalPages pageSize nodes) by lia.
    specialize (Hlast ltac:(assumption)). nia. }
  split; [exact Htp|].
  destruct (currentPage_finite StringToNumber pageSize loc nodes)
    as (q & Eq & Hq1 & Hq2).
  rewrite Htp in Hq2. change (inject_Z 1) with 1%Q in Hq2.
  assert (Hq : (q == 1)%Q) by (apply Qle_antisym; assumption).
  split; [|split].
  - unfold visibleNodes, endIndex, startIndex. rewrite Eq.
    unfold mul, sub, add, neg, ofZ.
    rewrite (double_integer (q + - inject_Z 1) 0)
      by (rewrite Hq; reflexivity).
    rewrite (double_integer (inject_Z 0 * inject_Z pageSize) 0)
      by (change (inject_Z 0) with 0%Q; ring).
    rewrite (double_integer (inject_Z 0 + inject_Z pageSize) pageSize)
      by (change (inject_Z 0) with 0%Q; ring).
    assert (E1 : truncate (inject_Z pageSize) = pageSize)
      by (unfold truncate, inject_Z; simpl; apply Z.quot_1_r).
    unfold slice, relativeIndex. rewrite E1.
    change (truncate (inject_Z 0)) with 0.
    destruct (Z.ltb_spec 0 0) as [?|_]; [lia|].
    destruct (Z.ltb_spec pageSize 0) as [?|_]; [lia|].
    rewrite (Z.min_l 0) by lia. rewrite Z.sub_0_r. simpl drop.
    apply take_ge. lia.
  - unfold hasNextPageInChunk. rewrite Eq, Htp. unfold lt, ofZ.
    apply negb_false_iff, Qle_bool_iff. exact Hq1.
  - unfold hasPreviousPageInChunk. rewrite Eq. unfold lt, ofZ.
    apply negb_false_iff, Qle_bool_iff. exact Hq2.
Qed.

(** X6: in a chunk of at most [PAGE_SIZE * PAGES_PER_CHUNK] products there
    are at most [PAGES_PER_CHUNK] pages, exactly that many when the chunk is
    full; and the links that leave a chunk arrive at the near end of the
    chunk they lead to: the next-chunk link on its first page, the
    previous-chunk link on its last page, also when that chunk is not
    full. *)
Theorem X6_cross_chunk_links_arrive_at_the_near_end :
  Z.of_nat (length nodes) <= chunkSize ->
  totalPages PAGE_SIZE nodes <= PAGES_PER_CHUNK
  /\ (Z.of_nat (length nodes) = chunkSize ->
      totalPages PAGE_SIZE nodes = PAGES_PER_CHUNK)
  /\ (forall (NumberToString : Q -> string) (loc : location) (S : Type)
             (shown : list S) (info : pageInfo) (u : href),
        hasNextPageInChunk StringToNumber PAGE_SIZE loc shown = false ->
        nextUrl StringToNumber NumberToString PAGE_SIZE loc shown info
        = Some u ->
        currentPage StringToNumber PAGE_SIZE (follow u) nodes = ofZ 1)
  /\ (forall (NumberToString : Q -> string) (loc : location) (S : Type)
             (shown : list S) (info : pageInfo) (u : href),
        hasPreviousPageInChunk StringToNumber PAGE_SIZE loc shown = false ->
        prevUrl StringToNumber NumberToString PAGE_SIZE loc shown info
        = Some u ->
        currentPage StringToNumber PAGE_SIZE (follow u) nodes
        = ofZ (totalPages PAGE_SIZE nodes)).
Proof.
  intros Hlen. unfold chunkSize, PAGE_SIZE, PAGES_PER_CHUNK in *.
  assert (Hps : 0 < 50) by lia.
  destruct (totalPages_bounds 50 nodes Hps) as [Hall Hlast].
  pose proof (totalPages_ge_1 50 nodes) as Hge.
  simpl in Hall, Hlast.
  assert (Hle : totalPages 50 nodes <= 4).
  { destruct (Z_le_gt_dec (totalPages 50 nodes) 4) as [?|Hgt]; [assumption|].
    specialize (Hlast ltac:(lia)). lia. }
  split; [exact Hle|]. split; [intros Hfull; lia|]. split.
  - intros NumberToString loc S shown info u Hin Hu.
    unfold nextUrl in Hu. rewrite Hin in Hu.
    destruct (hasNextPage info && present (endCursor info));
      [|discriminate].
    injection Hu as <-.
    assert (H15 : totalPages 50 nodes < 10 ^ 15)
      by (assert (4 < 10 ^ 15) by reflexivity; lia).
    apply currentPage_decimal; [lia|exact H15|].
    change (search (follow ?u)) with (params u).
    rewrite buildPageUrl_page. reflexivity.
  - intros NumberToString loc S shown info u Hin Hu.
    unfold prevUrl in Hu. rewrite Hin in Hu.
    destruct (hasPreviousPage info && present (startCursor info));
      [|discriminate].
    injection Hu as <-.
    assert (Hget : URLSearchParams.get "page"
                     (params (buildPageUrl NumberToString loc
                                (ofZ PAGES_PER_CHUNK) (startCursor info)
                                (Some "previous")))
                   = Some (decimal 4)).
    { rewrite buildPageUrl_page. reflexivity. }
    unfold currentPage, requestedPage, searchParams.
    change (search (follow ?u)) with (params u).
    rewrite Hget.
    change (Number StringToNumber (or_string (Some (decimal 4)) "1"))
      with (ofZ 4).
    change (or_number (ofZ 4) (ofZ 1)) with (ofZ 4).
    change (Math_max (ofZ 1) (ofZ 4)) with (ofZ 4).
    unfold Math_min, ofZ.
    destruct (Qle_bool (inject_Z 4) (inject_Z (totalPages 50 nodes))) eqn:E;
      [|reflexivity].
    apply Qle_bool_iff in E. unfold Qle in E; simpl in E.
    do 2 f_equal. lia.
Qed.

End ChunkFacts.

Section PageStripFacts.

Import JS Paginator Navigation.

Variable StringToNumber : string -> number.
Variable NumberToString : Q -> string.
Variable pageSize : Z.
Variable loc : location.
Context {T : Type}.
Variable nodes : list T.

(** X7: the page-number strip has one entry for each page of the chunk,
    numbered from 1 to [totalPages]; at most one entry is active, and when
    the current page is an integer the entry with that number is there and
    is the active one. *)
Theorem X7_page_strip_marks_the_current_page :
  Z.of_nat (length (pageEntries StringToNumber NumberToString pageSize loc
                      nodes))
  = totalPages pageSize nodes
  /\ (forall e,
        In e (pageEntries StringToNumber NumberToString pageSize loc nodes) ->
        1 <= pageNumber e <= totalPages pageSize nodes)
  /\ (forall e1 e2,
        In e1 (pageEntries StringToNumber NumberToString pageSize loc nodes) ->
        In e2 (pageEntries StringToNumber NumberToString pageSize loc nodes) ->
        isActive e1 = true -> isActive e2 = true -> e1 = e2)
  /\ (forall p,
        currentPage StringToNumber pageSize loc nodes = ofZ p ->
        exists e,
          In e (pageEntries StringToNumber NumberToString pageSize loc nodes)
          /\ pageNumber e = p /\ isActive e = true).
Proof.
  pose proof (totalPages_ge_1 pageSize nodes) as Htp.
  unfold pageEntries.
  split; [rewrite length_map, length_seq; lia|].
  split; [|split].
  - intros e He. apply in_map_iff in He as (i & <- & Hi).
    apply in_seq in Hi. cbn [pageNumber]. lia.
  - intros e1 e2 H1 H2.
    apply in_map_iff in H1 as (i1 & <- & _).
    apply in_map_iff in H2 as (i2 & <- & _).
    cbn [isActive].
    destruct (currentPage StringToNumber pageSize loc nodes) as [| | |q];
      try discriminate.
    unfold strict_eq, ofZ. intros E1 E2.
    apply Qeq_bool_iff in E1, E2.
    assert (E : (inject_Z (Z.of_nat i1 + 1) == inject_Z (Z.of_nat i2 + 1))%Q)
      by (now rewrite E1, E2).
    unfold Qeq in E; simpl in E.
    assert (i1 = i2) by lia. now subst i2.
  - intros p Hp.
    destruct (currentPage_finite StringToNumber pageSize loc nodes)
      as (q & Eq & Hq1 & Hq2).
    rewrite Hp in Eq. injection Eq as <-.
    unfold Qle in Hq1, Hq2; simpl in Hq1, Hq2.
    eexists. split.
    + apply in_map_iff. exists (Z.to_nat (p - 1)). split; [reflexivity|].
      apply in_seq. lia.
    + cbn [pageNumber isActive].
      replace (Z.of_nat (Z.to_nat (p - 1)) + 1) with p by lia.
      split; [reflexivity|]. rewrite Hp. unfold strict_eq, ofZ.
      apply Qeq_bool_iff. reflexivity.
Qed.

End PageStripFacts.

Section PaginatorFurtherExamples.

Import JS Paginator Navigation.

(** At [?page=1.2] on sixty items the window is [slice(9, 60)]: the start
    index rounds to 9.999999999999998 and the end index to 60. *)
Lemma X1_witness :
  ((exists k n : nat,
      visibleNodes fractionLiteral PAGE_SIZE (firstChunk "1.2") sixtyItems
      = take n (drop k sixtyItems)
      /\ PAGE_SIZE <= Z.of_nat n <= PAGE_SIZE + 1)
   /\ Z.of_nat
        (length
           (visibleNodes fractionLiteral PAGE_SIZE (firstChunk "1.2")
              sixtyItems))
      <= PAGE_SIZE + 1)
  /\ visibleNodes fractionLiteral PAGE_SIZE (firstChunk "1.2") sixtyItems
     = List.seq 9 51.
Proof.
  split; [|vm_compute; reflexivity].
  apply (X1_visibleNodes_is_a_block fractionLiteral PAGE_SIZE
           (firstChunk "1.2") sixtyItems).
  - reflexivity.
  - vm_compute; reflexivity.
Defined.

(** On the chunk reached with cursor [abc], every link of the strip keeps
    the cursor and the direction; from a URL that has a cursor and no
    direction, the links carry neither. *)
Lemma X2_witness :
  List.Forall
    (fun e =>
       currentPage noOtherLiteral PAGE_SIZE (follow (pageUrl e)) hundredItems
       = ofZ (pageNumber e)
       /\ (forall (U : Type) (arrived : list U),
             currentPage noOtherLiteral PAGE_SIZE (follow (pageUrl e)) arrived
             = ofZ (Z.min (pageNumber e) (totalPages PAGE_SIZE arrived)))
       /\ (chunkCursor (follow (pageUrl e)),
           chunkDirection (follow (pageUrl e)))
          = chunkParams laterChunk
       /\ pathname (follow (pageUrl e)) = pathname laterChunk
       /\ otherParams (search (follow (pageUrl e)))
          = otherParams (search laterChunk))
    (pageEntries noOtherLiteral noFraction PAGE_SIZE laterChunk hundredItems)
  /\ chunkParams laterChunk = (Some "abc", Some "next")
  /\ chunkCursor cursorOnly = Some "abc"
  /\ chunkParams cursorOnly = (None, None).
Proof.
  split; [|repeat split].
  apply List.Forall_forall. intros e He.
  apply (X2_page_link_round_trip noOtherLiteral noFraction PAGE_SIZE
           laterChunk hundredItems e); [|exact He].
  vm_compute; reflexivity.
Defined.

Lemma X3_witness :
  exists u,
    nextUrl noOtherLiteral noFraction PAGE_SIZE laterChunk hundredItems
      middleInfo = Some u
    /\ URLSearchParams.get "page" (params u) = Some (decimal 2)
    /\ currentPage noOtherLiteral PAGE_SIZE (follow u) hundredItems = ofZ 2
    /\ (forall (U : Type) (arrived : list U),
          currentPage noOtherLiteral PAGE_SIZE (follow u) arrived
          = ofZ (Z.min 2 (totalPages PAGE_SIZE arrived)))
    /\ (chunkCursor (follow u), chunkDirection (follow u))
       = chunkParams laterChunk.
Proof.
  assert (H1 : totalPages PAGE_SIZE hundredItems < 10 ^ 15)
    by (vm_compute; reflexivity).
  assert (H2 : currentPage noOtherLiteral PAGE_SIZE laterChunk
                 hundredItems = ofZ 1)
    by (vm_compute; reflexivity).
  apply (proj1 (X3_in_chunk_next_and_previous noOtherLiteral noFraction
                  PAGE_SIZE laterChunk hundredItems middleInfo 1
                  H1 H2)).
  vm_compute; reflexivity.
Defined.

Lemma X5_witness :
  totalPages PAGE_SIZE (List.seq 0 3) = 1
  /\ visibleNodes noOtherLiteral PAGE_SIZE (firstChunk "7") (List.seq 0 3)
     = List.seq 0 3
  /\ hasNextPageInChunk noOtherLiteral PAGE_SIZE (firstChunk "7")
       (List.seq 0 3) = false
  /\ hasPreviousPageInChunk noOtherLiteral PAGE_SIZE (firstChunk "7")
       (List.seq 0 3) = false.
Proof.
  apply (X5_single_page_chunk noOtherLiteral (List.seq 0 3) PAGE_SIZE
           (firstChunk "7")).
  - reflexivity.
  - vm_compute; discriminate.
Defined.

Lemma X6_witness :
  totalPages PAGE_SIZE (List.seq 0 120) = 3
  /\ exists u,
       prevUrl noOtherLiteral noFraction PAGE_SIZE (firstChunk "1")
         hundredItems middleInfo = Some u
       /\ currentPage noOtherLiteral PAGE_SIZE (follow u) (List.seq 0 120)
          = ofZ (totalPages PAGE_SIZE (List.seq 0 120)).
Proof.
  split; [vm_compute; reflexivity|].
  eexists. split; [vm_compute; reflexivity|].
  destruct (X6_cross_chunk_links_arrive_at_the_near_end noOtherLiteral
              (List.seq 0 120))
    as (_ & _ & _ & Hprev); [vm_compute; discriminate|].
  apply (Hprev noFraction (firstChunk "1") nat hundredItems middleInfo);
    vm_compute; reflexivity.
Defined.

End PaginatorFurtherExamples.

(** * Further properties of the image carousel *)

Section ImageListFacts.

Import Carousel.

Lemma findIndexFrom_found (f : image -> bool) (l : list image) (k : Z) :
  0 <= k -> existsb f l = true ->
  exists im,
    imageAt l (findIndexFrom f l k - k) = Some im /\ f im = true
    /\ k <= findIndexFrom f l k.
Proof.
  revert k. induction l as [|x l IH]; intros k Hk Hex; simpl in *;
    [discriminate|].
  destruct (f x) eqn:Hfx.
  - exists x. rewrite Z.sub_diag. now repeat split.
  - simpl in Hex. destruct (IH (k + 1) ltac:(lia) Hex) as (im & Him & Hf & Hge).
    exists im. split; [|split; [exact Hf|lia]].
    unfold imageAt in *.
    destruct (Z.ltb_spec (findIndexFrom f l (k + 1) - (k + 1)) 0); [lia|].
    destruct (Z.ltb_spec (findIndexFrom f l (k + 1) - k) 0); [lia|].
    replace (Z.to_nat (findIndexFrom f l (k + 1) - k))
      with (S (Z.to_nat (findIndexFrom f l (k + 1) - (k + 1)))) by lia.
    exact Him.
Qed.

Lemma sameId_refl (v : image) : sameId v v = true.
Proof. apply String.eqb_refl. Qed.

Lemma imagesOf_has_variant (base : list image) (v : image) :
  existsb (fun image => sameId image v) (imagesOf base (Some v)) = true.
Proof.
  unfold imagesOf.
  destruct (existsb (fun image => sameId image v) base) eqn:E; [exact E|].
  simpl. now rewrite sameId_refl.
Qed.

(** [findIndex] finds the variant's image in the memoised list. *)
Lemma findIndex_variant (base : list image) (v : image) :
  exists im,
    imageAt (imagesOf base (Some v))
      (findIndex (fun image => sameId image v) (imagesOf base (Some v)))
    = Some im
    /\ id im = id v.
Proof.
  destruct (findIndexFrom_found (fun image => sameId image v)
              (imagesOf base (Some v)) 0 ltac:(lia)
              (imagesOf_has_variant base v)) as (im & Him & Hf & _).
  rewrite Z.sub_0_r in Him. exists im. split; [exact Him|].
  now apply String.eqb_eq.
Qed.

(** X8: the memoised image list always holds the selected variant's image:
    [findIndex] finds an image with the variant image's id, at a position of
    the list; and the list only ever is the product's own list, or that list
    with the variant's image in front, in which case no product image has
    the variant image's id. *)
Theorem X8_variant_image_is_listed (base : list image) (v : image) :
  (exists im,
     imageAt (imagesOf base (Some v))
       (findIndex (fun image => sameId image v) (imagesOf base (Some v)))
     = Some im
     /\ id im = id v)
  /\ (imagesOf base (Some v) = base
      \/ (imagesOf base (Some v) = v :: base
          /\ forall im, In im base -> id im <> id v)).
Proof.
  split; [apply findIndex_variant|].
  unfold imagesOf.
    destruct (existsb (fun image => sameId image v) base) eqn:E;
      [now left|right].
    split; [reflexivity|]. intros im Hin Hid.
    assert (existsb (fun image => sameId image v) base = true).
    { apply existsb_exists. exists im. split; [exact Hin|].
      now apply String.eqb_eq. }
    congruence.
Qed.

End ImageListFacts.

Section VariantFacts.

Import Carousel.

Lemma settle_images (n : nat) (c : changes) (r : state) :
  images (settle n c r) = images r.
Proof.
  revert c r. induction n as [|n IH]; intros c r; simpl; [reflexivity|].
  destruct (noChange c); [reflexivity|].
  rewrite IH. apply runEffects_images.
Qed.

Lemma settle_loadedImages (n : nat) (c : changes) (r : state) :
  loadedImages (settle n c r) = loadedImages r.
Proof.
  revert c r. induction n as [|n IH]; intros c r; simpl; [reflexivity|].
  destruct (noChange c); [reflexivity|].
  rewrite IH. apply runEffects_loadedImages.
Qed.

(** The first round of effects when the variant effect runs and finds the
    variant's image. *)
Lemma runEffects_variant (c : changes) (r : state) (v : image) :
  variantImage r = Some v ->
  variantIdChanged c || imagesChanged c = true ->
  0 <= findIndex (fun image => sameId image v) (images r) ->
  displayIndex (runEffects c r)
  = findIndex (fun image => sameId image v) (images r)
  /\ activeIndex (runEffects c r)
     = findIndex (fun image => sameId image v) (images r)
  /\ pendingIndex (runEffects c r) = None.
Proof.
  intros Hv Hc Hm. unfold runEffects. rewrite Hc.
  unfold variantEffect. rewrite Hv.
  apply Z.leb_le in Hm. rewrite Hm.
  unfold sweepEffect, transitionEffect.
  repeat case_match; simpl; auto.
Qed.

Lemma settle_variant (c : changes) (r : state) (v : image) :
  variantImage r = Some v ->
  variantIdChanged c || imagesChanged c = true ->
  0 <= findIndex (fun image => sameId image v) (images r) ->
  displayIndex (settle renders c r)
  = findIndex (fun image => sameId image v) (images r)
  /\ activeIndex (settle renders c r)
     = findIndex (fun image => sameId image v) (images r)
  /\ pendingIndex (settle renders c r) = None.
Proof.
  intros Hv Hc Hm. unfold renders. rewrite settle_fuel.
  assert (Hn : noChange c = false).
  { unfold noChange. apply negb_false_iff.
    destruct (variantIdChanged c), (imagesChanged c); try discriminate;
      reflexivity. }
  rewrite Hn. cbv zeta.
  destruct (runEffects_variant c r v Hv Hc Hm) as (Hd & Ha & Hp).
  destruct (noChange (stateChanges r (runEffects c r))); [now auto|].
  rewrite runEffects_displayIndex, runEffects_activeIndex by reflexivity.
  split; [exact Hd|]. split; [exact Ha|].
  destruct (decide (pendingIndex
                      (runEffects (stateChanges r (runEffects c r))
                         (runEffects c r))
                    = pendingIndex (runEffects c r))) as [E|N];
    [congruence|].
  now apply runEffects_pending_cleared in N.
Qed.

(** X9: when the component mounts with a variant image, and whenever new
    props bring a product or a variant image with another id, the image on
    display afterwards is the variant's image (an image of the list with the
    variant image's id), the active index is the index on display, and
    nothing is pending. *)
Theorem X9_variant_image_goes_on_display (st : state)
    (base : option (list image)) (b : list image) (v : image) :
  (exists im,
     activeImage (mount b (Some v)) = Some im /\ id im = id v
     /\ activeIndex (mount b (Some v)) = displayIndex (mount b (Some v))
     /\ pendingIndex (mount b (Some v)) = None)
  /\ (base <> None \/ optionId (variantImage st) <> Some (id v) ->
      exists im,
        activeImage (newProps base (Some v) st) = Some im /\ id im = id v
        /\ activeIndex (newProps base (Some v) st)
           = displayIndex (newProps base (Some v) st)
        /\ pendingIndex (newProps base (Some v) st) = None).
Proof.
  assert (Hfound : forall bs,
            exists im,
              imageAt (imagesOf bs (Some v))
                (findIndex (fun image => sameId image v)
                   (imagesOf bs (Some v))) = Some im
              /\ id im = id v)
    by (intros bs; apply findIndex_variant).
  assert (Hidx : forall bs,
            0 <= findIndex (fun image => sameId image v)
                   (imagesOf bs (Some v))).
  { intros bs. destruct (Hfound bs) as (im & Him & _).
    unfold imageAt in Him.
    destruct (Z.ltb_spec (findIndex (fun image => sameId image v)
                            (imagesOf bs (Some v))) 0);
      [discriminate|assumption]. }
  split.
  - unfold mount.
    match goal with
    | |- context [settle renders ?c ?r] =>
        destruct (settle_variant c r v eq_refl eq_refl (Hidx b))
          as (Hd & Ha & Hp);
        pose proof (settle_images renders c r) as Hi
    end.
    destruct (Hfound b) as (im & Him & Hid).
    exists im. unfold activeImage. rewrite Hi, Hd, Ha, Hp.
    now repeat split.
  - intros Hnew. unfold newProps.
    set (idChanged :=
           negb (bool_decide (optionId (variantImage st)
                              = optionId (Some v)))).
    set (newArray := match base with Some _ => true | None => false end).
    assert (Hre : newArray || idChanged = true).
    { destruct Hnew as [Hb|Hv].
      - unfold newArray. destruct base; [reflexivity|congruence].
      - unfold idChanged. simpl optionId.
        rewrite (bool_decide_eq_false_2 _ Hv). apply orb_true_r. }
    rewrite Hre. cbn [negb].
    set (bs := match base with Some b0 => b0 | None => baseImages st end).
    match goal with
    | |- context [settle renders ?c ?r] =>
        assert (Hc : variantIdChanged c || imagesChanged c = true)
          by (cbn [variantIdChanged imagesChanged];
              destruct newArray, idChanged; try discriminate; reflexivity);
        destruct (settle_variant c r v eq_refl Hc (Hidx bs))
          as (Hd & Ha & Hp);
        pose proof (settle_images renders c r) as Hi
    end.
    destruct (Hfound bs) as (im & Him & Hid).
    exists im. unfold activeImage. rewrite Hi, Hd, Ha, Hp.
    now repeat split.
Qed.

End VariantFacts.

Section LoadedSetFacts.

Import Carousel Traces.

Lemma newProps_loadedImages (base : option (list image))
    (variant : option image) (st : state) :
  loadedImages (newProps base variant st) = loadedImages st.
Proof.
  unfold newProps. case_match; [reflexivity|].
  now rewrite settle_loadedImages.
Qed.

Lemma markLoaded_loadedImages (u : string) (st : state) :
  loadedImages (markLoaded u st) = loadedImages st
  \/ (u <> "" /\ loadedImages (markLoaded u st) = {[ u ]} ∪ loadedImages st).
Proof.
  unfold markLoaded, JS.truthy_string.
  destruct (String.eqb_spec u ""); simpl; [now left|].
  unfold addLoaded. destruct (has u (loadedImages st)); [now left|now right].
Qed.

(** One turn of the event loop adds at most the URL an image load
    reported. *)
Lemma step_loadedImages (st st' : state) (e : event) :
  step st e = Some st' ->
  loadedImages st' = loadedImages st
  \/ exists u, loads u e = true /\ u <> ""
               /\ loadedImages st' = {[ u ]} ∪ loadedImages st.
Proof.
  destruct e as [i|u|u|u| | | |b v]; simpl; intros H.
  - injection H as <-.
    destruct (rerender_frame st (switchTo i st)) as (_ & _ & -> & _).
    destruct (switchTo_frame i st) as (_ & _ & -> & _). now left.
  - destruct (existsb (String.eqb u) (preloads st)); [|discriminate].
    injection H as <-.
    match goal with
    | |- context [rerender st ?new] =>
        destruct (rerender_frame st new) as (_ & _ & -> & _)
    end.
    destruct (markLoaded_loadedImages u
                (setPreloads (removeFirst u (preloads st)) st))
      as [E|[Hu E]]; [now left|right].
    exists u. rewrite String.eqb_refl. now repeat split.
  - destruct (existsb (String.eqb u) (preloads st)); [|discriminate].
    injection H as <-. now left.
  - destruct (activeImage st); [|discriminate]. injection H as <-.
    destruct (rerender_frame st (markLoaded u st)) as (_ & _ & -> & _).
    destruct (markLoaded_loadedImages u st) as [E|[Hu E]]; [now left|right].
    exists u. rewrite String.eqb_refl. now repeat split.
  - destruct (fadeOutTimer st); [|discriminate]. injection H as <-.
    match goal with
    | |- context [rerender st ?new] =>
        destruct (rerender_frame st new) as (_ & _ & -> & _)
    end.
    now left.
  - destruct (fadeInTimers st); [discriminate|]. injection H as <-.
    match goal with
    | |- context [rerender st ?new] =>
        destruct (rerender_frame st new) as (_ & _ & -> & _)
    end.
    now left.
  - destruct (sweepTimer st); [|discriminate]. injection H as <-.
    destruct (sweep_frame (setSweepTimer false st))
      as (_ & _ & _ & _ & _ & _ & -> & _).
    now left.
  - injection H as <-. left. apply newProps_loadedImages.
Qed.

(** X10: the loaded set only grows, and only by what image loads report:
    over any sequence of events (new props included) no URL leaves the
    set, and every URL that entered it is the non-empty URL of a preload
    completion or of a main-image load of the sequence. *)
Theorem X10_loaded_set_grows_by_reported_loads (st st' : state)
    (es : list event) :
  run st es = Some st' ->
  loadedImages st ⊆ loadedImages st'
  /\ forall u, u ∈ loadedImages st' ->
       u ∈ loadedImages st
       \/ (u <> "" /\ existsb (loads u) es = true).
Proof.
  revert st. induction es as [|e es IH]; intros st Hrun; simpl in Hrun.
  - injection Hrun as <-. split; [reflexivity|]. intros u Hu. now left.
  - destruct (step st e) as [st1|] eqn:Hs; [|discriminate].
    destruct (IH st1 Hrun) as [Hsub Hfrom].
    destruct (step_loadedImages st st1 e Hs) as [E|(x & Hx & Hne & E)].
    + rewrite <- E. split; [exact Hsub|]. intros u Hu.
      destruct (Hfrom u Hu) as [H|[H1 H2]]; [now left|right].
      split; [exact H1|]. simpl. rewrite H2. apply orb_true_r.
    + split.
      { intros y Hy. apply Hsub. rewrite E. now apply elem_of_union_r. }
      intros u Hu.
      destruct (Hfrom u Hu) as [H|[H1 H2]].
      * rewrite E in H. apply elem_of_union in H as [H|H]; [|now left].
        apply elem_of_singleton in H. subst x. right.
        split; [exact Hne|]. simpl. now rewrite Hx.
      * right. split; [exact H1|]. simpl. rewrite H2. apply orb_true_r.
Qed.

End LoadedSetFacts.

Section WaitingFacts.

Import Carousel Traces.

Lemma withImageWidth_truthy (u : string) (w : Z) :
  JS.truthy_string (withImageWidth u w) = true.
Proof.
  unfold JS.truthy_string, withImageWidth.
  destruct u; [|reflexivity]. reflexivity.
Qed.

Lemma has_addLoaded_other (x u : string) (s : gset string) :
  x <> u -> has u s = false -> has u (addLoaded x s) = false.
Proof.
  unfold has, addLoaded. intros Hne H.
  apply bool_decide_eq_false in H. apply bool_decide_eq_false.
  case_match; [exact H|].
  intros [E|E]%elem_of_union; [|now apply H].
  apply elem_of_singleton in E. congruence.
Qed.

Lemma has_markLoaded_other (x u : string) (st : state) :
  x <> u -> has u (loadedImages st) = false ->
  has u (loadedImages (markLoaded x st)) = false.
Proof.
  intros Hne H. unfold markLoaded. case_match; [exact H|].
  now apply has_addLoaded_other.
Qed.

(** A re-render in which the transition effect finds nothing to do: nothing
    is pending, or the image of the pending index is not loaded. *)
Lemma rerender_not_loaded (old new : state) (i : Z) (t : image) :
  pendingIndex new = None
  \/ (pendingIndex new = Some i /\ i <> displayIndex new
      /\ imageAt (images new) i = Some t
      /\ has (url800 t) (loadedImages new) = false) ->
  (noChange (stateChanges old new) = true -> fadeOutTimer new = None) ->
  pendingIndex (rerender old new) = pendingIndex new
  /\ phase (rerender old new) = phase new
  /\ fadeOutTimer (rerender old new) = None.
Proof.
  intros H Ht. rewrite rerender_once.
  destruct (noChange (stateChanges old new)) eqn:Hc; [now auto|].
  assert (E4 : pendingChanged (stateChanges old new)
               || displayChanged (stateChanges old new)
               || loadedChanged (stateChanges old new)
               || imagesChanged (stateChanges old new) = true).
  { unfold noChange in Hc. apply negb_false_iff in Hc.
    simpl in *. now rewrite orb_false_r. }
  unfold runEffects. rewrite E4.
  cbn [variantIdChanged imagesChanged stateChanges orb].
  unfold transitionEffect, sweepEffect.
  destruct H as [Hp|(Hp & Hne & Hi & Hl)]; rewrite Hp.
  - repeat case_match; simpl; rewrite ?Hp; auto.
  - apply Z.eqb_neq in Hne. rewrite Hne, Hi, Hl.
    repeat case_match; simpl; rewrite ?Hp; auto.
Qed.

Lemma waiting_rerender (i d : Z) (u : string) (old new : state) :
  waiting i d u new ->
  waiting i d u (rerender old new)
  /\ pendingIndex (rerender old new) = pendingIndex new
  /\ phase (rerender old new) = phase new.
Proof.
  intros ((t & Hi & Hu) & Hl & Ht & Hd & Ha & Hne & Hp).
  destruct (rerender_not_loaded old new i t) as (Hp' & Hph & Ht').
  { destruct Hp as [Hp|Hp]; [right|now left].
    rewrite Hd, Hu. now repeat split. }
  { now intros _. }
  destruct (rerender_frame old new) as (_ & _ & Hli & _ & _ & Hdi & Hai).
  rewrite <- (rerender_images old new) in Hi.
  split; [|now split].
  unfold waiting. rewrite Hli, Ht', Hdi, Hai, Hp'.
  split; [now exists t|]. now repeat split.
Qed.

Lemma waiting_step (i d : Z) (u : string) (s s' : state) (e : event) :
  waiting i d u s -> isCallback e = true -> loads u e = false ->
  step s e = Some s' -> waiting i d u s'.
Proof.
  intros Hk He Hu Hs. pose proof Hk as (Hi & Hl & Ht & Hd & Ha & Hne & Hp).
  destruct e as [j|x|x|x| | | |b v]; simpl in Hs, Hu; try discriminate He.
  - destruct (existsb _ _); [|discriminate]. injection Hs as <-.
    apply String.eqb_neq in Hu.
    destruct (markLoaded_frame x (setPreloads (removeFirst x (preloads s)) s))
      as (Hb & Hv & Hai & Hdi & Hpi & Hph & _ & Hft & Hfi & _).
    simpl in *.
    apply waiting_rerender.
    unfold waiting, images. rewrite Hb, Hv, Hft, Hdi, Hai, Hpi.
    split; [exact Hi|]. split; [|now repeat split].
    now apply has_markLoaded_other.
  - destruct (existsb _ _); [|discriminate]. injection Hs as <-. exact Hk.
  - destruct (activeImage s); [|discriminate]. injection Hs as <-.
    apply String.eqb_neq in Hu.
    destruct (markLoaded_frame x s)
      as (Hb & Hv & Hai & Hdi & Hpi & Hph & _ & Hft & Hfi & _).
    apply waiting_rerender.
    unfold waiting, images. rewrite Hb, Hv, Hft, Hdi, Hai, Hpi.
    split; [exact Hi|]. split; [|now repeat split].
    now apply has_markLoaded_other.
  - rewrite Ht in Hs. discriminate.
  - destruct (fadeInTimers s) as [|n] eqn:Hn; [discriminate|].
    injection Hs as <-. apply waiting_rerender.
    unfold waiting, images; simpl. repeat split; auto.
  - destruct (sweepTimer s); [|discriminate]. injection Hs as <-.
    destruct (sweep_frame (setSweepTimer false s))
      as (Hb & Hv & Hai & Hdi & Hpi & Hph & Hli & _ & Hft & Hfi).
    simpl in *.
    unfold waiting, images. rewrite Hb, Hv, Hft, Hdi, Hai, Hpi, Hli. exact Hk.
Qed.

(** X11: in a state the component can be in, [switchTo(i)] for an image
    that is neither active nor on display and whose 800px URL is not in the
    loaded set starts one preloader for that URL and sets [activeIndex] and
    [pendingIndex] to [i]; the turn ends with the old image still on
    display, [phase] and the loaded set as they were, and no fade-out timer
    pending. *)
Theorem X11_switchTo_unloaded_starts_preload (st : state) (i : Z)
    (t : image) :
  reachable st ->
  i <> activeIndex st ->
  i <> displayIndex st ->
  imageAt (images st) i = Some t ->
  url t <> "" ->
  has (url800 t) (loadedImages st) = false ->
  exists s1,
    step st (SwitchTo i) = Some s1
    /\ preloads s1 = preloads st ++ [url800 t]
    /\ pendingIndex s1 = Some i
    /\ phase s1 = phase st
    /\ loadedImages s1 = loadedImages st
    /\ waiting i (displayIndex st) (url800 t) s1.
Proof.
  intros Hr Hact Hdis Ht Hurl Hload.
  assert (Hlen : (length (images st) =? 0)%nat = false).
  { apply Nat.eqb_neq. destruct (images st); [|discriminate].
    unfold imageAt in Ht. destruct (i <? 0); discriminate. }
  assert (Hsw : switchTo i st
                = setPendingIndex (Some i)
                    (setActiveIndex i
                       (setPreloads (preloads st ++ [url800 t]) st))).
  { unfold switchTo. apply Z.eqb_neq in Hact. rewrite Hlen, Hact, Ht; simpl.
    unfold JS.truthy_string. apply String.eqb_neq in Hurl. rewrite Hurl.
    cbn [negb]. fold (url800 t). rewrite Hload. cbn [negb].
    unfold preloadImage, url800. now rewrite withImageWidth_truthy. }
  exists (rerender st (switchTo i st)). split; [reflexivity|].
  rewrite Hsw.
  set (new := setPendingIndex (Some i)
                (setActiveIndex i
                   (setPreloads (preloads st ++ [url800 t]) st))).
  destruct (rerender_not_loaded st new i t) as (Hp' & Hph & Ht').
  { right. now repeat split. }
  { intros Hc. apply noChange_stateChanges in Hc as (Hp & _).
    change (fadeOutTimer new) with (fadeOutTimer st).
    change (pendingIndex new) with (Some i) in Hp.
    destruct (fadeOutTimer st) as [p|] eqn:Hf; [|reflexivity].
    destruct (reachable_invariant st Hr) as [Htimer _].
    destruct (Htimer p Hf) as [Hpp Hlp].
    assert (p = i) by congruence. subst p.
    unfold loadedAt in Hlp. rewrite Ht in Hlp. congruence. }
  destruct (rerender_frame st new) as (_ & _ & Hli & Hpre & _ & Hdi & Hai).
  split; [exact Hpre|]. split; [exact Hp'|]. split; [exact Hph|].
  split; [exact Hli|].
  unfold waiting. rewrite rerender_images, Hli, Ht', Hdi, Hai, Hp'.
  split; [now exists t|]. repeat split; auto.
Qed.

(** X12: while the requested image waits for its preload, the image on
    display does not change: through every timer firing, every preload
    failure and every load of another URL the old index stays on display,
    the requested one stays active, and no fade-out timer is set. If the
    preload never completes, this is for ever. *)
Theorem X12_display_waits_for_the_preload (i d : Z) (u : string)
    (es : list event) (s s' : state) :
  waiting i d u s ->
  forallb (fun e => isCallback e && negb (loads u e)) es = true ->
  run s es = Some s' ->
  displayIndex s' = d /\ activeIndex s' = i /\ fadeOutTimer s' = None
  /\ has u (loadedImages s') = false.
Proof.
  revert s. induction es as [|e es IH]; intros s Hk Hes Hrun; simpl in *.
  - injection Hrun as <-.
    destruct Hk as (_ & Hl & Ht & Hd & Ha & _). now repeat split.
  - apply andb_prop in Hes as [He Hes]. apply andb_prop in He as [Hc Hu].
    apply negb_true_iff in Hu.
    destruct (step s e) as [s1|] eqn:Hs; [|discriminate].
    apply (IH s1); [|exact Hes|exact Hrun].
    now apply (waiting_step i d u s s1 e).
Qed.

End WaitingFacts.

Section TimerFacts.

Import Carousel Traces.

Lemma sweepEffect_frame (r acc : state) :
  exists b, sweepEffect r acc = setSweepTimer b acc.
Proof.
  unfold sweepEffect. repeat case_match; eexists; reflexivity.
Qed.

Lemma settle_fadeInTimers (n : nat) (c : changes) (r : state) :
  fadeInTimers (settle n c r) = fadeInTimers r.
Proof.
  revert c r. induction n as [|n IH]; intros c r; simpl; [reflexivity|].
  destruct (noChange c); [reflexivity|].
  rewrite IH. apply runEffects_fadeInTimers.
Qed.

(** The fade-out timer's callback and the render after it. *)
Lemma fadeOutTimer_fires (s : state) (p : Z) :
  fadeOutTimer s = Some p -> pendingIndex s = Some p ->
  exists s',
    step s FadeOutTimer = Some s'
    /\ displayIndex s' = p
    /\ phase s' = fade_in
    /\ fadeOutTimer s' = None
    /\ fadeInTimers s' = S (fadeInTimers s)
    /\ activeIndex s' = activeIndex s
    /\ loadedImages s' = loadedImages s
    /\ images s' = images s
    /\ (displayIndex s <> p -> pendingIndex s' = None).
Proof.
  intros Ht Hp. simpl. rewrite Ht.
  set (new := fadeOutCallback p (setFadeOutTimer None s)).
  exists (rerender s new). split; [reflexivity|].
  destruct (Z.eq_dec (displayIndex s) p) as [E|N].
  - rewrite rerender_unchanged by (try reflexivity; exact E).
    repeat split. intros; contradiction.
  - rewrite rerender_transition by (try reflexivity; right; exact N).
    unfold transitionEffect.
    change (pendingIndex new) with (pendingIndex s). rewrite Hp.
    change (displayIndex new) with p. rewrite Z.eqb_refl.
    repeat split.
Qed.

(** X13: when the preload of the requested image completes, the fade
    starts: the turn ends with [phase] fade-out, the old image still on
    display and a fade-out timer for the requested index, whose image is now
    loaded; that timer then puts the requested image on display with
    [phase] fade-in and [pendingIndex] null. *)
Theorem X13_preload_completion_starts_the_fade (i d : Z) (u : string)
    (s : state) :
  waiting i d u s ->
  pendingIndex s = Some i ->
  existsb (String.eqb u) (preloads s) = true ->
  exists s2 s3,
    step s (PreloadLoaded u) = Some s2
    /\ (displayIndex s2, activeIndex s2, phase s2, pendingIndex s2,
        fadeOutTimer s2) = (d, i, fade_out, Some i, Some i)
    /\ loadedAt s2 i = true
    /\ step s2 FadeOutTimer = Some s3
    /\ (displayIndex s3, activeIndex s3, phase s3, pendingIndex s3,
        fadeOutTimer s3) = (i, i, fade_in, None, None).
Proof.
  intros ((t & Hi & Hu) & Hl & Ht & Hd & Ha & Hne & _) Hp Hin.
  assert (Htr : JS.truthy_string u = true)
    by (rewrite <- Hu; apply withImageWidth_truthy).
  set (s0 := setPreloads (removeFirst u (preloads s)) s).
  set (new := setLoadedImages ({[ u ]} ∪ loadedImages s) s0).
  assert (Hm : markLoaded u s0 = new).
  { unfold markLoaded. rewrite Htr. cbn [negb]. unfold addLoaded.
    change (loadedImages s0) with (loadedImages s). now rewrite Hl. }
  assert (Hnew : u ∈ loadedImages new).
  { apply elem_of_union_l. now apply elem_of_singleton. }
  assert (Hold : u ∉ loadedImages s)
    by (now apply bool_decide_eq_false in Hl).
  assert (Hc : loadedImages s <> loadedImages new)
    by (intros E; apply Hold; rewrite E; exact Hnew).
  destruct (sweepEffect_frame new new) as [b Hb].
  assert (E2 : rerender s new
               = setFadeOutTimer (Some i)
                   (setPhase fade_out
                      (setFadeOutTimer None (setSweepTimer b new)))).
  { rewrite rerender_once. unfold noChange, stateChanges, runEffects.
    cbn [variantIdChanged imagesChanged pendingChanged displayChanged
           loadedChanged].
    rewrite (bool_decide_eq_false_2 _ Hc).
    rewrite !(bool_decide_eq_true_2 _ eq_refl).
    cbn [negb orb]. rewrite Hb.
    unfold transitionEffect.
    change (pendingIndex new) with (pendingIndex s).
    change (displayIndex new) with (displayIndex s).
    change (images new) with (images s).
    rewrite Hp, Hd, Hi, Hu.
    apply Z.eqb_neq in Hne. rewrite Hne.
    unfold has. now rewrite (bool_decide_eq_true_2 _ Hnew). }
  set (s2 := setFadeOutTimer (Some i)
               (setPhase fade_out
                  (setFadeOutTimer None (setSweepTimer b new)))) in *.
  assert (Hp2 : pendingIndex s2 = Some i) by exact Hp.
  destruct (fadeOutTimer_fires s2 i eq_refl Hp2)
    as (s3 & Hs3 & Hd3 & Hph3 & Ht3 & _ & Ha3 & _ & _ & Hp3).
  exists s2, s3. split.
  { cbn [step]. rewrite Hin. fold s0. now rewrite Hm, E2. }
  split.
  { change (displayIndex s2) with (displayIndex s).
    change (activeIndex s2) with (activeIndex s).
    change (pendingIndex s2) with (pendingIndex s).
    now rewrite Hd, Ha, Hp. }
  split.
  { unfold loadedAt. change (images s2) with (images s). rewrite Hi, Hu.
    unfold has. now apply bool_decide_eq_true_2. }
  split; [exact Hs3|].
  rewrite Hd3, Ha3, Hph3, Ht3, Hp3.
  - change (activeIndex s2) with (activeIndex s). now rewrite Ha.
  - change (displayIndex s2) with (displayIndex s). congruence.
Qed.

(** X14: in every state the component can be in, a pending fade-out timer
    fires into a turn that ends with its index on display, the image there
    loaded, [phase] fade-in, one more fade-in timer pending and no fade-out
    timer left. *)
Theorem X14_fade_out_timer_shows_a_loaded_image (s : state) (p : Z) :
  reachable s ->
  fadeOutTimer s = Some p ->
  exists s',
    step s FadeOutTimer = Some s'
    /\ displayIndex s' = p
    /\ loadedAt s' p = true
    /\ phase s' = fade_in
    /\ fadeOutTimer s' = None
    /\ fadeInTimers s' = S (fadeInTimers s)
    /\ activeIndex s' = activeIndex s.
Proof.
  intros Hr Ht.
  destruct (reachable_invariant s Hr) as [Htimer _].
  destruct (Htimer p Ht) as [Hp Hl].
  destruct (fadeOutTimer_fires s p Ht Hp)
    as (s' & Hs & Hd & Hph & Ht' & Hfi & Ha & Hli & Him & _).
  exists s'. repeat split; try assumption.
  apply (loadedAt_mono s s'); [now symmetry| |exact Hl].
  now rewrite Hli.
Qed.

(** X15: in every state the component can be in, a fade-in timer that
    fires ends whatever transition is under way: the turn ends with [phase]
    idle, [pendingIndex] null and no fade-out timer pending, the indices
    shown as they were. *)
Theorem X15_fade_in_timer_ends_any_transition (s : state) (n : nat) :
  reachable s ->
  fadeInTimers s = S n ->
  exists s',
    step s FadeInTimer = Some s'
    /\ phase s' = idle
    /\ pendingIndex s' = None
    /\ fadeOutTimer s' = None
    /\ displayIndex s' = displayIndex s
    /\ activeIndex s' = activeIndex s
    /\ fadeInTimers s' = n.
Proof.
  intros Hr Hn. simpl. rewrite Hn.
  set (new := fadeInCallback (setFadeInTimers n s)).
  exists (rerender s new). split; [reflexivity|].
  destruct (rerender_no_transition s new 0) as (Hp & Hph & Ht).
  { now left. }
  { intros Hc. apply noChange_stateChanges in Hc as (Hp & _).
    change (fadeOutTimer new) with (fadeOutTimer s).
    change (pendingIndex new) with (@None Z) in Hp.
    destruct (fadeOutTimer s) as [p|] eqn:Hf; [|reflexivity].
    destruct (reachable_invariant s Hr) as [Htimer _].
    destruct (Htimer p Hf) as [Hpp _]. congruence. }
  destruct (rerender_frame s new) as (_ & _ & _ & _ & Hfi & Hdi & Hai).
  now repeat split.
Qed.

Lemma newProps_fadeInTimers (base : option (list image))
    (variant : option image) (st : state) :
  fadeInTimers (newProps base variant st) = fadeInTimers st.
Proof.
  unfold newProps. case_match; [reflexivity|].
  now rewrite settle_fadeInTimers.
Qed.

Lemma step_fadeInTimers (s s' : state) (e : event) :
  step s e = Some s' ->
  (fadeInTimers s' + (if isFadeIn e then 1 else 0)
   = fadeInTimers s + (if isFadeOut e then 1 else 0))%nat.
Proof.
  destruct e as [i|u|u|u| | | |b v]; simpl; intros H.
  - injection H as <-.
    destruct (rerender_frame s (switchTo i s)) as (_ & _ & _ & _ & -> & _).
    destruct (switchTo_frame i s) as (_ & _ & _ & _ & _ & _ & ->). lia.
  - destruct (existsb _ _); [|discriminate]. injection H as <-.
    match goal with
    | |- context [rerender s ?new] =>
        destruct (rerender_frame s new) as (_ & _ & _ & _ & -> & _)
    end.
    destruct (markLoaded_frame u (setPreloads (removeFirst u (preloads s)) s))
      as (_ & _ & _ & _ & _ & _ & _ & _ & -> & _).
    simpl. lia.
  - destruct (existsb _ _); [|discriminate]. injection H as <-. simpl. lia.
  - destruct (activeImage s); [|discriminate]. injection H as <-.
    destruct (rerender_frame s (markLoaded u s)) as (_ & _ & _ & _ & -> & _).
    destruct (markLoaded_frame u s)
      as (_ & _ & _ & _ & _ & _ & _ & _ & -> & _).
    lia.
  - destruct (fadeOutTimer s); [|discriminate]. injection H as <-.
    match goal with
    | |- context [rerender s ?new] =>
        destruct (rerender_frame s new) as (_ & _ & _ & _ & -> & _)
    end.
    simpl. lia.
  - destruct (fadeInTimers s) as [|n] eqn:Hn; [discriminate|].
    injection H as <-.
    match goal with
    | |- context [rerender s ?new] =>
        destruct (rerender_frame s new) as (_ & _ & _ & _ & -> & _)
    end.
    simpl. lia.
  - destruct (sweepTimer s); [|discriminate]. injection H as <-.
    destruct (sweep_frame (setSweepTimer false s))
      as (_ & _ & _ & _ & _ & _ & _ & _ & _ & ->).
    simpl. lia.
  - injection H as <-. rewrite newProps_fadeInTimers. lia.
Qed.

(** X16: no fade-in timer is ever cancelled: over any sequence of events,
    new props and [switchTo] calls included, the fade-in timers pending at
    the end are those pending at the start, plus one for every fade-out
    timer that fired, less those that fired themselves. *)
Theorem X16_fade_in_timers_are_never_cancelled (s s' : state)
    (es : list event) :
  run s es = Some s' ->
  (fadeInTimers s' + length (List.filter isFadeIn es)
   = fadeInTimers s + length (List.filter isFadeOut es))%nat.
Proof.
  revert s. induction es as [|e es IH]; intros s Hrun; simpl in Hrun.
  - injection Hrun as <-. simpl. lia.
  - destruct (step s e) as [s1|] eqn:Hs; [|discriminate].
    specialize (IH s1 Hrun). apply step_fadeInTimers in Hs.
    simpl. destruct (isFadeIn e), (isFadeOut e); simpl; lia.
Qed.

End TimerFacts.

Section SweepFacts.

Import Carousel Traces.

Lemma unloadedTargets_ext (a b : state) :
  images a = images b -> loadedImages a = loadedImages b ->
  unloadedTargets a = unloadedTargets b.
Proof. unfold unloadedTargets. now intros -> ->. Qed.

Lemma sweepOK_ext (a b : state) :
  images a = images b -> loadedImages a = loadedImages b ->
  sweepTimer b = true -> sweepOK a -> sweepTimer a = sweepTimer b ->
  unloadedTargets b <> [].
Proof.
  intros Hi Hl Hb H Ht. rewrite <- (unloadedTargets_ext a b Hi Hl).
  apply H. congruence.
Qed.

Lemma forallb_filter_nil {A : Type} (f : A -> bool) (l : list A) :
  forallb f l = false <-> List.filter (fun x => negb (f x)) l <> [].
Proof.
  induction l as [|x l IH]; simpl; [split; [discriminate|congruence]|].
  destruct (f x); simpl; [exact IH|]. split; [discriminate|reflexivity].
Qed.

(** The sweep effect sets its timer exactly when some target URL is not
    loaded. *)
Lemma sweepEffect_timer (r acc : state) :
  sweepTimer (sweepEffect r acc) = true <-> unloadedTargets r <> [].
Proof.
  unfold sweepEffect, unloadedTargets.
  destruct (length (images r) =? 0)%nat eqn:E.
  - apply Nat.eqb_eq in E. destruct (images r); [|discriminate].
    simpl. split; [discriminate|congruence].
  - destruct (forallb _ _) eqn:F; simpl.
    + split; [discriminate|]. intros H. apply forallb_filter_nil in H.
      congruence.
    + split; [|reflexivity]. intros _. now apply forallb_filter_nil.
Qed.

Lemma runEffects_sweepTimer (c : changes) (r : state) :
  sweepTimer (runEffects c r)
  = if imagesChanged c || loadedChanged c
    then sweepTimer (sweepEffect r r)
    else sweepTimer r.
Proof.
  unfold runEffects.
  destruct (imagesChanged c || loadedChanged c);
    unfold variantEffect, sweepEffect, transitionEffect;
    repeat case_match; simpl in *; try congruence; reflexivity.
Qed.

Lemma runEffects_sweepOK (c : changes) (r : state) :
  (imagesChanged c || loadedChanged c = false -> sweepOK r) ->
  sweepOK (runEffects c r).
Proof.
  intros H Ht. rewrite runEffects_sweepTimer in Ht.
  rewrite (unloadedTargets_ext (runEffects c r) r)
    by (apply runEffects_images || apply runEffects_loadedImages).
  destruct (imagesChanged c || loadedChanged c).
  - now apply (sweepEffect_timer r r).
  - now apply H.
Qed.

Lemma settle_sweepOK (c : changes) (r : state) :
  (imagesChanged c || loadedChanged c = false -> sweepOK r) ->
  sweepOK (settle renders c r).
Proof.
  intros H. unfold renders. rewrite settle_fuel.
  destruct (noChange c) eqn:Hc.
  - apply H. unfold noChange in Hc. apply negb_true_iff in Hc.
    destruct (variantIdChanged c), (imagesChanged c), (pendingChanged c),
      (displayChanged c), (loadedChanged c); try discriminate; reflexivity.
  - cbv zeta. pose proof (runEffects_sweepOK c r H) as H1.
    destruct (noChange (stateChanges r (runEffects c r))); [exact H1|].
    apply runEffects_sweepOK. intros _. exact H1.
Qed.

Lemma rerender_sweepOK (old new : state) :
  (loadedImages old = loadedImages new -> sweepOK new) ->
  sweepOK (rerender old new).
Proof.
  intros H. apply settle_sweepOK. simpl. intros Hl.
  apply negb_false_iff, bool_decide_eq_true in Hl. now apply H.
Qed.

Lemma switchTo_sweepTimer (i : Z) (st : state) :
  sweepTimer (switchTo i st) = sweepTimer st.
Proof. unfold switchTo, preloadImage. repeat case_match; reflexivity. Qed.

Lemma markLoaded_sweepTimer (u : string) (st : state) :
  sweepTimer (markLoaded u st) = sweepTimer st.
Proof. unfold markLoaded. case_match; reflexivity. Qed.

Lemma markLoaded_images (u : string) (st : state) :
  images (markLoaded u st) = images st.
Proof. unfold markLoaded. case_match; reflexivity. Qed.

Lemma step_sweepOK (st st' : state) (e : event) :
  sweepOK st -> step st e = Some st' -> sweepOK st'.
Proof.
  intros Hok. destruct e as [i|u|u|u| | | |b v]; simpl; intros H.
  - injection H as <-. apply rerender_sweepOK. intros _ Ht.
    rewrite switchTo_sweepTimer in Ht.
    destruct (switchTo_frame i st) as (Hb & Hv & Hl & _).
    rewrite (unloadedTargets_ext _ st);
      [now apply Hok|unfold images; now rewrite Hb, Hv|exact Hl].
  - destruct (existsb _ _); [|discriminate]. injection H as <-.
    apply rerender_sweepOK. intros Hl Ht.
    rewrite markLoaded_sweepTimer in Ht.
    rewrite (unloadedTargets_ext _ st);
      [now apply Hok|now rewrite markLoaded_images|now symmetry].
  - destruct (existsb _ _); [|discriminate]. injection H as <-.
    exact Hok.
  - destruct (activeImage st); [|discriminate]. injection H as <-.
    apply rerender_sweepOK. intros Hl Ht.
    rewrite markLoaded_sweepTimer in Ht.
    rewrite (unloadedTargets_ext _ st);
      [now apply Hok|now rewrite markLoaded_images|now symmetry].
  - destruct (fadeOutTimer st); [|discriminate]. injection H as <-.
    apply rerender_sweepOK. intros _. exact Hok.
  - destruct (fadeInTimers st); [discriminate|]. injection H as <-.
    apply rerender_sweepOK. intros _. exact Hok.
  - destruct (sweepTimer st); [|discriminate]. injection H as <-.
    intros Ht.
    destruct (sweep_frame (setSweepTimer false st))
      as (_ & _ & _ & _ & _ & _ & _ & Hs & _).
    rewrite Hs in Ht. discriminate Ht.
  - injection H as <-. unfold newProps.
    destruct (negb _) eqn:Hn; [exact Hok|].
    apply settle_sweepOK. cbn [imagesChanged loadedChanged].
    rewrite orb_false_r. intros Hc.
    apply orb_false_elim in Hc as [Hc Hf2].
    apply orb_false_elim in Hc as [Hna Hf1].
    destruct b as [b|]; [discriminate|].
    intros Ht. change (sweepTimer (setProps (baseImages st) v st))
                 with (sweepTimer st) in Ht.
    rewrite (unloadedTargets_ext _ st); [now apply Hok| |reflexivity].
    unfold images; simpl.
    now rewrite (freshArray_false _ _ Hf1), (freshArray_false _ _ Hf2).
Qed.

Lemma reachable_sweepOK (st : state) : reachable st -> sweepOK st.
Proof.
  induction 1 as [base variant|st e st' _ IH Hs].
  - unfold mount. apply settle_sweepOK. discriminate.
  - now apply (step_sweepOK st st' e).
Qed.

(** What the sweep timer's callback starts. *)
Lemma sweep_preloads (st : state) :
  preloads (sweep st) = preloads st ++ unloadedTargets st.
Proof.
  unfold sweep, unloadedTargets. generalize (loadedImages st) as s.
  generalize (images st) as l. intros l s. revert st.
  induction l as [|im l IH]; intros st; simpl.
  - now rewrite app_nil_r.
  - rewrite IH. unfold targetUrls. simpl.
    destruct (JS.truthy_string (url im)); simpl; [|reflexivity].
    destruct (has (url800 im) s); simpl; [reflexivity|].
    unfold preloadImage, url800 at 1. rewrite withImageWidth_truthy. simpl.
    now rewrite <- app_assoc.
Qed.

(** X17: in every state the component can be in, a pending sweep timer
    fires into work: it starts one preloader for each image with a
    non-empty url whose 800px URL is not in the loaded set, in the order of
    the image list, at least one in all, and changes nothing else but
    clearing itself. *)
Theorem X17_sweep_preloads_what_is_not_loaded (st : state) :
  reachable st ->
  sweepTimer st = true ->
  exists st',
    step st SweepTimer = Some st'
    /\ preloads st' = preloads st ++ unloadedTargets st
    /\ unloadedTargets st <> []
    /\ exceptPreloads st' = exceptPreloads (setSweepTimer false st)
    /\ forall u, In u (unloadedTargets st) <->
         has u (loadedImages st) = false
         /\ exists im, In im (images st) /\ url im <> "" /\ u = url800 im.
Proof.
  intros Hr Ht. exists (sweep (setSweepTimer false st)).
  split; [simpl; now rewrite Ht|].
  split; [apply (sweep_preloads (setSweepTimer false st))|].
  split; [now apply (reachable_sweepOK st Hr)|].
  split; [apply sweep_exceptPreloads|].
  intros u. unfold unloadedTargets, targetUrls.
  rewrite filter_In, in_map_iff. split.
  - intros [(im & Hu & Him) Hl]. apply filter_In in Him as [Him Hurl].
    split; [now apply negb_true_iff|]. exists im.
    split; [exact Him|]. split; [|now symmetry].
    unfold JS.truthy_string in Hurl. apply negb_true_iff in Hurl.
    now apply String.eqb_neq.
  - intros [Hl (im & Him & Hurl & ->)]. split; [|now apply negb_true_iff].
    exists im. split; [reflexivity|]. apply filter_In. split; [exact Him|].
    unfold JS.truthy_string. apply negb_true_iff. now apply String.eqb_neq.
Qed.

End SweepFacts.

Section ControlFacts.

Import Carousel Controls.

Lemma imageAt_Some_In (l : list image) (i : Z) (im : image) :
  imageAt l i = Some im -> In im l.
Proof.
  unfold imageAt. destruct (i <? 0); [discriminate|].
  intros H. apply list_elem_of_In. now apply (list_elem_of_lookup_2 l (Z.to_nat i)).
Qed.

Lemma imageAt_lookup (l : list image) (i : Z) :
  0 <= i < Z.of_nat (length l) -> exists im, imageAt l i = Some im.
Proof.
  intros H. destruct (imageAt l i) as [im|] eqn:E; [now exists im|].
  now apply imageAt_in_range in E.
Qed.

(** X18: the gallery never goes blank: in every state the component can be
    in, products with fewer images arriving included, the index on display
    points at an image of the list as long as the list has one. *)
Theorem X18_an_image_is_on_display (st : state) :
  reachable st ->
  images st <> [] ->
  exists im, activeImage st = Some im /\ In im (images st).
Proof.
  intros Hr Hne. destruct (reachable_invariant st Hr) as [_ [H0 Hlt]].
  destruct (imageAt_lookup (images st) (displayIndex st)) as [im Him];
    [split; [exact H0|now apply Hlt]|].
  exists im. split; [exact Him|]. now apply (imageAt_Some_In _ _ _ Him).
Qed.

Lemma switchTo_activeIndex (i : Z) (st : state) :
  activeIndex (switchTo i st) = if (length (images st) =? 0)%nat then
                                  activeIndex st else i.
Proof.
  unfold switchTo. destruct (length (images st) =? 0)%nat; [reflexivity|].
  simpl. destruct (Z.eqb_spec i (activeIndex st)); [congruence|].
  reflexivity.
Qed.

Lemma switchTo_images (i : Z) (st : state) :
  images (switchTo i st) = images st.
Proof.
  destruct (switchTo_frame i st) as (Hb & Hv & _).
  unfold images. now rewrite Hb, Hv.
Qed.

Lemma rem_wrap (x n : Z) : 0 <= x < n -> Z.rem (x + n) n = x.
Proof.
  intros H. rewrite Z.rem_mod_nonneg by lia.
  replace (x + n) with (x + 1 * n) by lia.
  rewrite Z.mod_add by lia. apply Z.mod_small. lia.
Qed.

(** X19: with the active index inside the image list, the previous and the
    next buttons always ask for an image that exists, and they undo each
    other: after a click on one, the other asks for the index that was
    active before. *)
Theorem X19_previous_and_next_buttons (st : state) :
  0 <= activeIndex st < Z.of_nat (length (images st)) ->
  (exists im, imageAt (images st) (nextIndex st) = Some im)
  /\ (exists im, imageAt (images st) (previousIndex st) = Some im)
  /\ (exists s1, step st (SwitchTo (nextIndex st)) = Some s1
                 /\ activeIndex s1 = nextIndex st
                 /\ previousIndex s1 = activeIndex st)
  /\ (exists s1, step st (SwitchTo (previousIndex st)) = Some s1
                 /\ activeIndex s1 = previousIndex st
                 /\ nextIndex s1 = activeIndex st).
Proof.
  intros Ha.
  set (n := Z.of_nat (length (images st))) in *.
  set (a := activeIndex st) in *.
  assert (Hlen : (length (images st) =? 0)%nat = false)
    by (apply Nat.eqb_neq; lia).
  assert (Hnext : nextIndex st = if a + 1 =? n then 0 else a + 1).
  { unfold nextIndex. rewrite Hlen. fold n a.
    destruct (Z.eqb_spec (a + 1) n) as [E|N].
    - rewrite E. apply Z.rem_same. lia.
    - apply Z.rem_small. lia. }
  assert (Hprev : previousIndex st = if a =? 0 then n - 1 else a - 1).
  { unfold previousIndex. rewrite Hlen. fold n a.
    destruct (Z.eqb_spec a 0) as [E|N].
    - rewrite E. replace (0 - 1 + n) with (n - 1) by lia.
      apply Z.rem_small. lia.
    - apply rem_wrap. lia. }
  split; [apply imageAt_lookup; rewrite Hnext; fold n;
          destruct (Z.eqb_spec (a + 1) n); lia|].
  split; [apply imageAt_lookup; rewrite Hprev; fold n;
          destruct (Z.eqb_spec a 0); lia|].
  split.
  - exists (rerender st (switchTo (nextIndex st) st)).
    split; [reflexivity|].
    destruct (rerender_frame st (switchTo (nextIndex st) st))
      as (_ & _ & _ & _ & _ & _ & Hai).
    unfold previousIndex. rewrite rerender_images, Hai, switchTo_images,
      switchTo_activeIndex, Hlen.
    split; [reflexivity|]. fold n. rewrite Hnext. fold a.
    destruct (Z.eqb_spec (a + 1) n) as [E|N].
    + replace (0 - 1 + n) with a by lia. apply Z.rem_small. lia.
    + replace (a + 1 - 1 + n) with (a + n) by lia. apply rem_wrap. lia.
  - exists (rerender st (switchTo (previousIndex st) st)).
    split; [reflexivity|].
    destruct (rerender_frame st (switchTo (previousIndex st) st))
      as (_ & _ & _ & _ & _ & _ & Hai).
    unfold nextIndex. rewrite rerender_images, Hai, switchTo_images,
      switchTo_activeIndex, Hlen.
    split; [reflexivity|]. fold n. rewrite Hprev. fold a.
    destruct (Z.eqb_spec a 0) as [E|N].
    + replace (n - 1 + 1) with n by lia. rewrite Z.rem_same by lia. lia.
    + replace (a - 1 + 1) with a by lia. apply Z.rem_small. lia.
Qed.

Lemma append_cons (c : ascii) (a b : string) :
  String c a +:+ b = String c (a +:+ b).
Proof. reflexivity. Qed.

Lemma length_append (a b : string) :
  String.length (a +:+ b) = (String.length a + String.length b)%nat.
Proof.
  induction a as [|c a IH]; [reflexivity|].
  rewrite append_cons. simpl. now rewrite IH.
Qed.

Lemma append_inj_tail (a b x y : string) :
  String.length x = String.length y -> a +:+ x = b +:+ y -> a = b.
Proof.
  revert b. induction a as [|c a IH]; intros [|c' b] Hl E.
  - reflexivity.
  - apply (f_equal String.length) in E.
    rewrite !length_append in E. simpl in E. lia.
  - apply (f_equal String.length) in E.
    rewrite !length_append in E. simpl in E. lia.
  - rewrite !append_cons in E. injection E as -> E. f_equal. now apply IH.
Qed.

Lemma includes_append (c : ascii) (a b : string) :
  includes c (a +:+ b) = includes c a || includes c b.
Proof.
  induction a as [|x a IH]; [reflexivity|].
  rewrite append_cons. simpl. now rewrite IH, orb_assoc.
Qed.

(** X20: the URL with a width hint is never empty and always has a query
    string (so a second hint is appended with an ampersand), and at a given
    width two image URLs get the same hinted URL only if they are the same:
    the loaded set cannot take one image for another. *)
Theorem X20_withImageWidth_keeps_urls_apart (a b : string) (w : Z) :
  withImageWidth a w <> ""
  /\ includes "?"%char (withImageWidth a w) = true
  /\ (withImageWidth a w = withImageWidth b w -> a = b).
Proof.
  split; [|split].
  - pose proof (withImageWidth_truthy a w) as H.
    unfold JS.truthy_string in H. apply negb_true_iff in H.
    now apply String.eqb_neq.
  - unfold withImageWidth. rewrite includes_append.
    destruct (includes "?"%char a); reflexivity.
  - unfold withImageWidth. apply append_inj_tail.
    destruct (includes "?"%char a), (includes "?"%char b); reflexivity.
Qed.

End ControlFacts.

Section CarouselFurtherExamples.

Import Carousel Controls Traces.

Lemma X10_witness :
  loadedImages (mount [imageA; imageB] None) ⊆ loadedImages sweptState
  /\ forall u,
       u ∈ loadedImages sweptState ->
       u ∈ loadedImages (mount [imageA; imageB] None)
       \/ (u <> ""
           /\ existsb (loads u) [SweepTimer; PreloadLoaded (url800 imageB)]
              = true).
Proof.
  apply (X10_loaded_set_grows_by_reported_loads (mount [imageA; imageB] None)
           sweptState [SweepTimer; PreloadLoaded (url800 imageB)]).
  apply sweptState_reachable.
Defined.

Lemma X11_witness :
  exists s1,
    step (mount [imageA; imageB] None) (SwitchTo 1) = Some s1
    /\ preloads s1
       = preloads (mount [imageA; imageB] None) ++ [url800 imageB]
    /\ pendingIndex s1 = Some 1
    /\ phase s1 = phase (mount [imageA; imageB] None)
    /\ loadedImages s1 = loadedImages (mount [imageA; imageB] None)
    /\ waiting 1 (displayIndex (mount [imageA; imageB] None))
         (url800 imageB) s1.
Proof.
  apply (X11_switchTo_unloaded_starts_preload (mount [imageA; imageB] None) 1
           imageB).
  - apply reachable_mount.
  - vm_compute; discriminate.
  - vm_compute; discriminate.
  - vm_compute; reflexivity.
  - vm_compute; discriminate.
  - vm_compute; reflexivity.
Defined.

(** The state after [switchTo(1)] on a fresh product page with two
    images. *)
Lemma waiting_after_switchTo (s : state) :
  run (mount [imageA; imageB] None) [SwitchTo 1] = Some s ->
  waiting 1 0 (url800 imageB) s /\ pendingIndex s = Some 1
  /\ existsb (String.eqb (url800 imageB)) (preloads s) = true.
Proof.
  intros H. vm_compute in H. injection H as <-.
  split; [|split; [reflexivity|vm_compute; reflexivity]].
  split; [exists imageB; split; vm_compute; reflexivity|].
  split; [vm_compute; reflexivity|].
  split; [reflexivity|]. split; [reflexivity|]. split; [reflexivity|].
  split; [discriminate|]. left; reflexivity.
Qed.

Lemma X12_witness :
  exists s s',
    run (mount [imageA; imageB] None) [SwitchTo 1] = Some s
    /\ run s [SweepTimer; PreloadLoaded (url800 imageA);
              PreloadFailed (url800 imageB)] = Some s'
    /\ displayIndex s' = 0 /\ activeIndex s' = 1 /\ fadeOutTimer s' = None
    /\ has (url800 imageB) (loadedImages s') = false.
Proof.
  do 2 eexists. split; [vm_compute; reflexivity|].
  split; [vm_compute; reflexivity|].
  eapply (X12_display_waits_for_the_preload 1 0 (url800 imageB)
            [SweepTimer; PreloadLoaded (url800 imageA);
             PreloadFailed (url800 imageB)]).
  - apply waiting_after_switchTo. vm_compute; reflexivity.
  - vm_compute; reflexivity.
  - vm_compute; reflexivity.
Defined.

Lemma X13_witness :
  exists s,
    run (mount [imageA; imageB] None) [SwitchTo 1] = Some s
    /\ exists s2 s3,
         step s (PreloadLoaded (url800 imageB)) = Some s2
         /\ (displayIndex s2, activeIndex s2, phase s2, pendingIndex s2,
             fadeOutTimer s2) = (0, 1, fade_out, Some 1, Some 1)
         /\ loadedAt s2 1 = true
         /\ step s2 FadeOutTimer = Some s3
         /\ (displayIndex s3, activeIndex s3, phase s3, pendingIndex s3,
             fadeOutTimer s3) = (1, 1, fade_in, None, None).
Proof.
  eexists. split; [vm_compute; reflexivity|].
  eapply (X13_preload_completion_starts_the_fade 1 0 (url800 imageB)).
  - apply waiting_after_switchTo. vm_compute; reflexivity.
  - reflexivity.
  - vm_compute; reflexivity.
Defined.

Lemma X14_witness :
  exists s,
    run (mount [imageA; imageB] None)
      [SweepTimer; PreloadLoaded (url800 imageB); SwitchTo 1] = Some s
    /\ exists s',
         step s FadeOutTimer = Some s'
         /\ displayIndex s' = 1
         /\ loadedAt s' 1 = true
         /\ phase s' = fade_in
         /\ fadeOutTimer s' = None
         /\ fadeInTimers s' = S (fadeInTimers s)
         /\ activeIndex s' = activeIndex s.
Proof.
  eexists. split; [vm_compute; reflexivity|].
  eapply (X14_fade_out_timer_shows_a_loaded_image _ 1).
  - apply (run_reachable
             [SweepTimer; PreloadLoaded (url800 imageB); SwitchTo 1]
             (mount [imageA; imageB] None));
      [apply reachable_mount|vm_compute; reflexivity].
  - reflexivity.
Defined.

Lemma X15_witness :
  exists s,
    run (mount [imageA; imageB] None)
      [SweepTimer; PreloadLoaded (url800 imageB); SwitchTo 1; FadeOutTimer]
    = Some s
    /\ exists s',
         step s FadeInTimer = Some s'
         /\ phase s' = idle
         /\ pendingIndex s' = None
         /\ fadeOutTimer s' = None
         /\ displayIndex s' = displayIndex s
         /\ activeIndex s' = activeIndex s
         /\ fadeInTimers s' = 0%nat.
Proof.
  eexists. split; [vm_compute; reflexivity|].
  eapply (X15_fade_in_timer_ends_any_transition _ 0%nat).
  - apply (run_reachable
             [SweepTimer; PreloadLoaded (url800 imageB); SwitchTo 1;
              FadeOutTimer]
             (mount [imageA; imageB] None));
      [apply reachable_mount|vm_compute; reflexivity].
  - reflexivity.
Defined.

Lemma X16_witness :
  exists s',
    run (mount [imageA; imageB] None)
      [SweepTimer; PreloadLoaded (url800 imageB); SwitchTo 1; FadeOutTimer;
       Props None (Some imageA)] = Some s'
    /\ (fadeInTimers s'
        + length
            (List.filter isFadeIn
               [SweepTimer; PreloadLoaded (url800 imageB); SwitchTo 1;
                FadeOutTimer; Props None (Some imageA)])
        = fadeInTimers (mount [imageA; imageB] None)
          + length
              (List.filter isFadeOut
                 [SweepTimer; PreloadLoaded (url800 imageB); SwitchTo 1;
                  FadeOutTimer; Props None (Some imageA)]))%nat.
Proof.
  eexists. split; [vm_compute; reflexivity|].
  eapply (X16_fade_in_timers_are_never_cancelled
           (mount [imageA; imageB] None) _
           [SweepTimer; PreloadLoaded (url800 imageB); SwitchTo 1;
            FadeOutTimer; Props None (Some imageA)]).
  vm_compute; reflexivity.
Defined.

Lemma X17_witness :
  exists st',
    step (mount [imageA; imageB] None) SweepTimer = Some st'
    /\ preloads st'
       = preloads (mount [imageA; imageB] None)
         ++ unloadedTargets (mount [imageA; imageB] None)
    /\ unloadedTargets (mount [imageA; imageB] None) <> []
    /\ exceptPreloads st'
       = exceptPreloads (setSweepTimer false (mount [imageA; imageB] None))
    /\ forall u,
         In u (unloadedTargets (mount [imageA; imageB] None)) <->
         has u (loadedImages (mount [imageA; imageB] None)) = false
         /\ exists im,
              In im (images (mount [imageA; imageB] None))
              /\ url im <> "" /\ u = url800 im.
Proof.
  apply (X17_sweep_preloads_what_is_not_loaded
           (mount [imageA; imageB] None)).
  - apply reachable_mount.
  - vm_compute; reflexivity.
Defined.

Lemma X18_witness :
  exists im,
    activeImage (mount [imageA; imageB] None) = Some im
    /\ In im (images (mount [imageA; imageB] None)).
Proof.
  apply (X18_an_image_is_on_display (mount [imageA; imageB] None)).
  - apply reachable_mount.
  - vm_compute; discriminate.
Defined.

Lemma X19_witness :
  (exists im, imageAt (images sweptState) (nextIndex sweptState) = Some im)
  /\ (exists im,
        imageAt (images sweptState) (previousIndex sweptState) = Some im)
  /\ (exists s1, step sweptState (SwitchTo (nextIndex sweptState)) = Some s1
                 /\ activeIndex s1 = nextIndex sweptState
                 /\ previousIndex s1 = activeIndex sweptState)
  /\ (exists s1,
        step sweptState (SwitchTo (previousIndex sweptState)) = Some s1
        /\ activeIndex s1 = previousIndex sweptState
        /\ nextIndex s1 = activeIndex sweptState).
Proof.
  apply (X19_previous_and_next_buttons sweptState).
  split; [vm_compute; discriminate|vm_compute; reflexivity].
Defined.

End CarouselFurtherExamples.

(** * Properties of the recently-viewed list *)

Section RecentlyViewedFacts.

Import Carousel RecentlyViewed.

Variable p : product.
Variable variantImage : option image.
Variable images : list image.
Variable variantPrice : option money.

Lemma otherHandle_makeEntry :
  otherHandle (productHandle p)
    (Some (makeEntry p variantImage images variantPrice)) = false.
Proof. simpl. now rewrite String.eqb_refl. Qed.

Lemma filter_sublist {A : Type} (f : A -> bool) (l : list A) :
  List.filter f l `sublist_of` l.
Proof.
  induction l as [|x l IH]; simpl; [constructor|].
  destruct (f x); now constructor.
Qed.

Lemma filter_Forall {A : Type} (f : A -> bool) (l : list A) :
  Forall (fun x => f x = true) (List.filter f l).
Proof.
  apply Forall_forall. intros x Hx. apply list_elem_of_In in Hx.
  now apply filter_In in Hx.
Qed.

Lemma filter_all {A : Type} (f : A -> bool) (l : list A) :
  Forall (fun x => f x = true) l -> List.filter f l = l.
Proof.
  induction 1 as [|x l Hx _ IH]; simpl; [reflexivity|].
  now rewrite Hx, IH.
Qed.

(** What the effect writes when the stored text parses. *)
Lemma effect_storage (s : stored) :
  s <> Unparsable ->
  storage (recentlyViewedEffect p variantImage images variantPrice s)
  = Items (Some (makeEntry p variantImage images variantPrice)
           :: take 11 (List.filter (otherHandle (productHandle p))
                         (itemsOf s)))
  /\ shown (recentlyViewedEffect p variantImage images variantPrice s)
     = withoutHandle (productHandle p)
         (take 11 (List.filter (otherHandle (productHandle p)) (itemsOf s))).
Proof.
  intros Hs. unfold recentlyViewedEffect.
  destruct s; try contradiction; cbn [storage shown];
    (split; [reflexivity|]);
    unfold RECENTLY_VIEWED_MAX; cbn [take withoutHandle];
    rewrite otherHandle_makeEntry;
    now destruct (withoutHandle _ _).
Qed.

(** X21: when the stored text parses (or nothing is stored), a visit
    leaves a list of at most twelve items in the storage, the product on
    show first and nowhere else; the items after it are stored items of
    other products in their stored order, all of them when there were at
    most eleven. A text that does not parse is left as it is and nothing is
    shown. *)
Theorem X21_visit_puts_the_product_first (s : stored) :
  (s <> Unparsable ->
   exists rest,
     storage (recentlyViewedEffect p variantImage images variantPrice s)
     = Items (Some (makeEntry p variantImage images variantPrice) :: rest)
     /\ (length rest < RECENTLY_VIEWED_MAX)%nat
     /\ Forall (fun item => otherHandle (productHandle p) item = true) rest
     /\ rest `sublist_of` itemsOf s
     /\ ((length (List.filter (otherHandle (productHandle p)) (itemsOf s))
          < RECENTLY_VIEWED_MAX)%nat ->
         rest = List.filter (otherHandle (productHandle p)) (itemsOf s)))
  /\ (s = Unparsable ->
      recentlyViewedEffect p variantImage images variantPrice s
      = {| storage := Unparsable; shown := None |}).
Proof.
  split; [|now intros ->].
  intros Hs. destruct (effect_storage s Hs) as [E _].
  eexists. split; [exact E|].
  unfold RECENTLY_VIEWED_MAX.
  split; [rewrite length_take; lia|].
  split; [apply Forall_take, filter_Forall|].
  split.
  - transitivity (List.filter (otherHandle (productHandle p)) (itemsOf s));
      [apply sublist_take|apply filter_sublist].
  - intros Hlen. apply take_ge. lia.
Qed.

(** X22: a second visit of the same product changes nothing: the effect
    run again on what it left in the storage writes the same list and shows
    the same list. *)
Theorem X22_second_visit_changes_nothing (s : stored) :
  recentlyViewedEffect p variantImage images variantPrice
    (storage (recentlyViewedEffect p variantImage images variantPrice s))
  = recentlyViewedEffect p variantImage images variantPrice s.
Proof.
  assert (Hcase : s = Unparsable \/ s <> Unparsable)
    by (destruct s; auto; right; discriminate).
  destruct Hcase as [->|Hs]; [reflexivity|].
  destruct (effect_storage s Hs) as [E Esh].
  set (rest := take 11 (List.filter (otherHandle (productHandle p))
                          (itemsOf s))) in *.
  assert (Hrest : List.filter (otherHandle (productHandle p)) rest = rest)
    by (apply filter_all, Forall_take, filter_Forall).
  assert (Hlen : (length rest <= 11)%nat)
    by (unfold rest; rewrite length_take; lia).
  assert (E2 : recentlyViewedEffect p variantImage images variantPrice
                 (Items (Some (makeEntry p variantImage images variantPrice)
                         :: rest))
               = {| storage :=
                      Items (Some (makeEntry p variantImage images
                                     variantPrice) :: rest);
                    shown := withoutHandle (productHandle p) rest |}).
  { unfold recentlyViewedEffect. cbn [itemsOf List.filter].
    rewrite otherHandle_makeEntry, Hrest.
    unfold RECENTLY_VIEWED_MAX. cbn [take withoutHandle].
    rewrite (take_ge rest 11 Hlen), otherHandle_makeEntry.
    now destruct (withoutHandle _ rest). }
  rewrite E, E2.
  destruct (recentlyViewedEffect p variantImage images variantPrice s)
    as [st sh]. simpl in E, Esh. now subst.
Qed.

Lemma withoutHandle_Some (h : string) (l : list (option entry))
    (r : list entry) :
  Forall (fun item => otherHandle h item = true) l ->
  withoutHandle h l = Some r -> l = List.map Some r.
Proof.
  intros Hl. revert r. induction Hl as [|[e|] l Hx _ IH]; intros r H;
    simpl in H.
  - now injection H as <-.
  - destruct (withoutHandle h l) as [r'|]; [|discriminate].
    simpl in Hx. rewrite Hx in H. injection H as <-.
    simpl. f_equal. now apply IH.
  - discriminate.
Qed.

Lemma withoutHandle_None (h : string) (l : list (option entry)) :
  withoutHandle h l = None <-> In None l.
Proof.
  induction l as [|[e|] l IH]; simpl.
  - split; [discriminate|contradiction].
  - destruct (withoutHandle h l).
    + split; [discriminate|]. intros [H|H]; [discriminate|].
      now apply IH in H.
    + split; [|reflexivity]. intros _. right. now apply IH.
  - split; [now left|reflexivity].
Qed.

(** X23: the list handed to [setRecentlyViewed] is the written list
    without its first item: at most eleven entries, none of them the
    product on show. The call is reached unless a null item is among those
    written, and then the list on show is not updated although the storage
    is. *)
Theorem X23_shown_list_leaves_out_the_product (s : stored) :
  s <> Unparsable ->
  (forall l,
     shown (recentlyViewedEffect p variantImage images variantPrice s)
     = Some l ->
     storage (recentlyViewedEffect p variantImage images variantPrice s)
     = Items (Some (makeEntry p variantImage images variantPrice)
              :: List.map Some l)
     /\ (length l < RECENTLY_VIEWED_MAX)%nat
     /\ Forall (fun e => handle e <> Some (productHandle p)) l)
  /\ (shown (recentlyViewedEffect p variantImage images variantPrice s)
      = None <->
      exists l,
        storage (recentlyViewedEffect p variantImage images variantPrice s)
        = Items l /\ In None l).
Proof.
  intros Hs. destruct (effect_storage s Hs) as [E Esh].
  set (rest := take 11 (List.filter (otherHandle (productHandle p))
                          (itemsOf s))) in *.
  assert (Hall : Forall (fun item => otherHandle (productHandle p) item
                                     = true) rest)
    by (apply Forall_take, filter_Forall).
  split.
  - intros l Hl. rewrite Esh in Hl.
    pose proof (withoutHandle_Some _ _ _ Hall Hl) as Hmap.
    rewrite E, Hmap. split; [reflexivity|].
    split.
    + apply (f_equal length) in Hmap. rewrite length_map in Hmap.
      rewrite <- Hmap. unfold rest, RECENTLY_VIEWED_MAX.
      rewrite length_take. lia.
    + rewrite Hmap in Hall. apply Forall_forall. intros e He.
      rewrite Forall_forall in Hall.
      specialize (Hall (Some e)
                    ltac:(apply list_elem_of_In, in_map,
                            list_elem_of_In, He)).
      simpl in Hall. intros Hh. rewrite Hh, String.eqb_refl in Hall.
      discriminate.
  - rewrite Esh, E, withoutHandle_None. split.
    + intros H. eexists. split; [reflexivity|]. now right.
    + intros (l & Hl & Hin). injection Hl as <-.
      destruct Hin as [H|H]; [discriminate|exact H].
Qed.

End RecentlyViewedFacts.

Section TwoVisits.

Import Carousel RecentlyViewed.

(** X24: the product seen just before comes first in the list on show:
    after a visit of one product and then of another, the storage starts
    with the second product's entry followed by the first one's, and the
    list shown on the second page, when it is updated, starts with the
    first product's entry. *)
Theorem X24_last_seen_product_is_shown_first (p1 p2 : product)
    (v1 v2 : option image) (images1 images2 : list image)
    (price1 price2 : option money) (s : stored) :
  s <> Unparsable ->
  productHandle p1 <> productHandle p2 ->
  (exists rest,
     storage (recentlyViewedEffect p2 v2 images2 price2
                (storage (recentlyViewedEffect p1 v1 images1 price1 s)))
     = Items (Some (makeEntry p2 v2 images2 price2)
              :: Some (makeEntry p1 v1 images1 price1) :: rest))
  /\ (forall l,
        shown (recentlyViewedEffect p2 v2 images2 price2
                 (storage (recentlyViewedEffect p1 v1 images1 price1 s)))
        = Some l ->
        head l = Some (makeEntry p1 v1 images1 price1)).
Proof.
  intros Hs Hne.
  destruct (effect_storage p1 v1 images1 price1 s Hs) as [E1 _].
  set (s1 := storage (recentlyViewedEffect p1 v1 images1 price1 s)) in *.
  assert (Hs1 : s1 <> Unparsable) by (rewrite E1; discriminate).
  destruct (effect_storage p2 v2 images2 price2 s1 Hs1) as [E2 Esh].
  rewrite E2, Esh, E1. cbn [itemsOf List.filter].
  assert (Hother : otherHandle (productHandle p2)
                     (Some (makeEntry p1 v1 images1 price1)) = true).
  { simpl. apply negb_true_iff. now apply String.eqb_neq. }
  rewrite Hother. cbn [take withoutHandle].
  split; [eexists; reflexivity|].
  intros l Hl. rewrite Hother in Hl.
  match type of Hl with
  | match ?w with _ => _ end = _ => destruct w; [|discriminate]
  end.
  now injection Hl as <-.
Qed.

End TwoVisits.

Section RecentlyViewedExamples.

Import Carousel RecentlyViewed.

(** The phone was seen before; the laptop is on show. The list on show is
    the phone alone; with a null item in the storage the list on show is
    not set. *)
Lemma X23_witness :
  ((forall l,
      shown (recentlyViewedEffect laptop None [imageB] (Some tenDollars)
               (Items [Some (makeEntry laptop None [imageB]
                               (Some tenDollars));
                       Some (makeEntry phone None [imageA]
                               (Some tenDollars))]))
      = Some l ->
      storage (recentlyViewedEffect laptop None [imageB] (Some tenDollars)
                 (Items [Some (makeEntry laptop None [imageB]
                                 (Some tenDollars));
                         Some (makeEntry phone None [imageA]
                                 (Some tenDollars))]))
      = Items (Some (makeEntry laptop None [imageB] (Some tenDollars))
               :: List.map Some l)
      /\ (length l < RECENTLY_VIEWED_MAX)%nat
      /\ Forall (fun e => handle e <> Some (productHandle laptop)) l)
   /\ (shown (recentlyViewedEffect laptop None [imageB] (Some tenDollars)
                (Items [Some (makeEntry laptop None [imageB]
                                (Some tenDollars));
                        Some (makeEntry phone None [imageA]
                                (Some tenDollars))]))
       = None
       <->
       exists l,
         storage (recentlyViewedEffect laptop None [imageB]
                    (Some tenDollars)
                    (Items [Some (makeEntry laptop None [imageB]
                                    (Some tenDollars));
                            Some (makeEntry phone None [imageA]
                                    (Some tenDollars))]))
         = Items l /\ In None l))
  /\ shown (recentlyViewedEffect laptop None [imageB] (Some tenDollars)
              (Items [Some (makeEntry laptop None [imageB]
                              (Some tenDollars));
                      Some (makeEntry phone None [imageA]
                              (Some tenDollars))]))
     = Some [makeEntry phone None [imageA] (Some tenDollars)]
  /\ shown (recentlyViewedEffect laptop None [imageB] (Some tenDollars)
              (Items [None;
                      Some (makeEntry phone None [imageA]
                              (Some tenDollars))]))
     = None.
Proof.
  split; [|split; vm_compute; reflexivity].
  apply (X23_shown_list_leaves_out_the_product laptop None [imageB]
           (Some tenDollars)
           (Items [Some (makeEntry laptop None [imageB] (Some tenDollars));
                   Some (makeEntry phone None [imageA] (Some tenDollars))])).
  discriminate.
Defined.

Lemma X24_witness :
  (exists rest,
     storage (recentlyViewedEffect laptop None [imageB] None
                (storage (recentlyViewedEffect phone None [imageA] None
                            Missing)))
     = Items (Some (makeEntry laptop None [imageB] None)
              :: Some (makeEntry phone None [imageA] None) :: rest))
  /\ (forall l,
        shown (recentlyViewedEffect laptop None [imageB] None
                 (storage (recentlyViewedEffect phone None [imageA] None
                             Missing)))
        = Some l ->
        head l = Some (makeEntry phone None [imageA] None)).
Proof.
  apply (X24_last_seen_product_is_shown_first phone laptop None None
           [imageA] [imageB] None None Missing).
  - discriminate.
  - vm_compute; discriminate.
Defined.

End RecentlyViewedExamples.

(** * Properties of the header menu *)

Section MenuFacts.

Import Menu.

Variable av : availability.

Lemma menuItem_induction (P : menuItem -> Prop) :
  (forall i t ty r u children,
     Forall (fun child => match child with
                          | Some c => P c
                          | None => True
                          end) children ->
     P (MenuItem i t ty r u children)) ->
  forall item, P item.
Proof.
  intros H. fix IH 1. intros [i t ty r u children]. apply H.
  revert children. fix IHl 1. intros [|[c|] l].
  - constructor.
  - constructor; [apply IH|apply IHl].
  - constructor; [exact I|apply IHl].
Qed.

Lemma keep_In (f : menuItem -> option menuItem) (l : list (option menuItem))
    (c' : menuItem) :
  In c' (keep f l) -> exists c, In (Some c) l /\ f c = Some c'.
Proof.
  induction l as [|[c|] l IH]; simpl; [contradiction| |].
  - destruct (f c) as [x|] eqn:E.
    + intros [<-|H]; [now exists c; auto|].
      destruct (IH H) as (c0 & Hin & Hf). exists c0; auto.
    + intros H. destruct (IH H) as (c0 & Hin & Hf). exists c0; auto.
  - intros H. destruct (IH H) as (c0 & Hin & Hf). exists c0; auto.
Qed.

Lemma keep_fixed (f : menuItem -> option menuItem)
    (l : list (option menuItem)) :
  Forall (fun child => match child with
                       | Some c => f c = Some c
                       | None => False
                       end) l ->
  List.map Some (keep f l) = l.
Proof.
  induction 1 as [|[c|] l Hc _ IH]; simpl; [reflexivity| |contradiction].
  rewrite Hc. simpl. now rewrite IH.
Qed.

Lemma forallb_map_Some (P : menuItem -> bool) (l : list menuItem) :
  forallb (fun child => match child with
                        | Some c => P c
                        | None => true
                        end) (List.map Some l)
  = forallb P l.
Proof. induction l as [|x l IH]; simpl; [reflexivity|]. now rewrite IH. Qed.

Lemma noNull_map_Some (i t ty : string) (r u : option string)
    (l : list menuItem) :
  noNull (MenuItem i t ty r u (List.map Some l)) = true.
Proof.
  unfold noNull. simpl. induction l as [|x l IH]; simpl; [reflexivity|].
  exact IH.
Qed.

(** What the filter keeps passes it, at every depth. *)
Lemma filterMenuItem_passes (item item' : menuItem) :
  filterMenuItem av item = Some item' ->
  everywhere (passes av) item' = true
  /\ (id item', title item', type item', resourceId item', url item')
     = (id item, title item, type item, resourceId item, url item).
Proof.
  revert item'. induction item as [i t ty r u children IH]
    using menuItem_induction.
  intros item'. cbn [filterMenuItem].
  destruct (withoutProducts av (MenuItem i t ty r u children)) eqn:Hw;
    [discriminate|].
  destruct (negb (JS.present u) && _) eqn:Hu; [discriminate|].
  intros H. injection H as <-. split; [|reflexivity].
  cbn [everywhere]. apply andb_true_intro. split.
  - unfold passes. rewrite noNull_map_Some, andb_true_r.
    apply andb_true_intro. split.
    + unfold withoutProducts, isCollection in *. simpl in *.
      now rewrite Hw.
    + cbn [url items]. rewrite length_map.
      destruct (JS.present u); [reflexivity|]. simpl in Hu. now rewrite Hu.
  - rewrite forallb_map_Some. apply forallb_forall. intros c' Hc'.
    apply keep_In in Hc' as (c & Hin & Hf).
    rewrite Forall_forall in IH.
    specialize (IH (Some c) ltac:(apply list_elem_of_In, Hin)).
    now apply IH.
Qed.

(** What passes the filter at every depth is kept as it is. *)
Lemma filterMenuItem_fixed (item : menuItem) :
  everywhere (passes av) item = true -> filterMenuItem av item = Some item.
Proof.
  induction item as [i t ty r u children IH] using menuItem_induction.
  cbn [everywhere]. intros H. apply andb_prop in H as [Hp Hall].
  unfold passes in Hp. apply andb_prop in Hp as [Hp Hnn].
  apply andb_prop in Hp as [Hw Hu]. apply negb_true_iff in Hw.
  assert (Hkeep : List.map Some (keep (filterMenuItem av) children)
                  = children).
  { apply keep_fixed. apply Forall_forall. intros [c|] Hc.
    - rewrite Forall_forall in IH. apply (IH (Some c) Hc).
      rewrite forallb_forall in Hall.
      apply (Hall (Some c)). now apply list_elem_of_In.
    - unfold noNull in Hnn. cbn [items] in Hnn.
      rewrite forallb_forall in Hnn.
      specialize (Hnn None ltac:(apply list_elem_of_In, Hc)).
      discriminate. }
  cbn [filterMenuItem]. rewrite Hw, Hkeep.
  cbn [url items] in Hu.
  assert (Hlen : length (keep (filterMenuItem av) children)
                 = length children)
    by (rewrite <- Hkeep at 2; now rewrite length_map).
  rewrite Hlen.
  destruct (JS.present u); [reflexivity|]. simpl in Hu. simpl.
  apply negb_true_iff in Hu. now rewrite Hu.
Qed.

Lemma filterMenuItems_fixed (l : list menuItem) :
  Forall (fun item => everywhere (passes av) item = true) l ->
  filterMenuItems (List.map Some l) av = l.
Proof.
  unfold filterMenuItems. induction 1 as [|x l Hx _ IH]; simpl;
    [reflexivity|].
  now rewrite (filterMenuItem_fixed x Hx), IH.
Qed.

Lemma filterMenuItems_passes (l : list (option menuItem)) :
  Forall (fun item => everywhere (passes av) item = true)
    (filterMenuItems l av).
Proof.
  apply Forall_forall. intros c' Hc'. apply list_elem_of_In in Hc'.
  apply keep_In in Hc' as (c & _ & Hf).
  now apply (filterMenuItem_passes c c').
Qed.

(** X25: in the filtered menu, at every depth, no item is a collection
    the availability map marks as without products, every item has a url or
    at least one sub-item left, and no sub-item is null; and every item
    kept at the top is an item of the menu, with its id, title, type,
    resource and url. *)
Theorem X25_filtered_menu_hides_empty_collections
    (l : list (option menuItem)) (item' : menuItem) :
  In item' (filterMenuItems l av) ->
  everywhere (passes av) item' = true
  /\ exists item,
       In (Some item) l
       /\ (id item', title item', type item', resourceId item', url item')
          = (id item, title item, type item, resourceId item, url item).
Proof.
  intros H. apply keep_In in H as (c & Hin & Hf).
  destruct (filterMenuItem_passes c item' Hf) as [Hp Heq].
  split; [exact Hp|]. now exists c.
Qed.

(** X26: a menu with nothing to hide passes the filter unchanged, and so
    filtering a filtered menu changes nothing. *)
Theorem X26_filtering_twice_is_filtering_once (l : list (option menuItem)) :
  (forall m : list menuItem,
     Forall (fun item => everywhere (passes av) item = true) m ->
     filterMenuItems (List.map Some m) av = m)
  /\ filterMenuItems (List.map Some (filterMenuItems l av)) av
     = filterMenuItems l av.
Proof.
  split; [apply filterMenuItems_fixed|].
  apply filterMenuItems_fixed, filterMenuItems_passes.
Qed.

Lemma filter_true {A : Type} (f : A -> bool) (l : list A) :
  forallb f l = true -> List.filter f l = l.
Proof.
  induction l as [|x l IH]; simpl; [reflexivity|].
  intros H. apply andb_prop in H as [Hx Hl]. now rewrite Hx, IH.
Qed.

(** X27: on the filtered menu the guards of the header's item components
    never fire: both the desktop and the mobile component keep every
    sub-item of a filtered item, and neither returns null for it. *)
Theorem X27_filtered_items_are_all_rendered (l : list (option menuItem))
    (item : menuItem) :
  In item (filterMenuItems l av) ->
  desktopChildren item = items item
  /\ mobileChildren item = items item
  /\ rendered (desktopChildren item) item = true
  /\ rendered (mobileChildren item) item = true.
Proof.
  intros H.
  assert (Hp : everywhere (passes av) item = true).
  { pose proof (filterMenuItems_passes l) as Hall.
    rewrite Forall_forall in Hall. apply Hall. now apply list_elem_of_In. }
  destruct item as [i t ty r u children]. cbn [everywhere] in Hp.
  apply andb_prop in Hp as [Hp Hall].
  unfold passes in Hp. apply andb_prop in Hp as [Hp Hnn].
  apply andb_prop in Hp as [_ Hu].
  assert (Hd : desktopChildren (MenuItem i t ty r u children) = children).
  { unfold desktopChildren. cbn [items]. apply filter_true.
    apply forallb_forall. intros [c|] Hc.
    - rewrite forallb_forall in Hall. specialize (Hall (Some c) Hc).
      destruct c as [ci ct cty cr cu cl]. cbn [everywhere] in Hall.
      apply andb_prop in Hall as [Hpc _]. unfold passes in Hpc.
      apply andb_prop in Hpc as [Hpc _].
      now apply andb_prop in Hpc as [_ Hcu].
    - unfold noNull in Hnn. rewrite forallb_forall in Hnn.
      now specialize (Hnn None Hc). }
  assert (Hm : mobileChildren (MenuItem i t ty r u children) = children).
  { unfold mobileChildren. cbn [items]. now apply filter_true. }
  rewrite Hd, Hm. unfold rendered. now repeat split.
Qed.

End MenuFacts.

Section MenuExamples.

Import Menu.

Lemma X25_witness :
  everywhere (passes exampleAvailability) shopLink = true
  /\ exists item,
       In (Some item) exampleMenu
       /\ (id shopLink, title shopLink, type shopLink, resourceId shopLink,
           url shopLink)
          = (id item, title item, type item, resourceId item, url item).
Proof.
  apply (X25_filtered_menu_hides_empty_collections exampleAvailability
           exampleMenu shopLink).
  vm_compute. left. reflexivity.
Defined.

Lemma X27_witness :
  desktopChildren shopLink = items shopLink
  /\ mobileChildren shopLink = items shopLink
  /\ rendered (desktopChildren shopLink) shopLink = true
  /\ rendered (mobileChildren shopLink) shopLink = true.
Proof.
  apply (X27_filtered_items_are_all_rendered exampleAvailability exampleMenu
           shopLink).
  vm_compute. left. reflexivity.
Defined.

End MenuExamples.

(** * Properties of the home page's collection handles *)

Section HomeFacts.

Import Menu Home.

Lemma uniqueFrom_In (seen : gset string) (l : list string) (h : string) :
  In h (uniqueFrom seen l) <-> In h l /\ h ∉ seen.
Proof.
  revert seen. induction l as [|x l IH]; intros seen; simpl.
  - tauto.
  - destruct (decide (x ∈ seen)) as [Hx|Hx].
    + rewrite (bool_decide_eq_true_2 _ Hx), IH. split.
      * intros [H1 H2]. auto.
      * intros [[->|H1] H2]; [contradiction|auto].
    + rewrite (bool_decide_eq_false_2 _ Hx). simpl. rewrite IH. split.
      * intros [->|[H1 H2]]; [auto|]. split; [auto|].
        intros H. apply H2. now apply elem_of_union_r.
      * intros [[->|H1] H2]; [auto|].
        destruct (String.eqb_spec x h) as [->|Hne]; [auto|right].
        split; [exact H1|]. intros [H|H]%elem_of_union; [|contradiction].
        apply elem_of_singleton in H. congruence.
Qed.

Lemma uniqueFrom_NoDup (seen : gset string) (l : list string) :
  List.NoDup (uniqueFrom seen l).
Proof.
  revert seen. induction l as [|x l IH]; intros seen; simpl;
    [constructor|].
  destruct (bool_decide (x ∈ seen)); [apply IH|].
  constructor; [|apply IH].
  rewrite uniqueFrom_In. intros [_ H]. apply H.
  apply elem_of_union_l. now apply elem_of_singleton.
Qed.

Lemma uniqueFrom_sublist (seen : gset string) (l : list string) :
  uniqueFrom seen l `sublist_of` l.
Proof.
  revert seen. induction l as [|x l IH]; intros seen; simpl;
    [constructor|].
  destruct (bool_decide (x ∈ seen)); constructor; apply IH.
Qed.

Lemma uniqueFrom_fixed (seen : gset string) (l : list string) :
  List.NoDup l -> (forall h, In h l -> h ∉ seen) -> uniqueFrom seen l = l.
Proof.
  intros Hnd. revert seen. induction Hnd as [|x l Hx _ IH]; intros seen Hs;
    simpl; [reflexivity|].
  rewrite (bool_decide_eq_false_2 _ (Hs x (or_introl eq_refl))).
  f_equal. apply IH. intros h Hh [H|H]%elem_of_union.
  - apply elem_of_singleton in H. congruence.
  - apply (Hs h); [now right|exact H].
Qed.

(** The first handle is kept, and its later occurrences are the ones
    dropped. *)
Lemma uniqueFrom_filter (seen : gset string) (x : string) (l : list string) :
  uniqueFrom ({[ x ]} ∪ seen) l
  = uniqueFrom seen (List.filter (fun h => negb (String.eqb h x)) l).
Proof.
  revert seen. induction l as [|y l IH]; intros seen; simpl;
    [reflexivity|].
  destruct (String.eqb_spec y x) as [->|Hne]; simpl.
  - rewrite bool_decide_eq_true_2
      by (apply elem_of_union_l; now apply elem_of_singleton).
    apply IH.
  - destruct (decide (y ∈ seen)) as [Hy|Hy].
    + rewrite (bool_decide_eq_true_2 (y ∈ seen) Hy).
      rewrite bool_decide_eq_true_2 by (now apply elem_of_union_r).
      apply IH.
    + rewrite (bool_decide_eq_false_2 (y ∈ seen) Hy).
      rewrite bool_decide_eq_false_2.
      * f_equal.
        replace ({[y]} ∪ ({[x]} ∪ seen)) with ({[x]} ∪ ({[y]} ∪ seen))
          by (rewrite !(assoc_L (∪)), (comm_L (∪) {[x]} {[y]});
              reflexivity).
        apply IH.
      * intros [H|H]%elem_of_union; [|contradiction].
        apply elem_of_singleton in H. congruence.
Qed.

(** X28: [getUniqueHandles] returns every handle of its argument once, at
    the place of its first occurrence: the result has no duplicates and the
    same elements, it is the argument with elements left out, a handle
    stays in front with its later occurrences dropped, a list without
    duplicates is returned as it is, and a second pass changes nothing. *)
Theorem X28_getUniqueHandles_keeps_first_occurrences (l : list string) :
  List.NoDup (getUniqueHandles l)
  /\ (forall h, In h (getUniqueHandles l) <-> In h l)
  /\ getUniqueHandles l `sublist_of` l
  /\ (forall x r,
        l = x :: r ->
        getUniqueHandles l
        = x :: getUniqueHandles
                 (List.filter (fun h => negb (String.eqb h x)) r))
  /\ (List.NoDup l -> getUniqueHandles l = l)
  /\ getUniqueHandles (getUniqueHandles l) = getUniqueHandles l.
Proof.
  unfold getUniqueHandles.
  split; [apply uniqueFrom_NoDup|].
  split.
  { intros h. rewrite uniqueFrom_In. split; [tauto|].
    intros H. split; [exact H|]. apply not_elem_of_empty. }
  split; [apply uniqueFrom_sublist|].
  split.
  { intros x r ->. simpl.
    rewrite bool_decide_eq_false_2 by apply not_elem_of_empty.
    f_equal. apply uniqueFrom_filter. }
  split.
  { intros H. apply uniqueFrom_fixed; [exact H|].
    intros h _. apply not_elem_of_empty. }
  apply uniqueFrom_fixed; [apply uniqueFrom_NoDup|].
  intros h _. apply not_elem_of_empty.
Qed.

Variable collectionHandleOf : string -> option string.

Lemma getCollectionHandlesFromMenu_In (items : list (option menuItem))
    (h : string) :
  In h (getCollectionHandlesFromMenu collectionHandleOf items) <->
  h <> ""
  /\ exists item,
       In (Some item) items
       /\ getCollectionHandleFromUrl collectionHandleOf (url item) = Some h.
Proof.
  induction items as [|item items IH]; simpl.
  - split; [contradiction|]. intros (_ & item & [] & _).
  - set (o := getCollectionHandleFromUrl collectionHandleOf
                (match item with Some i => url i | None => None end)).
    assert (Hrest :
      h <> ""
      /\ (exists it, (item = Some it \/ In (Some it) items)
                     /\ getCollectionHandleFromUrl collectionHandleOf
                          (url it) = Some h)
      <-> (h <> "" /\ o = Some h)
          \/ In h (getCollectionHandlesFromMenu collectionHandleOf items)).
    { rewrite IH. split.
      - intros (Hne & it & [E|Hin] & Hit).
        + left. subst item. now split.
        + right. split; [exact Hne|]. now exists it.
      - intros [[Hne Ho]|(Hne & it & Hin & Hit)].
        + split; [exact Hne|].
          destruct item as [i|]; [|unfold o in Ho; discriminate].
          exists i. split; [now left|exact Ho].
        + split; [exact Hne|]. exists it. split; [now right|exact Hit]. }
    rewrite Hrest. clear Hrest.
    destruct o as [s|].
    + unfold JS.truthy_string. destruct (String.eqb_spec s ""); simpl.
      * split; [now right|]. intros [[Hne E]|H]; [|exact H].
        injection E as <-. contradiction.
      * split.
        -- intros [<-|H]; [now left|now right].
        -- intros [[_ E]|H]; [left; now injection E|now right].
    + split; [now right|]. intros [[_ E]|H]; [discriminate|exact H].
Qed.

(** X29: the handles the loader asks the collections of are the non-empty
    collection handles of the urls of the menu's top-level items, each of
    them once. *)
Theorem X29_menu_collection_handles (items : list (option menuItem)) :
  List.NoDup (menuCollectionHandles collectionHandleOf items)
  /\ forall h,
       In h (menuCollectionHandles collectionHandleOf items) <->
       h <> ""
       /\ exists item,
            In (Some item) items
            /\ getCollectionHandleFromUrl collectionHandleOf (url item)
               = Some h.
Proof.
  unfold menuCollectionHandles, getUniqueHandles.
  split; [apply uniqueFrom_NoDup|].
  intros h. rewrite uniqueFrom_In, getCollectionHandlesFromMenu_In.
  split; [tauto|]. intros H. split; [exact H|]. apply not_elem_of_empty.
Qed.

End HomeFacts.

(** * The load of the main image *)

Section MainImageFacts.

Import Carousel.

(** X30: the load of the main image element puts the image on display
    into the loaded set: when the element reports the 800px URL of the
    image on display (its [src], for an absolute image url), the turn ends
    with the same index on display and the same active index, the image
    there loaded, and nothing gone from the loaded set. This is how an image
    the variant effect put on display without a preload gets loaded. *)
Theorem X30_main_image_load_marks_the_display_loaded (st : state)
    (im : image) :
  activeImage st = Some im ->
  exists st',
    step st (MainImageLoaded (url800 im)) = Some st'
    /\ displayIndex st' = displayIndex st
    /\ activeIndex st' = activeIndex st
    /\ loadedAt st' (displayIndex st') = true
    /\ loadedImages st ⊆ loadedImages st'.
Proof.
  intros Him. exists (rerender st (markLoaded (url800 im) st)).
  split; [simpl; now rewrite Him|].
  destruct (rerender_frame st (markLoaded (url800 im) st))
    as (_ & _ & Hl & _ & _ & Hd & Ha).
  destruct (markLoaded_frame (url800 im) st)
    as (Hb & Hv & Hai & Hdi & _ & _ & _ & _ & _ & Hsub).
  rewrite Hd, Ha, Hdi, Hai, Hl.
  split; [reflexivity|]. split; [reflexivity|]. split; [|exact Hsub].
  unfold loadedAt. rewrite rerender_images, Hl.
  unfold activeImage in Him.
  replace (images (markLoaded (url800 im) st)) with (images st)
    by (unfold images; now rewrite Hb, Hv).
  rewrite Him. unfold has. apply bool_decide_eq_true_2.
  unfold markLoaded, url800. rewrite withImageWidth_truthy. simpl.
  apply addLoaded_has.
Qed.

End MainImageFacts.

Section MainImageExamples.

Import Carousel.

Lemma X30_witness :
  exists st',
    step (mount [imageA; imageB] None) (MainImageLoaded (url800 imageA))
    = Some st'
    /\ displayIndex st' = displayIndex (mount [imageA; imageB] None)
    /\ activeIndex st' = activeIndex (mount [imageA; imageB] None)
    /\ loadedAt st' (displayIndex st') = true
    /\ loadedImages (mount [imageA; imageB] None) ⊆ loadedImages st'.
Proof.
  apply (X30_main_image_load_marks_the_display_loaded
           (mount [imageA; imageB] None) imageA).
  vm_compute; reflexivity.
Defined.

End MainImageExamples.
